(** * Storage-node piece server endpoint (storagenode/piecestore/endpoint.go)

    A shallow embedding of the request handlers of the piecestore endpoint:
    [Upload], [Download], [Delete], [DeletePieces], [RestoreTrash], [Retain]
    and the helper [saveOrder], and of the key-value store of piece data
    (storage/ldb/store.go), together with the properties of section 8 of the
    specification and further properties of the code.

    Conventions.
    - Go's [int64] and [int32] values are integers of [Z]; every addition and
      subtraction of the source is written with its wrap-around ([add64],
      [sub64], [add32]).
    - A Go [error] is a value of [GoError]; a nil error is [None].
    - An RPC stream is the list of results its successive [Recv] calls give;
      a [Recv] on an exhausted stream gives [io.EOF].
    - The collaborators of the endpoint (trust pool, monitor, signer, orders
      queue, bandwidth ledger, piece store) are not part of the endpoint: the
      outcome of each call that can fail is taken from [Collab].  The state
      the collaborators hold is the [World].
    - The two tasks of a download share the throttle and nothing else: the
      tokens the sending task finds are those the receiving loop has
      produced on the results of [Recv] it is through with, and a run is
      given by the stream and by the turns of the sending task. *)

From Stdlib Require Import ZArith Lia.
From stdpp Require Import base option list gmap strings.

Local Open Scope Z_scope.

(** ** Machine integers *)

Definition wrap (bits : Z) (z : Z) : Z :=
  (z + 2 ^ (bits - 1)) mod 2 ^ bits - 2 ^ (bits - 1).

Definition add64 (a b : Z) : Z := wrap 64 (a + b).
Definition sub64 (a b : Z) : Z := wrap 64 (a - b).
Definition add32 (a b : Z) : Z := wrap 32 (a + b).

Definition max_int64 : Z := 2 ^ 63 - 1.
Definition min_int64 : Z := - 2 ^ 63.

Definition bytes := list Byte.byte.

(** [int64(len(data))] *)
Definition len64 (data : bytes) : Z := Z.of_nat (length data).

(** [min] of endpoint.go *)
Definition min (a b : Z) : Z := if a <? b then a else b.

(** ** Errors and status codes *)

Inductive StatusCode :=
| Unknown | OK | Canceled | InvalidArgument | DeadlineExceeded | NotFound
| AlreadyExists | PermissionDenied | ResourceExhausted | FailedPrecondition
| Aborted | OutOfRange | Unimplemented | Internal | Unavailable | DataLoss
| Unauthenticated.

(** The error values the handlers see or build.  [status] is
    [rpcstatus.Error]/[rpcstatus.Errorf]: the text is the format string and
    [args] the integers formatted into it.  [wrapped] is [rpcstatus.Wrap] and
    [combined] is [errs.Combine] of two non-nil errors. *)
Inductive GoError :=
| io_EOF
| context_Canceled
| os_NotExist
| failure (what : string)
| status (code : StatusCode) (text : string) (args : list Z)
| wrapped (code : StatusCode) (cause : GoError)
| combined (e1 e2 : GoError).

(** [rpcstatus.Wrap]: a nil error stays nil. *)
Definition Wrap (code : StatusCode) (err : option GoError) : option GoError :=
  match err with
  | None => None
  | Some e => Some (wrapped code e)
  end.

(** [errs.Combine] on two errors. *)
Definition Combine (a b : option GoError) : option GoError :=
  match a, b with
  | None, None => None
  | Some e, None => Some e
  | None, Some e => Some e
  | Some e1, Some e2 => Some (combined e1 e2)
  end.

(** [errs.Is(err, io.EOF)]: looks through wrapping. *)
Fixpoint Is_EOF (e : GoError) : bool :=
  match e with
  | io_EOF => true
  | wrapped _ c => Is_EOF c
  | combined a b => Is_EOF a || Is_EOF b
  | _ => false
  end.

Definition isCanceled (code : StatusCode) : bool :=
  match code with
  | Canceled => true
  | _ => false
  end.

(** [errs2.IsCanceled]: true of [context.Canceled] and of an error whose
    status code ([rpcstatus.Code]) is canceled, and of an error that wraps or
    combines such an error. *)
Fixpoint IsCanceled (e : GoError) : bool :=
  match e with
  | context_Canceled => true
  | status code _ _ => isCanceled code
  | wrapped code c => isCanceled code || IsCanceled c
  | combined a b => IsCanceled a || IsCanceled b
  | _ => false
  end.

(** [os.IsNotExist] *)
Definition IsNotExist (e : GoError) : bool :=
  match e with
  | os_NotExist => true
  | _ => false
  end.

(** The status code a caller sees ([rpcstatus.Code]); [OK] for nil. *)
Definition Code (err : option GoError) : StatusCode :=
  match err with
  | None => OK
  | Some context_Canceled => Canceled
  | Some (status c _ _) => c
  | Some (wrapped c _) => c
  | Some _ => Unknown
  end.

(** What a handler does: it returns an error (or nil), or it panics. *)
Inductive Outcome :=
| Returned (err : option GoError)
| Panicked.

(** ** Messages (pb) *)

Inductive PieceAction :=
| INVALID | PUT | GET | GET_AUDIT | GET_REPAIR | PUT_REPAIR | DELETE | PUT_GRACEFUL_EXIT.

Global Instance PieceAction_eq_dec : EqDecision PieceAction.
Proof. solve_decision. Defined.

(** Times are integers; 0 is the zero time ([IsZero]). *)
Record OrderLimit := {
  SerialNumber : Z;
  SatelliteId : Z;
  UplinkPublicKey : Z;
  StorageNodeId : Z;
  PieceId : Z;
  Limit : Z;
  Action : PieceAction;
  PieceExpiration : Z;
  OrderCreation : Z;
  OrderExpiration : Z;
  SatelliteSignature : Z
}.

Record Order := {
  OrderSerialNumber : Z;
  Amount : Z;
  UplinkSignature : Z
}.

(** [pb.Order{}] *)
Definition Order_zero : Order :=
  {| OrderSerialNumber := 0; Amount := 0; UplinkSignature := 0 |}.

Record PieceHash := {
  HashPieceId : Z;
  Hash : bytes;
  PieceSize : Z;
  Timestamp : Z;
  Signature : Z
}.

Record UploadChunk := {
  Offset : Z;
  Data : bytes
}.

Record PieceUploadRequest := {
  UpLimit : option OrderLimit;
  UpOrder : option Order;
  UpChunk : option UploadChunk;
  UpDone : option PieceHash
}.

Record DownloadChunk := {
  ChunkOffset : Z;
  ChunkSize : Z
}.

Record PieceDownloadRequest := {
  DownLimit : option OrderLimit;
  DownOrder : option Order;
  DownChunk : option DownloadChunk
}.

(** [pb.PieceDownloadResponse]: a data chunk, or the leading frame of a
    repair download. *)
Inductive PieceDownloadResponse :=
| RespChunk (offset : Z) (data : bytes)
| RespHashAndLimit (hash : PieceHash) (limit : OrderLimit).

Record PieceHeader := {
  HeaderHash : bytes;
  CreationTime : Z;
  HeaderSignature : Z;
  HeaderOrderLimit : OrderLimit
}.

Record RetainRequest := {
  CreationDate : Z;
  Filter : bytes
}.

(** What one [stream.Recv] gives: an error, or a message that may be nil. *)
Definition Recv (M : Type) : Type := GoError + option M.

(** ** Configuration *)

Record Config := {
  MaxConcurrentRequests : Z;
  ReportCapacityThreshold : Z;
  RetainTimeBuffer : Z
}.

(** ** The state held by the collaborators *)

(** [orders.Info] *)
Record Info := {
  InfoLimit : OrderLimit;
  InfoOrder : Order
}.

(** One [bandwidth.DB.Add] call. *)
Record Usage := {
  UsageSatellite : Z;
  UsageAction : PieceAction;
  UsageAmount : Z;
  UsageWhen : Z
}.

(** [retain.Request], the bloom filter left as its bytes. *)
Record Request := {
  ReqSatelliteID : Z;
  ReqCreatedBefore : Z;
  ReqFilter : bytes
}.

Record Piece := {
  PieceHeaderOf : PieceHeader;
  PieceContent : bytes
}.

Inductive Bucket := BucketCancel | BucketFailure | BucketSuccess.

(** Calls on collaborators that leave no state the endpoint reads back. *)
Inductive Event :=
| WasPinged (when : Z)
| NotifyLowDisk
| WriterOpened (satellite piece : Z)
| WriterCanceled (satellite piece : Z)
| ExpirationSet (satellite piece when : Z)
| UploadMeter (b : Bucket) (uploadSize : Z)
| DownloadMeter (b : Bucket) (downloadSize : Z)
| ReaderClosed
| SentAndClosed (done : PieceHash)
| StoreDeleted (satellite piece : Z).

Record World := {
  liveRequests : Z;
  ordersQueue : list Info;
  usage : list Usage;
  blobs : gmap (Z * Z) Piece;
  retainQueue : list Request;
  sent : list PieceDownloadResponse;
  events : list Event
}.

Definition setLive (n : Z) (w : World) : World :=
  {| liveRequests := n; ordersQueue := ordersQueue w; usage := usage w;
     blobs := blobs w; retainQueue := retainQueue w; sent := sent w;
     events := events w |}.

Definition setOrders (q : list Info) (w : World) : World :=
  {| liveRequests := liveRequests w; ordersQueue := q; usage := usage w;
     blobs := blobs w; retainQueue := retainQueue w; sent := sent w;
     events := events w |}.

Definition setUsage (u : list Usage) (w : World) : World :=
  {| liveRequests := liveRequests w; ordersQueue := ordersQueue w; usage := u;
     blobs := blobs w; retainQueue := retainQueue w; sent := sent w;
     events := events w |}.

Definition setBlobs (b : gmap (Z * Z) Piece) (w : World) : World :=
  {| liveRequests := liveRequests w; ordersQueue := ordersQueue w;
     usage := usage w; blobs := b; retainQueue := retainQueue w;
     sent := sent w; events := events w |}.

Definition setRetain (r : list Request) (w : World) : World :=
  {| liveRequests := liveRequests w; ordersQueue := ordersQueue w;
     usage := usage w; blobs := blobs w; retainQueue := r; sent := sent w;
     events := events w |}.

Definition send (r : PieceDownloadResponse) (w : World) : World :=
  {| liveRequests := liveRequests w; ordersQueue := ordersQueue w;
     usage := usage w; blobs := blobs w; retainQueue := retainQueue w;
     sent := sent w ++ [r]; events := events w |}.

Definition emit (e : Event) (w : World) : World :=
  {| liveRequests := liveRequests w; ordersQueue := ordersQueue w;
     usage := usage w; blobs := blobs w; retainQueue := retainQueue w;
     sent := sent w; events := events w ++ [e] |}.

(** The responses of a list sent one after the other. *)
Fixpoint send_all (rs : list PieceDownloadResponse) (w : World) : World :=
  match rs with
  | [] => w
  | r :: rest => send_all rest (send r w)
  end.

(** [retain.Status] *)
Inductive Status := Disabled | Enabled | Debug.

(** ** Outcomes of the collaborators' calls

    Each field is the answer of a call the endpoint makes and cannot decide
    itself.  [verifyOrderLimit], [VerifyOrder] and [VerifyPieceHash] are the
    verifier of verify.go; [VerifySatelliteID] is the trust pool; [hash] is
    the streaming hash of the piece writer; [QueueAccepts] is the boolean
    [retain.Service.Queue] returns; [now] is [time.Now()]. *)
Record Collab := {
  verifyOrderLimit : OrderLimit -> option GoError;
  VerifyOrder : OrderLimit -> Order -> Z -> option GoError;
  VerifyPieceHash : OrderLimit -> PieceHash -> bytes -> option GoError;
  VerifySatelliteID : Z -> option GoError;
  AvailableSpace : GoError + Z;
  StorageStatus : GoError + Z;
  WriterFails : option GoError;
  WriteFails : Z -> bytes -> option GoError;
  CommitFails : option GoError;
  SetExpirationFails : option GoError;
  SignFails : option GoError;
  nodeSignature : PieceHash -> Z;
  SendAndCloseFails : option GoError;
  EnqueueFails : list Info -> Info -> option GoError;
  UsageAddFails : list Usage -> Usage -> option GoError;
  ReaderFails : option GoError;
  ReadFails : option GoError;
  GetHashAndLimitFails : option GoError;
  SendHashFails : option GoError;
  StoreDeleteFails : option GoError;
  RetainStatus : Status;
  NewFromBytesFails : bytes -> option GoError;
  QueueAccepts : list Request -> Request -> bool;
  hash : bytes -> bytes;
  now : Z
}.

(** ** saveOrder (endpoint.go, lines 650-673)

    The orders queue and the bandwidth ledger are collaborators: a call that
    succeeds appends its record, a call that fails leaves the state as it
    was (the endpoint only logs the failure). *)
Definition saveOrder (c : Collab) (limit : OrderLimit) (order : option Order)
    (w : World) : World :=
  match order with
  | None => w
  | Some o =>
      if Amount o <=? 0 then w
      else
        let info := {| InfoLimit := limit; InfoOrder := o |} in
        match EnqueueFails c (ordersQueue w) info with
        | Some _ => w
        | None =>
            let w1 := setOrders (ordersQueue w ++ [info]) w in
            let u := {| UsageSatellite := SatelliteId limit;
                        UsageAction := Action limit;
                        UsageAmount := Amount o;
                        UsageWhen := now c |} in
            match UsageAddFails c (usage w1) u with
            | Some _ => w1
            | None => setUsage (usage w1 ++ [u]) w1
            end
        end
  end.

(** ** The piece writer and reader *)

(** Modelled from the spec: the piece writer of the piece store
    (pieces.Writer with WriterWithWiscKey, WriteWithWiscKey, Size, Hash,
    CommitWithWiscKey and CancelWithWiscKey) is not among the sources.  The
    writer is scoped to (coordinator-id, piece-id); writing bytes advances
    its size by their number and feeds the streaming hash; commit stores the
    bytes handed to it together with the header, all or nothing; cancel is a
    no-op after a successful commit. *)
Record Writer := {
  WriterSatellite : Z;
  WriterPiece : Z;
  WriterSize : Z;
  WriterHashed : bytes;
  WriterCommitted : bool
}.

(** Modelled from the spec: [Store.WriterWithWiscKey] is not among the
    sources.  It opens a writer scoped to (coordinator-id, piece-id), with
    nothing written. *)
Definition WriterWithWiscKey (satellite piece : Z) : Writer :=
  {| WriterSatellite := satellite; WriterPiece := piece; WriterSize := 0;
     WriterHashed := []; WriterCommitted := false |}.

(** Modelled from the spec: [Writer.WriteWithWiscKey] is not among the
    sources.  Writing bytes advances the size by their number and feeds
    them to the streaming hash. *)
Definition WriteWithWiscKey (wr : Writer) (data : bytes) : Writer :=
  {| WriterSatellite := WriterSatellite wr; WriterPiece := WriterPiece wr;
     WriterSize := add64 (WriterSize wr) (len64 data);
     WriterHashed := WriterHashed wr ++ data;
     WriterCommitted := WriterCommitted wr |}.

(** Modelled from the spec: [Writer.CommitWithWiscKey] is not among the
    sources.  It stores the chunks handed to it, concatenated, together
    with the header under the writer's (coordinator-id, piece-id), all or
    nothing. *)
Definition CommitWithWiscKey (wr : Writer) (info : PieceHeader)
    (chunkDataAll : list bytes) (w : World) : Writer * World :=
  ({| WriterSatellite := WriterSatellite wr; WriterPiece := WriterPiece wr;
      WriterSize := WriterSize wr; WriterHashed := WriterHashed wr;
      WriterCommitted := true |},
   setBlobs (<[(WriterSatellite wr, WriterPiece wr) :=
                 {| PieceHeaderOf := info;
                    PieceContent := concat chunkDataAll |}]> (blobs w)) w).

(** Modelled from the spec: [Writer.CancelWithWiscKey] is not among the
    sources.  It discards what was written, and is a no-op after a
    successful commit. *)
Definition CancelWithWiscKey (wr : Writer) (w : World) : World :=
  if WriterCommitted wr then w
  else emit (WriterCanceled (WriterSatellite wr) (WriterPiece wr)) w.

(** Modelled from the spec: the piece reader of the piece store
    (pieces.Reader with ReaderWithWiscKey, Size and ReadWithWiscKey) is not
    among the sources.  A reader is opened on the piece stored under
    (coordinator-id, piece-id), not-found when there is none; it gives the
    piece's bytes and their number. *)
Definition ReaderWithWiscKey (c : Collab) (satellite piece : Z) (w : World)
    : GoError + Piece :=
  match ReaderFails c with
  | Some e => inl e
  | None =>
      match blobs w !! (satellite, piece) with
      | None => inl os_NotExist
      | Some p => inr p
      end
  end.

(** Modelled from the spec: [Reader.Size] is not among the sources.  It is
    the number of bytes of the piece. *)
Definition ReaderSize (p : Piece) : Z := len64 (PieceContent p).

(** ** Upload (endpoint.go, lines 182-428) *)

Record UploadState := {
  pieceWriter : Writer;
  largestOrder : Order;
  availableSpace : Z;
  chunkDataAll : list bytes;
  orderSaved : bool
}.

Definition withOrder (o : Order) (st : UploadState) : UploadState :=
  {| pieceWriter := pieceWriter st; largestOrder := o;
     availableSpace := availableSpace st; chunkDataAll := chunkDataAll st;
     orderSaved := orderSaved st |}.

Definition withSpace (a : Z) (st : UploadState) : UploadState :=
  {| pieceWriter := pieceWriter st; largestOrder := largestOrder st;
     availableSpace := a; chunkDataAll := chunkDataAll st;
     orderSaved := orderSaved st |}.

Definition withWritten (wr : Writer) (data : bytes) (st : UploadState)
    : UploadState :=
  {| pieceWriter := wr; largestOrder := largestOrder st;
     availableSpace := availableSpace st;
     chunkDataAll := chunkDataAll st ++ [data];
     orderSaved := orderSaved st |}.

Definition withWriter (wr : Writer) (st : UploadState) : UploadState :=
  {| pieceWriter := wr; largestOrder := largestOrder st;
     availableSpace := availableSpace st; chunkDataAll := chunkDataAll st;
     orderSaved := orderSaved st |}.

Definition withSaved (st : UploadState) : UploadState :=
  {| pieceWriter := pieceWriter st; largestOrder := largestOrder st;
     availableSpace := availableSpace st; chunkDataAll := chunkDataAll st;
     orderSaved := true |}.

(** Lines 341-346: the order of a message. *)
Definition Upload_order (c : Collab) (limit : OrderLimit)
    (m : PieceUploadRequest) (st : UploadState)
    : option GoError * UploadState :=
  match UpOrder m with
  | None => (None, st)
  | Some o =>
      match VerifyOrder c limit o (Amount (largestOrder st)) with
      | Some e => (Some e, st)
      | None => (None, withOrder o st)
      end
  end.

(** Lines 348-370: the chunk of a message. *)
Definition Upload_chunk (c : Collab) (m : PieceUploadRequest)
    (st : UploadState) : option GoError * UploadState :=
  match UpChunk m with
  | None => (None, st)
  | Some ch =>
      if negb (Offset ch =? WriterSize (pieceWriter st)) then
        (Some (status InvalidArgument "chunk out of order" []), st)
      else
        let chunkSize := len64 (Data ch) in
        if Amount (largestOrder st)
             <? add64 (WriterSize (pieceWriter st)) chunkSize then
          (Some (status InvalidArgument
                   "not enough allocated, allocated=%v writing=%v"
                   [Amount (largestOrder st);
                    add64 (WriterSize (pieceWriter st)) (len64 (Data ch))]),
           st)
        else
          let st1 := withSpace (sub64 (availableSpace st) chunkSize) st in
          if availableSpace st1 <? 0 then
            (Some (status Internal "out of space" []), st1)
          else
            match WriteFails c (WriterSize (pieceWriter st1)) (Data ch) with
            | Some e => (Some (wrapped Internal e), st1)
            | None =>
                (None,
                 withWritten (WriteWithWiscKey (pieceWriter st1) (Data ch))
                   (Data ch) st1)
            end
  end.

(** Lines 372-426: the done of a message. *)
Definition Upload_done (c : Collab) (limit : OrderLimit) (done : PieceHash)
    (st : UploadState) (w : World) : option GoError * UploadState * World :=
  let calculatedHash := hash c (WriterHashed (pieceWriter st)) in
  match VerifyPieceHash c limit done calculatedHash with
  | Some e => (Some (wrapped Internal e), st, w)
  | None =>
      if negb (PieceSize done =? WriterSize (pieceWriter st)) then
        (Some (status InvalidArgument
                 "Size of finished piece does not match size declared by uplink! %d != %d"
                 [PieceSize done; WriterSize (pieceWriter st)]), st, w)
      else
        let info := {| HeaderHash := calculatedHash;
                       CreationTime := Timestamp done;
                       HeaderSignature := Signature done;
                       HeaderOrderLimit := limit |} in
        match CommitFails c with
        | Some e => (Some (wrapped Internal e), st, w)
        | None =>
            let '(wr, w1) :=
              CommitWithWiscKey (pieceWriter st) info (chunkDataAll st) w in
            let st1 := withWriter wr st in
            let expired :=
              if PieceExpiration limit =? 0 then (None, w1)
              else
                match SetExpirationFails c with
                | Some e => (Some (wrapped Internal e), w1)
                | None =>
                    (None,
                     emit (ExpirationSet (SatelliteId limit) (PieceId limit)
                             (PieceExpiration limit)) w1)
                end in
            match expired with
            | (Some e, w2) => (Some e, st1, w2)
            | (None, w2) =>
                match SignFails c with
                | Some e => (Some (wrapped Internal e), st1, w2)
                | None =>
                    let unsigned :=
                      {| HashPieceId := PieceId limit;
                         Hash := calculatedHash;
                         PieceSize := WriterSize (pieceWriter st1);
                         Timestamp := now c;
                         Signature := 0 |} in
                    let storageNodeHash :=
                      {| HashPieceId := PieceId limit;
                         Hash := calculatedHash;
                         PieceSize := WriterSize (pieceWriter st1);
                         Timestamp := now c;
                         Signature := nodeSignature c unsigned |} in
                    let st2 := withSaved st1 in
                    let w3 := saveOrder c limit (Some (largestOrder st2)) w2 in
                    match SendAndCloseFails c with
                    | Some e =>
                        if Is_EOF e then (None, st2, w3)
                        else (Some (wrapped Internal e), st2, w3)
                    | None =>
                        (None, st2, emit (SentAndClosed storageNodeHash) w3)
                    end
                end
            end
        end
  end.

Definition unexpectedEOF : GoError :=
  status InvalidArgument "unexpected EOF" [].

Definition expectedMessage : GoError :=
  status InvalidArgument "expected a message" [].

(** Lines 334-370: a message that is not nil, up to its done. *)
Definition Upload_message (c : Collab) (limit : OrderLimit)
    (m : PieceUploadRequest) (st : UploadState)
    : option GoError * UploadState :=
  match UpOrder m, UpChunk m, UpDone m with
  | None, None, None => (Some expectedMessage, st)
  | _, _, _ =>
      match Upload_order c limit m st with
      | (Some e, st1) => (Some e, st1)
      | (None, st1) => Upload_chunk c m st1
      end
  end.

(** Lines 319-427: the receive loop.  An exhausted stream answers [Recv]
    with [io.EOF]. *)
Fixpoint Upload_loop (c : Collab) (limit : OrderLimit) (st : UploadState)
    (w : World) (stream : list (Recv PieceUploadRequest))
    : option GoError * UploadState * World :=
  match stream with
  | [] => (Some unexpectedEOF, st, w)
  | inl e :: _ =>
      if Is_EOF e then (Some unexpectedEOF, st, w)
      else (Some (wrapped Internal e), st, w)
  | inr None :: _ => (Some expectedMessage, st, w)
  | inr (Some m) :: rest =>
      match Upload_message c limit m st with
      | (Some e, st1) => (Some e, st1, w)
      | (None, st1) =>
          match UpDone m with
          | Some done => Upload_done c limit done st1 w
          | None => Upload_loop c limit st1 w rest
          end
      end
  end.

(** The state of the loop variables when the loop is entered. *)
Definition Upload_start (wr : Writer) (space : Z) : UploadState :=
  {| pieceWriter := wr; largestOrder := Order_zero;
     availableSpace := space; chunkDataAll := [];
     orderSaved := false |}.

(** Lines 305-427: the loop under the deferred order-persist. *)
Definition Upload_session (c : Collab) (limit : OrderLimit) (wr : Writer)
    (space : Z) (w : World) (stream : list (Recv PieceUploadRequest))
    : option GoError * UploadState * World :=
  let '(err, st, w1) := Upload_loop c limit (Upload_start wr space) w stream in
  (err, st,
   if orderSaved st then w1
   else saveOrder c limit (Some (largestOrder st)) w1).

(** Lines 291-427: the session under the deferred writer cancel.  The
    second component is the writer ([None] for the nil pointer) and the
    third the final value of [availableSpace]. *)
Definition Upload_writing (c : Collab) (limit : OrderLimit) (space : Z)
    (w : World) (stream : list (Recv PieceUploadRequest))
    : option GoError * option Writer * Z * World :=
  match WriterFails c with
  | Some e => (Some (wrapped Internal e), None, space, w)
  | None =>
      let wr := WriterWithWiscKey (SatelliteId limit) (PieceId limit) in
      let w1 := emit (WriterOpened (SatelliteId limit) (PieceId limit)) w in
      let '(err, st, w2) := Upload_session c limit wr space w1 stream in
      (err, Some (pieceWriter st), availableSpace st,
       CancelWithWiscKey (pieceWriter st) w2)
  end.

Definition bucketOf (err : option GoError) : Bucket :=
  match err with
  | Some e => if IsCanceled e then BucketCancel else BucketFailure
  | None => BucketSuccess
  end.

(** Lines 250-427: the writer under the deferred metrics. *)
Definition Upload_metered (c : Collab) (limit : OrderLimit) (space : Z)
    (w : World) (stream : list (Recv PieceUploadRequest))
    : option GoError * Z * World :=
  let '(err, wr, space1, w1) := Upload_writing c limit space w stream in
  let uploadSize := match wr with
                    | Some x => WriterSize x
                    | None => 0
                    end in
  (err, space1, emit (UploadMeter (bucketOf err) uploadSize) w1).

(** Lines 241-248: the disk-space check. *)
Definition Upload_checked (c : Collab) (limit : OrderLimit) (space : Z)
    (w : World) (stream : list (Recv PieceUploadRequest))
    : option GoError * Z * World :=
  match StorageStatus c with
  | inl e => (Some e, space, w)
  | inr diskFree =>
      if diskFree <? Limit limit then
        (Some (status Aborted
                 "not enough available disk space, have: %v, need: %v"
                 [diskFree; Limit limit]), space, w)
      else Upload_metered c limit space w stream
  end.

(** Lines 230-427: the rest under the deferred low-disk notification. *)
Definition Upload_monitored (cfg : Config) (c : Collab) (limit : OrderLimit)
    (w : World) (stream : list (Recv PieceUploadRequest))
    : option GoError * World :=
  match AvailableSpace c with
  | inl e => (Some (wrapped Internal e), w)
  | inr space =>
      let '(err, space1, w1) := Upload_checked c limit space w stream in
      (err,
       if space1 <? ReportCapacityThreshold cfg then emit NotifyLowDisk w1
       else w1)
  end.

(** Line 192: the test of the counter against max-concurrent-requests. *)
Definition overloaded (cfg : Config) (live : Z) : bool :=
  (0 <? MaxConcurrentRequests cfg) && (MaxConcurrentRequests cfg <? live).

(** Lines 192-427: what runs between the increment and the decrement of the
    live-request counter. *)
Definition Upload_gated (cfg : Config) (c : Collab) (live : Z) (w : World)
    (stream : list (Recv PieceUploadRequest)) : option GoError * World :=
  if overloaded cfg live then
    (Some (status Unavailable "storage node overloaded, request limit: %d"
             [MaxConcurrentRequests cfg]), w)
  else
    match stream with
    | [] => (Some (wrapped Internal io_EOF), w)
    | inl e :: _ => (Some (wrapped Internal e), w)
    | inr None :: _ => (Some expectedMessage, w)
    | inr (Some message) :: rest =>
        match UpLimit message with
        | None =>
            (Some (status InvalidArgument
                     "expected order limit as the first message" []), w)
        | Some limit =>
            if negb (bool_decide (Action limit = PUT))
               && negb (bool_decide (Action limit = PUT_REPAIR)) then
              (Some (status InvalidArgument
                       "expected put or put repair action got %v" []), w)
            else
              match verifyOrderLimit c limit with
              | Some e => (Some e, w)
              | None => Upload_monitored cfg c limit w rest
              end
        end
    end.

Definition Upload (cfg : Config) (c : Collab) (w : World)
    (stream : list (Recv PieceUploadRequest)) : option GoError * World :=
  let live := add32 (liveRequests w) 1 in
  let w1 := emit (WasPinged (now c)) (setLive live w) in
  let '(err, w2) := Upload_gated cfg c live w1 stream in
  (err, setLive (add32 (liveRequests w2) (-1)) w2).

(** ** Download (endpoint.go, lines 431-647) *)

(** [1 * memory.MiB.Int64()] *)
Definition maximumChunkSize : Z := 1048576.

(** Go's slice expression [s[lo:hi]] on a slice whose capacity is its
    length: it panics ([None]) unless [0 <= lo <= hi <= len(s)]. *)
Definition slice (s : bytes) (lo hi : Z) : option bytes :=
  if (0 <=? lo) && (lo <=? hi) && (hi <=? len64 s) then
    Some (take (Z.to_nat (hi - lo)) (drop (Z.to_nat lo) s))
  else None.

Definition expectedOrder : GoError :=
  status InvalidArgument "expected order as the message" [].

(** Lines 609-641: the receiving loop.  The result carries the final
    [largestOrder] and the amounts given to [throttle.Produce], which
    cannot fail before the deferred [throttle.Fail]. *)
Fixpoint Download_loop (c : Collab) (limit : OrderLimit)
    (largestOrder : Order) (produced : list Z)
    (stream : list (Recv PieceDownloadRequest))
    : option GoError * Order * list Z :=
  match stream with
  | [] => (None, largestOrder, produced)
  | inl e :: _ =>
      if Is_EOF e then (None, largestOrder, produced)
      else if IsCanceled e then (None, largestOrder, produced)
      else (Some (wrapped Internal e), largestOrder, produced)
  | inr None :: _ => (Some expectedOrder, largestOrder, produced)
  | inr (Some message) :: rest =>
      match DownOrder message with
      | None => (Some expectedOrder, largestOrder, produced)
      | Some o =>
          match VerifyOrder c limit o (Amount largestOrder) with
          | Some e => (Some e, largestOrder, produced)
          | None =>
              let chunkSize := sub64 (Amount o) (Amount largestOrder) in
              Download_loop c limit o (produced ++ [chunkSize]) rest
          end
      end
  end.

(** Lines 602-642: the receiving closure, under its deferred
    order-persist. *)
Definition Download_receiver (c : Collab) (limit : OrderLimit) (w : World)
    (stream : list (Recv PieceDownloadRequest))
    : option GoError * Order * World :=
  let '(err, largest, _) := Download_loop c limit Order_zero [] stream in
  (err, largest, saveOrder c limit (Some largest) w).

(** Modelled from the spec: the throttle that the two tasks of a download
    share (sync2.Throttle) is not among the sources.  It is a token bucket:
    produce adds tokens; consume-or-wait returns with at most the amount
    asked for once there are tokens, and waits until then; fail makes the
    calls that wait and every later call return its error. *)
Record Throttle := {
  available : Z;
  failedWith : option GoError
}.

Definition NewThrottle : Throttle :=
  {| available := 0; failedWith := None |}.

Definition Produce (throttle : Throttle) (amount : Z) : Throttle :=
  match failedWith throttle with
  | Some _ => throttle
  | None =>
      {| available := add64 (available throttle) amount; failedWith := None |}
  end.

Definition Fail (err : GoError) (throttle : Throttle) : Throttle :=
  {| available := available throttle; failedWith := Some err |}.

(** [None]: the call waits. *)
Definition ConsumeOrWait (throttle : Throttle) (maxAmount : Z)
    : option (GoError + Z) :=
  match failedWith throttle with
  | Some e => Some (inl e)
  | None =>
      if 0 <? available throttle then
        Some (inr (min (available throttle) maxAmount))
      else None
  end.

(** The throttle with the tokens taken off that were consumed so far. *)
Definition consumed (amount : Z) (throttle : Throttle) : Throttle :=
  {| available := sub64 (available throttle) amount;
     failedWith := failedWith throttle |}.

(** The throttle as the receiving task alone leaves it once it is through
    with the first [received] results of Recv (lines 609-641): it holds
    the amounts the loop hands to [throttle.Produce] on these results, and
    it is failed with EOF ([defer throttle.Fail(io.EOF)], line 607) when
    the loop has returned on one of them, or on the end of the stream.
    The loop hands over one amount in every iteration it does not return
    from, so that it is still running exactly when it has handed over
    [received] amounts. *)
Definition Download_produces (c : Collab) (limit : OrderLimit)
    (stream : list (Recv PieceDownloadRequest)) (received : nat) : Throttle :=
  let '(_, _, produced) :=
    Download_loop c limit Order_zero [] (take received stream) in
  let throttle := foldl Produce NewThrottle produced in
  if (length produced =? received)%nat then throttle
  else Fail io_EOF throttle.

(** One turn of the sending task, from its call of [ConsumeOrWait] to the
    end of its [stream.Send]: how many more results of Recv the receiving
    task is through with when the call of [ConsumeOrWait] looks at the
    throttle, and what the [stream.Send] of the turn gives.  The two tasks
    share nothing but the throttle, which the receiving task changes once
    for each result of Recv, so that a run of the download is given by the
    stream and the turns. *)
Record Turn := {
  Received : nat;
  SendFails : option GoError
}.

(** Lines 567-599: the sending loop.  [produces] is the throttle as the
    receiving task leaves it, [taken] the tokens this loop has consumed and
    [received] the results of Recv the receiving task is through with.  A
    turn at which [ConsumeOrWait] has to wait passes with the loop where it
    was.  After the last of the turns the receiving task, which has
    deferred [throttle.Fail], returns, and [ConsumeOrWait] gives the
    error. *)
Fixpoint Download_send (produces : nat -> Throttle) (pieceData : bytes)
    (currentOffset unsentAmount taken : Z) (received : nat)
    (w : World) (turns : list Turn) : Outcome * World :=
  if 0 <? unsentAmount then
    match turns with
    | [] => (Returned None, w)
    | t :: rest =>
        let tryToSend := min unsentAmount maximumChunkSize in
        let received1 := (received + Received t)%nat in
        match ConsumeOrWait (consumed taken (produces received1))
                tryToSend with
        | None =>
            Download_send produces pieceData currentOffset unsentAmount
              taken received1 w rest
        | Some (inl _) => (Returned None, w)
        | Some (inr chunkSize) =>
            match slice pieceData currentOffset
                    (add64 currentOffset chunkSize) with
            | None => (Panicked, w)
            | Some data =>
                match SendFails t with
                | Some e =>
                    if Is_EOF e then (Returned None, w)
                    else (Returned (Some (wrapped Internal e)), w)
                | None =>
                    Download_send produces pieceData
                      (add64 currentOffset chunkSize)
                      (sub64 unsentAmount chunkSize)
                      (add64 taken chunkSize) received1
                      (send (RespChunk currentOffset data) w) rest
                end
            end
        end
    end
  else (Returned None, w).

(** Lines 559-600: the sending task. *)
Definition Download_sender (c : Collab) (limit : OrderLimit)
    (pieceReader : Piece) (chunk : DownloadChunk) (w : World)
    (stream : list (Recv PieceDownloadRequest)) (turns : list Turn)
    : Outcome * World :=
  match ReadFails c with
  | Some e => (Returned (Some (wrapped Internal e)), w)
  | None =>
      Download_send (Download_produces c limit stream)
        (PieceContent pieceReader) (ChunkOffset chunk) (ChunkSize chunk) 0 0
        w turns
  end.

(** Modelled from the spec: [GetHashAndLimitWithWiscKey] of the piece store
    is not among the sources.  It gives the piece's stored header hash and
    the original order-limit. *)
Definition GetHashAndLimitWithWiscKey (limit : OrderLimit) (p : Piece)
    : PieceHash * OrderLimit :=
  ({| HashPieceId := PieceId limit;
      Hash := HeaderHash (PieceHeaderOf p);
      PieceSize := ReaderSize p;
      Timestamp := CreationTime (PieceHeaderOf p);
      Signature := HeaderSignature (PieceHeaderOf p) |},
   HeaderOrderLimit (PieceHeaderOf p)).

(** Lines 530-646: what runs once the reader is open.  The sending task
    and the receiving closure run concurrently and share only the throttle:
    the receiving closure does not depend on the sending task, and the
    sending task depends on the receiving closure through the tokens it has
    produced by each of the [turns]; the sending task changes the responses
    sent and nothing else, the receiving closure the orders queue and the
    ledger and nothing else, so that running one after the other leaves the
    world the interleaving leaves.  A panic of the sending task ends the
    process. *)
Definition Download_reading (c : Collab) (limit : OrderLimit)
    (chunk : DownloadChunk) (pieceReader : Piece) (w : World)
    (stream : list (Recv PieceDownloadRequest)) (turns : list Turn)
    : Outcome * World :=
  let repair :=
    if bool_decide (Action limit = GET_REPAIR) then
      match GetHashAndLimitFails c with
      | Some e => (Some (wrapped Internal e), w)
      | None =>
          let '(pieceHash, orderLimit) :=
            GetHashAndLimitWithWiscKey limit pieceReader in
          match SendHashFails c with
          | Some e => (Some (wrapped Internal e), w)
          | None => (None, send (RespHashAndLimit pieceHash orderLimit) w)
          end
      end
    else (None, w) in
  match repair with
  | (Some e, w1) => (Returned (Some e), w1)
  | (None, w1) =>
      if ReaderSize pieceReader
           <? add64 (ChunkOffset chunk) (ChunkSize chunk) then
        (Returned (Some (status InvalidArgument
           "requested more data than available, requesting=%v available=%v"
           [add64 (ChunkOffset chunk) (ChunkSize chunk);
            ReaderSize pieceReader])), w1)
      else
        match Download_sender c limit pieceReader chunk w1 stream turns with
        | (Panicked, w2) => (Panicked, w2)
        | (Returned sendErr, w2) =>
            let '(recvErr, _, w3) := Download_receiver c limit w2 stream in
            (Returned (Wrap Internal (Combine sendErr recvErr)), w3)
        end
  end.

(** Lines 478-646: the reader under the deferred metrics and close. *)
Definition Download_metered (c : Collab) (limit : OrderLimit)
    (chunk : DownloadChunk) (w : World)
    (stream : list (Recv PieceDownloadRequest)) (turns : list Turn)
    : Outcome * World :=
  let '(out, pieceReader, w1) :=
    match ReaderWithWiscKey c (SatelliteId limit) (PieceId limit) w with
    | inl e =>
        (Returned (Some (if IsNotExist e then wrapped NotFound e
                         else wrapped Internal e)), None, w)
    | inr p =>
        let '(out, w1) := Download_reading c limit chunk p w stream turns in
        (out, Some p, emit ReaderClosed w1)
    end in
  match out with
  | Panicked => (Panicked, w1)
  | Returned err =>
      let downloadSize := match pieceReader with
                          | Some p => ReaderSize p
                          | None => 0
                          end in
      (Returned err, emit (DownloadMeter (bucketOf err) downloadSize) w1)
  end.

Definition isGetAction (a : PieceAction) : bool :=
  bool_decide (a = GET) || bool_decide (a = GET_REPAIR)
  || bool_decide (a = GET_AUDIT).

(** Lines 445-646: what runs between the increment and the decrement of the
    live-request counter.  A nil first message is dereferenced. *)
Definition Download_counted (c : Collab) (w : World)
    (stream : list (Recv PieceDownloadRequest)) (turns : list Turn)
    : Outcome * World :=
  match stream with
  | [] => (Returned (Some (wrapped Internal io_EOF)), w)
  | inl e :: _ => (Returned (Some (wrapped Internal e)), w)
  | inr None :: _ => (Panicked, w)
  | inr (Some message) :: rest =>
      match DownLimit message, DownChunk message with
      | Some limit, Some chunk =>
          if negb (isGetAction (Action limit)) then
            (Returned (Some (status InvalidArgument
               "expected get or get repair or audit action got %v" [])), w)
          else if Limit limit <? ChunkSize chunk then
            (Returned (Some (status InvalidArgument
               "requested more that order limit allows, limit=%v requested=%v"
               [Limit limit; ChunkSize chunk])), w)
          else
            match verifyOrderLimit c limit with
            | Some e => (Returned (Some e), w)
            | None => Download_metered c limit chunk w rest turns
            end
      | _, _ =>
          (Returned (Some (status InvalidArgument
             "expected order limit and chunk as the first message" [])), w)
      end
  end.

Definition Download (c : Collab) (w : World)
    (stream : list (Recv PieceDownloadRequest)) (turns : list Turn)
    : Outcome * World :=
  let w1 := emit (WasPinged (now c))
              (setLive (add32 (liveRequests w) 1) w) in
  let '(out, w2) := Download_counted c w1 stream turns in
  (out, setLive (add32 (liveRequests w2) (-1)) w2).

(** ** Delete (endpoint.go, lines 125-156)

    The limit of the request is dereferenced unchecked; the request is
    taken with its limit.  Modelled from the spec: [Store.Delete] is not
    among the sources; a delete that succeeds removes the piece stored under
    (coordinator-id, piece-id). *)

Definition Delete (c : Collab) (w : World) (limit : OrderLimit)
    : option GoError * World :=
  let w1 := emit (WasPinged (now c))
              (setLive (add32 (liveRequests w) 1) w) in
  let '(err, w2) :=
    if negb (bool_decide (Action limit = DELETE)) then
      (Some (status InvalidArgument "expected delete action got %v" []), w1)
    else
      match verifyOrderLimit c limit with
      | Some e => (Some (wrapped Unauthenticated e), w1)
      | None =>
          match StoreDeleteFails c with
          | Some _ => (None, w1)
          | None =>
              (None,
               emit (StoreDeleted (SatelliteId limit) (PieceId limit))
                 (setBlobs (delete (SatelliteId limit, PieceId limit)
                              (blobs w1)) w1))
          end
      end in
  (err, setLive (add32 (liveRequests w2) (-1)) w2).

(** ** Retain (endpoint.go, lines 698-732)

    [peer] is what [identity.PeerIdentityFromContext] gives.  The getters of
    a nil request give the zero values.  [retainQueue] records the requests
    handed to [retain.Service.Queue] that it accepted, as handed over. *)
Definition GetFilter (retainReq : option RetainRequest) : bytes :=
  match retainReq with
  | Some r => Filter r
  | None => []
  end.

Definition GetCreationDate (retainReq : option RetainRequest) : Z :=
  match retainReq with
  | Some r => CreationDate r
  | None => 0
  end.

Definition Retain (cfg : Config) (c : Collab) (peer : GoError + Z)
    (retainReq : option RetainRequest) (w : World)
    : option GoError * World :=
  match RetainStatus c with
  | Disabled => (None, w)
  | _ =>
      match peer with
      | inl e => (Some (wrapped Unauthenticated e), w)
      | inr peerID =>
          match VerifySatelliteID c peerID with
          | Some _ =>
              (Some (status PermissionDenied
                       "retain called with untrusted ID" []), w)
          | None =>
              match NewFromBytesFails c (GetFilter retainReq) with
              | Some e => (Some (wrapped InvalidArgument e), w)
              | None =>
                  let req := {| ReqSatelliteID := peerID;
                                ReqCreatedBefore := GetCreationDate retainReq;
                                ReqFilter := GetFilter retainReq |} in
                  if QueueAccepts c (retainQueue w) req then
                    (None, setRetain (retainQueue w ++ [req]) w)
                  else (None, w)
              end
          end
      end
  end.

(** ** Sessions seen from outside *)

(** The stream on which the given messages arrive, one per [Recv]. *)
Definition arrive {M : Type} (ms : list M) : list (Recv M) :=
  map (fun m => inr (Some m)) ms.

(** The state of the upload loop after the messages [ms], when none of them
    made it return: [None] as soon as one fails or carries a done. *)
Fixpoint Upload_run (c : Collab) (limit : OrderLimit) (st : UploadState)
    (ms : list PieceUploadRequest) : option UploadState :=
  match ms with
  | [] => Some st
  | m :: rest =>
      match Upload_message c limit m st, UpDone m with
      | (None, st1), None => Upload_run c limit st1 rest
      | _, _ => None
      end
  end.

(** The same for the receiving loop of a download; the state is
    [largestOrder]. *)
Fixpoint Download_run (c : Collab) (limit : OrderLimit) (largest : Order)
    (ms : list PieceDownloadRequest) : option Order :=
  match ms with
  | [] => Some largest
  | m :: rest =>
      match DownOrder m with
      | Some o =>
          match VerifyOrder c limit o (Amount largest) with
          | None => Download_run c limit o rest
          | Some _ => None
          end
      | None => None
      end
  end.

(** The [chunk.data] payloads of the messages, in the order received. *)
Definition chunksOf (ms : list PieceUploadRequest) : list bytes :=
  omap (fun m => Data <$> UpChunk m) ms.






(** The [chunk.data] payloads an upload stream carries up to and including
    its first message with a done. *)
Fixpoint uploadedChunks (stream : list (Recv PieceUploadRequest))
    : list bytes :=
  match stream with
  | inr (Some m) :: rest =>
      match UpChunk m with
      | Some ch => [Data ch]
      | None => []
      end ++
      match UpDone m with
      | Some _ => []
      | None => uploadedChunks rest
      end
  | _ => []
  end.

(** The bytes of the data chunks among the responses, concatenated. *)
Definition sentBytes (rs : list PieceDownloadResponse) : bytes :=
  concat (map (fun r => match r with
                        | RespChunk _ data => data
                        | RespHashAndLimit _ _ => []
                        end) rs).

(** The record [saveOrder] enqueues. *)
Definition infoOf (limit : OrderLimit) (o : Order) : Info :=
  {| InfoLimit := limit; InfoOrder := o |}.

(** An upload passes everything that precedes its session: the check of
    the counter, the limit's action and verification, the two space queries
    and the opening of the writer. *)
Definition opens (cfg : Config) (c : Collab) (w : World) (limit : OrderLimit)
    (space : Z) : Prop :=
  overloaded cfg (add32 (liveRequests w) 1) = false
  /\ (Action limit = PUT \/ Action limit = PUT_REPAIR)
  /\ verifyOrderLimit c limit = None
  /\ AvailableSpace c = inr space
  /\ (exists diskFree, StorageStatus c = inr diskFree /\ Limit limit <= diskFree)
  /\ WriterFails c = None.

(** The order of a message, when the verifier accepts it. *)
Definition Upload_accepts (c : Collab) (limit : OrderLimit)
    (m : PieceUploadRequest) (st : UploadState) : list Order :=
  match Upload_order c limit m st, UpOrder m with
  | (None, _), Some o => [o]
  | _, _ => []
  end.

(** The orders the upload loop verifies before it returns, in the order of
    arrival. *)
Fixpoint Upload_verified (c : Collab) (limit : OrderLimit) (st : UploadState)
    (stream : list (Recv PieceUploadRequest)) : list Order :=
  match stream with
  | inr (Some m) :: rest =>
      Upload_accepts c limit m st ++
      match Upload_message c limit m st, UpDone m with
      | (None, st1), None => Upload_verified c limit st1 rest
      | _, _ => []
      end
  | _ => []
  end.

(** The orders the receiving loop of a download verifies before it
    returns. *)
Fixpoint Download_verified (c : Collab) (limit : OrderLimit) (largest : Order)
    (stream : list (Recv PieceDownloadRequest)) : list Order :=
  match stream with
  | inr (Some m) :: rest =>
      match DownOrder m with
      | Some o =>
          match VerifyOrder c limit o (Amount largest) with
          | None => o :: Download_verified c limit o rest
          | Some _ => []
          end
      | None => []
      end
  | _ => []
  end.

(** The part of a handler that runs under its deferred order-persist: the
    loop of an upload from the opening of the writer on (lines 305-427), or
    the receiving closure of a download (lines 602-642). *)
Inductive Session :=
| UploadSession (wr : Writer) (space : Z)
    (stream : list (Recv PieceUploadRequest))
| DownloadSession (stream : list (Recv PieceDownloadRequest)).

(** The error of the session, the final [largestOrder] and the world it
    leaves. *)
Definition runSession (c : Collab) (limit : OrderLimit) (s : Session)
    (w : World) : option GoError * Order * World :=
  match s with
  | UploadSession wr space stream =>
      let '(err, st, w1) := Upload_session c limit wr space w stream in
      (err, largestOrder st, w1)
  | DownloadSession stream => Download_receiver c limit w stream
  end.

Definition verifiedOrders (c : Collab) (limit : OrderLimit) (s : Session)
    : list Order :=
  match s with
  | UploadSession wr space stream =>
      Upload_verified c limit (Upload_start wr space) stream
  | DownloadSession stream => Download_verified c limit Order_zero stream
  end.


(** The world in which the session of such an upload starts: the counter
    incremented, the ping recorded and the writer opened. *)
Definition Upload_entered (c : Collab) (limit : OrderLimit) (w : World)
    : World :=
  emit (WriterOpened (SatelliteId limit) (PieceId limit))
    (emit (WasPinged (now c)) (setLive (add32 (liveRequests w) 1) w)).

(** The loop variables when the loop of an upload under [limit] is
    entered. *)
Definition Upload_begin (limit : OrderLimit) (space : Z) : UploadState :=
  Upload_start (WriterWithWiscKey (SatelliteId limit) (PieceId limit)) space.

(** The session of such an upload. *)
Definition Upload_sessionOf (limit : OrderLimit) (space : Z)
    (stream : list (Recv PieceUploadRequest)) : Session :=
  UploadSession (WriterWithWiscKey (SatelliteId limit) (PieceId limit)) space
    stream.

(** A download passes everything that precedes its two tasks: the action,
    the size against the limit, the verification of the limit, the opening
    of the reader on the stored piece, the leading frame of a repair and the
    size against the piece. *)
Definition reads (c : Collab) (w : World) (limit : OrderLimit)
    (chunk : DownloadChunk) (p : Piece) : Prop :=
  isGetAction (Action limit) = true
  /\ ChunkSize chunk <= Limit limit
  /\ verifyOrderLimit c limit = None
  /\ ReaderFails c = None
  /\ blobs w !! (SatelliteId limit, PieceId limit) = Some p
  /\ (Action limit = GET_REPAIR ->
      GetHashAndLimitFails c = None /\ SendHashFails c = None)
  /\ add64 (ChunkOffset chunk) (ChunkSize chunk) <= ReaderSize p.

(** The world in which the two tasks of such a download start. *)
Definition Download_entered (c : Collab) (limit : OrderLimit) (p : Piece)
    (w : World) : World :=
  let w1 := emit (WasPinged (now c))
              (setLive (add32 (liveRequests w) 1) w) in
  if bool_decide (Action limit = GET_REPAIR) then
    send (RespHashAndLimit (GetHashAndLimitWithWiscKey limit p).1
            (GetHashAndLimitWithWiscKey limit p).2) w1
  else w1.

(** [serves c limit w0 s w final]: a call of [Upload] or [Download] on the
    world [w0] passes its preliminaries, runs the session [s] from the world
    [w] and returns leaving the world [final]. *)
Inductive serves (c : Collab) (limit : OrderLimit)
    : World -> Session -> World -> World -> Prop :=
| serves_upload (cfg : Config) (w0 : World) (first : PieceUploadRequest)
    (space : Z) (stream : list (Recv PieceUploadRequest)) :
    UpLimit first = Some limit ->
    opens cfg c w0 limit space ->
    serves c limit w0 (Upload_sessionOf limit space stream)
      (Upload_entered c limit w0)
      (Upload cfg c w0 (inr (Some first) :: stream)).2
| serves_download (w0 : World) (first : PieceDownloadRequest)
    (chunk : DownloadChunk) (p : Piece)
    (stream : list (Recv PieceDownloadRequest)) (turns : list Turn)
    (sendErr : option GoError) (w : World) :
    DownLimit first = Some limit ->
    DownChunk first = Some chunk ->
    reads c w0 limit chunk p ->
    Download_sender c limit p chunk (Download_entered c limit p w0) stream
      turns
    = (Returned sendErr, w) ->
    serves c limit w0 (DownloadSession stream) w
      (Download c w0 (inr (Some first) :: stream) turns).2.

Definition notEnoughDiskSpace (have need : Z) : GoError :=
  status Aborted "not enough available disk space, have: %v, need: %v"
    [have; need].

(** The responses sent between the world [w1] and the later world [w2]. *)
Definition responsesOf (w1 w2 : World) : list PieceDownloadResponse :=
  drop (length (sent w1)) (sent w2).

(** The turns of a sending task that takes its first turn when the
    receiving task is through with [received] results of Recv and the
    others while it waits for the next one, and whose sends succeed. *)
Definition sendsAfter (received : nat) (turns : list Turn) : Prop :=
  match turns with
  | [] => True
  | t :: rest =>
      Received t = received /\ Forall (fun t => Received t = 0%nat) rest
  end
  /\ Forall (fun t => SendFails t = None) turns.

(** The results of Recv the receiving task gets through over the
    turns. *)
Definition receivedIn (turns : list Turn) : nat :=
  foldr (fun t n => (Received t + n)%nat) 0%nat turns.

(** The verifier accepts no order below the previous amount, and the
    amounts it accepts are int64 values (section 4.1 of the
    specification). *)
Definition bounded (c : Collab) (limit : OrderLimit) : Prop :=
  forall o prev,
    VerifyOrder c limit o prev = None -> prev <= Amount o <= max_int64.

(** A download under [limit] for [chunk] passes what precedes the opening
    of the reader, and the store and the stream serve it without error. *)
Definition served (c : Collab) (limit : OrderLimit) (chunk : DownloadChunk)
    : Prop :=
  isGetAction (Action limit) = true
  /\ ChunkSize chunk <= Limit limit
  /\ verifyOrderLimit c limit = None
  /\ ReaderFails c = None
  /\ ReadFails c = None
  /\ (Action limit = GET_REPAIR ->
      GetHashAndLimitFails c = None /\ SendHashFails c = None).

(** ** The live-request counter under concurrency

    The handlers touch the counter with two atomic operations, the
    increment at entry (lines 129, 187 and 436) and the deferred decrement
    (lines 130, 188 and 437); between them a request is in flight.  Only
    Upload compares the value its increment returns with
    max-concurrent-requests (line 192).  An execution of the endpoint is an
    interleaving of entries and exits. *)

Inductive Rpc := RpcUpload | RpcDownload | RpcDelete.

(** A request in flight is being served, or it is an upload that found the
    node overloaded and is about to return unavailable. *)
Inductive InFlight := Serving (r : Rpc) | Rejecting.

Record Live := {
  counter : Z;
  inFlight : list InFlight
}.

(** Entry of a request, or exit of the [i]-th request in flight. *)
Inductive Move := Enter (r : Rpc) | Exit (i : nat).

Definition enter (cfg : Config) (r : Rpc) (s : Live) : Live :=
  let live := add32 (counter s) 1 in
  {| counter := live;
     inFlight := inFlight s ++
       [match r with
        | RpcUpload => if overloaded cfg live then Rejecting
                       else Serving RpcUpload
        | _ => Serving r
        end] |}.

Definition leave (i : nat) (s : Live) : option Live :=
  match inFlight s !! i with
  | None => None
  | Some _ =>
      Some {| counter := add32 (counter s) (-1);
              inFlight := delete i (inFlight s) |}
  end.

Definition move (cfg : Config) (s : Live) (m : Move) : option Live :=
  match m with
  | Enter r => Some (enter cfg r s)
  | Exit i => leave i s
  end.

Fixpoint execute (cfg : Config) (s : Live) (ms : list Move) : option Live :=
  match ms with
  | [] => Some s
  | m :: rest =>
      match move cfg s m with
      | None => None
      | Some s1 => execute cfg s1 rest
      end
  end.

(** [NewEndpoint]: no request in flight. *)
Definition started : Live := {| counter := 0; inFlight := [] |}.

Definition isRejecting (f : InFlight) : bool :=
  match f with
  | Rejecting => true
  | Serving _ => false
  end.

Definition isUpload (f : InFlight) : bool :=
  match f with
  | Serving RpcUpload => true
  | _ => false
  end.

Definition isOther (f : InFlight) : bool :=
  match f with
  | Serving RpcDownload | Serving RpcDelete => true
  | _ => false
  end.

Definition count (p : InFlight -> bool) (s : Live) : Z :=
  Z.of_nat (length (filter (fun f => p f = true) (inFlight s))).

(** ** The verifier and a node whose collaborators all succeed *)

(** Modelled from the spec: [VerifyOrder] of the verifier (verify.go) is not
    among the sources.  It fails if the order's serial is not the limit's,
    if its amount is below the previous amount, if its amount is above the
    limit's byte limit, or if the uplink signature is invalid. *)
Definition verifyOrder_spec (signed : OrderLimit -> Order -> bool)
    (limit : OrderLimit) (order : Order) (largestOrderAmount : Z)
    : option GoError :=
  if negb (OrderSerialNumber order =? SerialNumber limit) then
    Some (status InvalidArgument "order serial number changed during upload" [])
  else if Amount order <? largestOrderAmount then
    Some (status InvalidArgument "order contained smaller amount=%v, previous=%v"
            [Amount order; largestOrderAmount])
  else if Limit limit <? Amount order then
    Some (status InvalidArgument "order exceeded allowed amount=%v, limit=%v"
            [Amount order; Limit limit])
  else if negb (signed limit order) then
    Some (failure "invalid uplink signature")
  else None.

Definition quiet : Collab :=
  {| verifyOrderLimit := fun _ => None;
     VerifyOrder := verifyOrder_spec (fun _ _ => true);
     VerifyPieceHash := fun _ _ _ => None;
     VerifySatelliteID := fun _ => None;
     AvailableSpace := inr 1000;
     StorageStatus := inr 1000;
     WriterFails := None;
     WriteFails := fun _ _ => None;
     CommitFails := None;
     SetExpirationFails := None;
     SignFails := None;
     nodeSignature := fun _ => 0;
     SendAndCloseFails := None;
     EnqueueFails := fun _ _ => None;
     UsageAddFails := fun _ _ => None;
     ReaderFails := None;
     ReadFails := None;
     GetHashAndLimitFails := None;
     SendHashFails := None;
     StoreDeleteFails := None;
     RetainStatus := Enabled;
     NewFromBytesFails := fun _ => None;
     QueueAccepts := fun _ _ => true;
     hash := fun b => b;
     now := 1 |}.


(** [quiet] with the retain service disabled and a trust pool that trusts
    nobody. *)
Definition retainOff : Collab :=
  {| verifyOrderLimit := verifyOrderLimit quiet;
     VerifyOrder := VerifyOrder quiet;
     VerifyPieceHash := VerifyPieceHash quiet;
     VerifySatelliteID := fun _ => Some (failure "satellite is untrusted");
     AvailableSpace := AvailableSpace quiet;
     StorageStatus := StorageStatus quiet;
     WriterFails := None;
     WriteFails := WriteFails quiet;
     CommitFails := None;
     SetExpirationFails := None;
     SignFails := None;
     nodeSignature := nodeSignature quiet;
     SendAndCloseFails := None;
     EnqueueFails := EnqueueFails quiet;
     UsageAddFails := UsageAddFails quiet;
     ReaderFails := None;
     ReadFails := None;
     GetHashAndLimitFails := None;
     SendHashFails := None;
     StoreDeleteFails := None;
     RetainStatus := Disabled;
     NewFromBytesFails := NewFromBytesFails quiet;
     QueueAccepts := QueueAccepts quiet;
     hash := hash quiet;
     now := now quiet |}.

(** [quiet] with a piece store whose readers fail with a canceled
    status. *)
Definition readerCanceled : Collab :=
  {| verifyOrderLimit := verifyOrderLimit quiet;
     VerifyOrder := VerifyOrder quiet;
     VerifyPieceHash := VerifyPieceHash quiet;
     VerifySatelliteID := VerifySatelliteID quiet;
     AvailableSpace := AvailableSpace quiet;
     StorageStatus := StorageStatus quiet;
     WriterFails := None;
     WriteFails := WriteFails quiet;
     CommitFails := None;
     SetExpirationFails := None;
     SignFails := None;
     nodeSignature := nodeSignature quiet;
     SendAndCloseFails := None;
     EnqueueFails := EnqueueFails quiet;
     UsageAddFails := UsageAddFails quiet;
     ReaderFails := Some (status Canceled "context canceled" []);
     ReadFails := None;
     GetHashAndLimitFails := None;
     SendHashFails := None;
     StoreDeleteFails := None;
     RetainStatus := Enabled;
     NewFromBytesFails := NewFromBytesFails quiet;
     QueueAccepts := QueueAccepts quiet;
     hash := hash quiet;
     now := now quiet |}.

(** [quiet] with a store that reports 5 bytes free. *)
Definition lowDisk : Collab :=
  {| verifyOrderLimit := verifyOrderLimit quiet;
     VerifyOrder := VerifyOrder quiet;
     VerifyPieceHash := VerifyPieceHash quiet;
     VerifySatelliteID := VerifySatelliteID quiet;
     AvailableSpace := AvailableSpace quiet;
     StorageStatus := inr 5;
     WriterFails := None;
     WriteFails := WriteFails quiet;
     CommitFails := None;
     SetExpirationFails := None;
     SignFails := None;
     nodeSignature := nodeSignature quiet;
     SendAndCloseFails := None;
     EnqueueFails := EnqueueFails quiet;
     UsageAddFails := UsageAddFails quiet;
     ReaderFails := None;
     ReadFails := None;
     GetHashAndLimitFails := None;
     SendHashFails := None;
     StoreDeleteFails := None;
     RetainStatus := Enabled;
     NewFromBytesFails := NewFromBytesFails quiet;
     QueueAccepts := QueueAccepts quiet;
     hash := hash quiet;
     now := now quiet |}.

Definition idle : World :=
  {| liveRequests := 0; ordersQueue := []; usage := []; blobs := ∅;
     retainQueue := []; sent := []; events := [] |}.

(** A piece of three bytes, as an upload under [limitFor PUT 10] leaves
    it in the store. *)
Definition threeBytes : Piece :=
  {| PieceHeaderOf :=
       {| HeaderHash := [Byte.x01; Byte.x02; Byte.x03]; CreationTime := 1;
          HeaderSignature := 6;
          HeaderOrderLimit :=
            {| SerialNumber := 7; SatelliteId := 1; UplinkPublicKey := 2;
               StorageNodeId := 3; PieceId := 4; Limit := 10; Action := PUT;
               PieceExpiration := 0; OrderCreation := 1;
               OrderExpiration := 100; SatelliteSignature := 5 |} |};
     PieceContent := [Byte.x01; Byte.x02; Byte.x03] |}.

(** The idle node with that piece stored for satellite 1 as piece 4. *)
Definition stocked : World :=
  {| liveRequests := 0; ordersQueue := []; usage := [];
     blobs := {[ (1, 4) := threeBytes ]};
     retainQueue := []; sent := []; events := [] |}.

Definition unlimited : Config :=
  {| MaxConcurrentRequests := 0; ReportCapacityThreshold := 0;
     RetainTimeBuffer := 48 |}.

Definition oneAtATime : Config :=
  {| MaxConcurrentRequests := 1; ReportCapacityThreshold := 0;
     RetainTimeBuffer := 48 |}.

Definition limitFor (action : PieceAction) (byteLimit : Z) : OrderLimit :=
  {| SerialNumber := 7; SatelliteId := 1; UplinkPublicKey := 2;
     StorageNodeId := 3; PieceId := 4; Limit := byteLimit; Action := action;
     PieceExpiration := 0; OrderCreation := 1; OrderExpiration := 100;
     SatelliteSignature := 5 |}.

Definition orderOf (amount : Z) : Order :=
  {| OrderSerialNumber := 7; Amount := amount; UplinkSignature := 6 |}.

Definition upOrder (amount : Z) : PieceUploadRequest :=
  {| UpLimit := None; UpOrder := Some (orderOf amount); UpChunk := None;
     UpDone := None |}.

Definition upChunk (offset : Z) (data : bytes) : PieceUploadRequest :=
  {| UpLimit := None; UpOrder := None;
     UpChunk := Some {| Offset := offset; Data := data |}; UpDone := None |}.

Definition upDone (size : Z) (h : bytes) : PieceUploadRequest :=
  {| UpLimit := None; UpOrder := None; UpChunk := None;
     UpDone := Some {| HashPieceId := 4; Hash := h; PieceSize := size;
                       Timestamp := 1; Signature := 6 |} |}.

Definition downOrder (amount : Z) : PieceDownloadRequest :=
  {| DownLimit := None; DownOrder := Some (orderOf amount);
     DownChunk := None |}.

(** The first message of an upload under [limit], not wrapped. *)
Definition firstOf (limit : OrderLimit) : PieceUploadRequest :=
  {| UpLimit := Some limit; UpOrder := None; UpChunk := None;
     UpDone := None |}.

(** An uplink that sends one order of the given amount and goes away. *)
Definition orderThenEOF (amount : Z) : list (Recv PieceUploadRequest) :=
  [inr (Some (upOrder amount)); inl io_EOF].

(** An uplink that has sent an order for three bytes and two of them. *)
Definition twoOfThree : list PieceUploadRequest :=
  [upOrder 3; upChunk 0 [Byte.x01; Byte.x02]].

(** The first message of a download under [limit], not wrapped. *)
Definition firstDown (limit : OrderLimit) (offset size : Z)
    : PieceDownloadRequest :=
  {| DownLimit := Some limit; DownOrder := None;
     DownChunk := Some {| ChunkOffset := offset; ChunkSize := size |} |}.

(** An uplink that uploads three bytes in two chunks under an order for
    three bytes. *)
Definition uploadThree : list (Recv PieceUploadRequest) :=
  [inr (Some (upOrder 3)); inr (Some (upChunk 0 [Byte.x01; Byte.x02]));
   inr (Some (upChunk 2 [Byte.x03])); inr (Some (upDone 3 []))].

(** The bytes of a bloom filter: version 1, seed 0, one hash function and
    an empty table. *)
Definition oneHashFilter : bytes := [Byte.x01; Byte.x00; Byte.x01].

(** A turn of the sending task taken when the receiving task is through
    with that many more results of Recv, and whose send succeeds. *)
Definition turnAfter (received : nat) : Turn :=
  {| Received := received; SendFails := None |}.

(** ** The rest of the endpoint *)

(** [NewEndpoint] (lines 99-118) starts the counter at 0; the collaborators
    handed to it keep the state they have. *)
Definition NewEndpoint (w : World) : World := setLive 0 w.

(** [TestLiveRequestCount] (lines 735-737) *)
Definition TestLiveRequestCount (w : World) : Z := liveRequests w.

(** A call of one of the three handlers that touch the counter, run to its
    end. *)
Inductive Call :=
| CallUpload (cfg : Config) (c : Collab)
    (stream : list (Recv PieceUploadRequest))
| CallDownload (c : Collab) (stream : list (Recv PieceDownloadRequest))
    (turns : list Turn)
| CallDelete (c : Collab) (limit : OrderLimit).

Definition serve (w : World) (call : Call) : World :=
  match call with
  | CallUpload cfg c stream => (Upload cfg c w stream).2
  | CallDownload c stream turns => (Download c w stream turns).2
  | CallDelete c limit => (Delete c w limit).2
  end.

(** [DeletePieces] (lines 159-179).  [enqueue] is what
    [pieceDeleter.Enqueue] answers, the number of pieces it left unhandled;
    the second component of the result is the call made on the deleter, if
    any. *)
Definition DeletePieces (c : Collab) (enqueue : Z -> list Z -> Z)
    (peer : GoError + Z) (pieceIds : list Z)
    : (GoError + Z) * option (Z * list Z) :=
  match peer with
  | inl e => (inl (wrapped Unauthenticated e), None)
  | inr peerID =>
      match VerifySatelliteID c peerID with
      | Some _ =>
          (inl (status PermissionDenied
                  "delete pieces called with untrusted ID" []), None)
      | None =>
          (inr (enqueue peerID pieceIds), Some (peerID, pieceIds))
      end
  end.

(** [RestoreTrash] (lines 676-695).  [restoreFails] is what
    [store.RestoreTrash] answers; the second component of the result is the
    satellite whose trash the store was asked to restore, if any. *)
Definition RestoreTrash (c : Collab) (restoreFails : Z -> option GoError)
    (peer : GoError + Z) : option GoError * option Z :=
  match peer with
  | inl e => (Some (wrapped Unauthenticated e), None)
  | inr peerID =>
      match VerifySatelliteID c peerID with
      | Some _ =>
          (Some (status PermissionDenied
                   "RestoreTrash called with untrusted ID" []), None)
      | None => (Wrap Internal (restoreFails peerID), Some peerID)
      end
  end.

(** Each order was verified against the amount of the one before it, the
    first against [prev]. *)
Fixpoint chained (c : Collab) (limit : OrderLimit) (prev : Z)
    (orders : list Order) : Prop :=
  match orders with
  | [] => True
  | o :: rest =>
      VerifyOrder c limit o prev = None /\ chained c limit (Amount o) rest
  end.

(** The chunk responses are consecutive: each starts where the one before
    it ended, the first at [offset]. *)
Fixpoint consecutive (offset : Z) (rs : list PieceDownloadResponse) : Prop :=
  match rs with
  | [] => True
  | RespChunk o data :: rest =>
      o = offset /\ consecutive (offset + len64 data) rest
  | RespHashAndLimit _ _ :: _ => False
  end.

(** The sum of the amounts given to [throttle.Produce]. *)
Definition total (l : list Z) : Z := foldr Z.add 0 l.

(** The differences of the amounts of the orders, each to the one before
    it and the first to [prev], as int64 values. *)
Fixpoint tokensOf (prev : Z) (orders : list Order) : list Z :=
  match orders with
  | [] => []
  | o :: rest => sub64 (Amount o) prev :: tokensOf (Amount o) rest
  end.

Definition outOfSpace : GoError := status Internal "out of space" [].

Definition sizeMismatch (declared written : Z) : GoError :=
  status InvalidArgument
    "Size of finished piece does not match size declared by uplink! %d != %d"
    [declared; written].

(** The deferred calls of an upload, in the order they run once the loop
    has returned [err] with the loop variables [st] and the world [w1]: the
    order-persist (lines 310-314), the writer cancel (lines 295-303), the
    metrics (lines 251-283), the low-disk notification (lines 235-239) and
    the decrement of the counter (line 188). *)
Definition Upload_unwound (cfg : Config) (c : Collab) (limit : OrderLimit)
    (err : option GoError) (st : UploadState) (w1 : World) : World :=
  let w2 := if orderSaved st then w1
            else saveOrder c limit (Some (largestOrder st)) w1 in
  let w3 := CancelWithWiscKey (pieceWriter st) w2 in
  let w4 := emit (UploadMeter (bucketOf err) (WriterSize (pieceWriter st)))
              w3 in
  let w5 := if availableSpace st <? ReportCapacityThreshold cfg
            then emit NotifyLowDisk w4 else w4 in
  setLive (add32 (liveRequests w5) (-1)) w5.

(** The done of the first message of an upload stream that carries one. *)
Fixpoint uploadedDone (stream : list (Recv PieceUploadRequest))
    : option PieceHash :=
  match stream with
  | inr (Some m) :: rest =>
      match UpDone m with
      | Some done => Some done
      | None => uploadedDone rest
      end
  | _ => None
  end.

(** The header an upload under [limit] commits with a piece of the given
    content (lines 384-389). *)
Definition headerOf (c : Collab) (limit : OrderLimit) (done : PieceHash)
    (content : bytes) : PieceHeader :=
  {| HeaderHash := hash c content;
     CreationTime := Timestamp done;
     HeaderSignature := Signature done;
     HeaderOrderLimit := limit |}.

(** The signed piece hash an upload answers with (lines 401-406). *)
Definition receiptOf (c : Collab) (limit : OrderLimit) (content : bytes)
    : PieceHash :=
  {| HashPieceId := PieceId limit;
     Hash := hash c content;
     PieceSize := len64 content;
     Timestamp := now c;
     Signature :=
       nodeSignature c
         {| HashPieceId := PieceId limit;
            Hash := hash c content;
            PieceSize := len64 content;
            Timestamp := now c;
            Signature := 0 |} |}.

(** A data chunk of at least one byte and at most [maximumChunkSize]. *)
Definition sizedChunk (r : PieceDownloadResponse) : Prop :=
  match r with
  | RespChunk _ data => 0 < len64 data <= maximumChunkSize
  | RespHashAndLimit _ _ => False
  end.

Definition moreThanAvailable (requesting available : Z) : GoError :=
  status InvalidArgument
    "requested more data than available, requesting=%v available=%v"
    [requesting; available].

(** What an upload returns once its piece is committed (lines 393-425):
    the failure of the expiration, of the signature or of the response,
    wrapped as internal, an EOF on the response counting as success. *)
Definition afterCommit (c : Collab) (limit : OrderLimit) : option GoError :=
  match (if PieceExpiration limit =? 0 then None
         else SetExpirationFails c) with
  | Some e => Some (wrapped Internal e)
  | None =>
      match SignFails c with
      | Some e => Some (wrapped Internal e)
      | None =>
          match SendAndCloseFails c with
          | Some e => if Is_EOF e then None else Some (wrapped Internal e)
          | None => None
          end
      end
  end.

(** [quiet] with a monitor that reports 2 bytes of available space. *)
Definition cramped : Collab :=
  {| verifyOrderLimit := verifyOrderLimit quiet;
     VerifyOrder := VerifyOrder quiet;
     VerifyPieceHash := VerifyPieceHash quiet;
     VerifySatelliteID := VerifySatelliteID quiet;
     AvailableSpace := inr 2;
     StorageStatus := StorageStatus quiet;
     WriterFails := None;
     WriteFails := WriteFails quiet;
     CommitFails := None;
     SetExpirationFails := None;
     SignFails := None;
     nodeSignature := nodeSignature quiet;
     SendAndCloseFails := None;
     EnqueueFails := EnqueueFails quiet;
     UsageAddFails := UsageAddFails quiet;
     ReaderFails := None;
     ReadFails := None;
     GetHashAndLimitFails := None;
     SendHashFails := None;
     StoreDeleteFails := None;
     RetainStatus := Enabled;
     NewFromBytesFails := NewFromBytesFails quiet;
     QueueAccepts := QueueAccepts quiet;
     hash := hash quiet;
     now := now quiet |}.

(** ** The key-value store of piece data (storage/ldb/store.go)

    The badger database is the map of its entries.  A transaction that
    reads a key finds its value, or fails with [ErrKeyNotFound] or with
    another error ([getFails]); reading the value of the item found can
    fail too ([valueFails]).  An update runs its change in a transaction,
    where the database can refuse the key or the value ([setFails],
    [deleteFails]: a key with the reserved prefix, an entry that is too
    large), and commits it, which can fail as well ([commitFails]); an
    update that commits changes the map, one that fails leaves it as it
    was.  A piece id is an integer, as its bytes are the key. *)
Module Ldb.

Inductive DbError :=
| ErrKeyNotFound
| dbFailure (what : string)
| classWrapped (cause : DbError).

(** [Error.Wrap] of the class "WiscKey error": nil stays nil. *)
Definition ErrorWrap (err : option DbError) : option DbError :=
  match err with
  | None => None
  | Some e => Some (classWrapped e)
  end.

(** [errors.Is(err, badger.ErrKeyNotFound)] *)
Fixpoint IsKeyNotFound (e : DbError) : bool :=
  match e with
  | ErrKeyNotFound => true
  | dbFailure _ => false
  | classWrapped c => IsKeyNotFound c
  end.

(** [*badger.DB], when it is not nil *)
Record DB := {
  entries : gmap Z bytes;
  getFails : Z -> option DbError;
  valueFails : Z -> option DbError;
  setFails : Z -> bytes -> option DbError;
  deleteFails : Z -> option DbError;
  commitFails : option DbError
}.

(** The logger and the directory of the store play no part in its
    methods; [db] is [None] for the nil pointer. *)
Record PieceDataStore := {
  db : option DB
}.

(** What a call does: it returns, or it panics because it calls a method
    of the nil database. *)
Inductive Run (A : Type) :=
| Ran (a : A)
| NilDereference.

Arguments Ran {A} a.
Arguments NilDereference {A}.

(** Lines 30-38.  [opened] is what [badger.Open] returns, the database and
    the error; the error is dropped and the pointer is kept as it is. *)
Definition New (opened : option DB * option DbError) : PieceDataStore :=
  let '(db, _) := opened in
  {| db := db |}.

(** Lines 41-45 *)
Definition GetInstance (store : PieceDataStore)
    : option DB * option DbError :=
  (db store, None).

(** [txn.Get]: the item of a key, here its value *)
Definition txnGet (d : DB) (key : Z) : DbError + bytes :=
  match getFails d key with
  | Some e => inl e
  | None =>
      match entries d !! key with
      | Some v => inr v
      | None => inl ErrKeyNotFound
      end
  end.

(** [db.Update] of a function that makes one change of the entries:
    [refused] is what the function returns, and the transaction is
    committed when that is nil. *)
Definition dbUpdate (d : DB) (refused : option DbError)
    (change : gmap Z bytes -> gmap Z bytes) : option DbError * DB :=
  match refused with
  | Some e => (Some e, d)
  | None =>
      match commitFails d with
      | Some e => (Some e, d)
      | None =>
          (None,
           {| entries := change (entries d); getFails := getFails d;
              valueFails := valueFails d; setFails := setFails d;
              deleteFails := deleteFails d; commitFails := commitFails d |})
      end
  end.

(** Lines 83-101.  The value is copied into a fresh slice. *)
Definition WiscKeyGet (db : option DB) (key : Z) : Run (DbError + bytes) :=
  match db with
  | None => NilDereference
  | Some d =>
      Ran match txnGet d key with
          | inl e => inl e
          | inr val =>
              match valueFails d key with
              | Some e => inl e
              | None => inr ([] ++ val)
              end
          end
  end.

(** Lines 103-107 *)
Definition WiscKeySet (db : option DB) (key : Z) (value : bytes)
    : Run (option DbError * DB) :=
  match db with
  | None => NilDereference
  | Some d => Ran (dbUpdate d (setFails d key value) (insert key value))
  end.

(** Lines 109-120.  The result is [(has, err)]. *)
Definition WiscKeyHas (db : option DB) (key : Z)
    : Run (bool * option DbError) :=
  match db with
  | None => NilDereference
  | Some d =>
      Ran match txnGet d key with
          | inl e => if IsKeyNotFound e then (false, None) else (false, Some e)
          | inr _ => (true, None)
          end
  end.

(** Lines 122-126 *)
Definition WiscKeyDel (db : option DB) (key : Z)
    : Run (option DbError * DB) :=
  match db with
  | None => NilDereference
  | Some d => Ran (dbUpdate d (deleteFails d key) (delete key))
  end.

(** Lines 47-54 *)
Definition Get (store : PieceDataStore) (id : Z) : Run (DbError + bytes) :=
  match WiscKeyGet (db store) id with
  | NilDereference => NilDereference
  | Ran (inl e) => Ran (inl (classWrapped e))
  | Ran (inr value) => Ran (inr value)
  end.

(** Lines 56-63.  The second component is the store after the call. *)
Definition Set_ (store : PieceDataStore) (id : Z) (data : bytes)
    : Run (option DbError * PieceDataStore) :=
  match WiscKeySet (db store) id data with
  | NilDereference => NilDereference
  | Ran (err, d) => Ran (ErrorWrap err, {| db := Some d |})
  end.

(** Lines 65-72 *)
Definition Has (store : PieceDataStore) (id : Z)
    : Run (bool * option DbError) :=
  match WiscKeyHas (db store) id with
  | NilDereference => NilDereference
  | Ran (_, Some e) => Ran (false, Some (classWrapped e))
  | Ran (has, None) => Ran (has, None)
  end.

(** Lines 74-81.  The second component is the store after the call. *)
Definition Delete (store : PieceDataStore) (id : Z)
    : Run (option DbError * PieceDataStore) :=
  match WiscKeyDel (db store) id with
  | NilDereference => NilDereference
  | Ran (err, d) => Ran (ErrorWrap err, {| db := Some d |})
  end.

(** A database with no entry that does not fail, and the store [New] makes
    of it. *)
Definition emptyDB : DB :=
  {| entries := ∅; getFails := fun _ => None; valueFails := fun _ => None;
     setFails := fun _ _ => None; deleteFails := fun _ => None;
     commitFails := None |}.

Definition emptyStore : PieceDataStore := New (Some emptyDB, None).

(** The store [New] makes when [badger.Open] fails without a database. *)
Definition unopened : PieceDataStore :=
  New (None, Some (dbFailure "Cannot acquire directory lock")).

End Ldb.

(** * Properties *)

(** ** Machine integers *)

Lemma wrap_exact (bits z : Z) :
  0 < bits -> - 2 ^ (bits - 1) <= z < 2 ^ (bits - 1) -> wrap bits z = z.
Proof.
  intros Hb Hz. unfold wrap.
  assert (Hp : 2 ^ bits = 2 * 2 ^ (bits - 1)).
  { replace bits with (Z.succ (bits - 1)) at 1 by lia.
    rewrite Z.pow_succ_r by lia. reflexivity. }
  rewrite Z.mod_small; lia.
Qed.

Lemma add64_exact (a b : Z) :
  min_int64 <= a + b <= max_int64 -> add64 a b = a + b.
Proof.
  unfold min_int64, max_int64, add64. intros H.
  apply wrap_exact; [lia|]. change (64 - 1) with 63. lia.
Qed.

Lemma sub64_exact (a b : Z) :
  min_int64 <= a - b <= max_int64 -> sub64 a b = a - b.
Proof.
  unfold min_int64, max_int64, sub64. intros H.
  apply wrap_exact; [lia|]. change (64 - 1) with 63. lia.
Qed.

Lemma add32_exact (a b : Z) :
  - 2 ^ 31 <= a + b < 2 ^ 31 -> add32 a b = a + b.
Proof.
  unfold add32. intros H. apply wrap_exact; [lia|].
  change (32 - 1) with 31. lia.
Qed.

Lemma len64_nonneg (data : bytes) : 0 <= len64 data.
Proof. unfold len64. lia. Qed.

Lemma len64_app (a b : bytes) : len64 (a ++ b) = len64 a + len64 b.
Proof. unfold len64. rewrite length_app. lia. Qed.

(** ** saveOrder touches the orders queue and the ledger only *)

Lemma saveOrder_nil (c : Collab) (limit : OrderLimit) (w : World) :
  saveOrder c limit None w = w.
Proof. reflexivity. Qed.

Lemma saveOrder_nothing (c : Collab) (limit : OrderLimit) (o : Order)
    (w : World) :
  Amount o <= 0 -> saveOrder c limit (Some o) w = w.
Proof.
  intros H. unfold saveOrder.
  destruct (Z.leb_spec (Amount o) 0); [reflexivity | lia].
Qed.

Lemma saveOrder_refused (c : Collab) (limit : OrderLimit) (o : Order)
    (w : World) (e : GoError) :
  EnqueueFails c (ordersQueue w) (infoOf limit o) = Some e ->
  saveOrder c limit (Some o) w = w.
Proof.
  intros H. unfold saveOrder, infoOf in *.
  destruct (Amount o <=? 0); [reflexivity|]. rewrite H. reflexivity.
Qed.


(** Either nothing changes, or the record is enqueued, and then at most the
    matching entry is added to the ledger. *)
Lemma saveOrder_cases (c : Collab) (limit : OrderLimit) (order : option Order)
    (w : World) :
  saveOrder c limit order w = w
  \/ exists o,
       order = Some o /\ 0 < Amount o
       /\ EnqueueFails c (ordersQueue w) (infoOf limit o) = None
       /\ ordersQueue (saveOrder c limit order w)
          = ordersQueue w ++ [infoOf limit o]
       /\ (usage (saveOrder c limit order w) = usage w
           \/ usage (saveOrder c limit order w)
              = usage w ++ [{| UsageSatellite := SatelliteId limit;
                               UsageAction := Action limit;
                               UsageAmount := Amount o;
                               UsageWhen := now c |}]).
Proof.
  destruct order as [o|]; [|left; reflexivity].
  unfold saveOrder, infoOf.
  destruct (Z.leb_spec (Amount o) 0); [left; reflexivity|].
  destruct (EnqueueFails c (ordersQueue w) _) eqn:He; [left; reflexivity|].
  right. exists o. repeat split; try assumption.
  - destruct (UsageAddFails _ _ _); reflexivity.
  - destruct (UsageAddFails _ _ _); [left | right]; reflexivity.
Qed.

Lemma saveOrder_frame (c : Collab) (limit : OrderLimit) (order : option Order)
    (w : World) :
  liveRequests (saveOrder c limit order w) = liveRequests w
  /\ blobs (saveOrder c limit order w) = blobs w
  /\ retainQueue (saveOrder c limit order w) = retainQueue w
  /\ sent (saveOrder c limit order w) = sent w
  /\ events (saveOrder c limit order w) = events w.
Proof.
  destruct order as [o|]; [|repeat split].
  unfold saveOrder. destruct (Amount o <=? 0); [repeat split|].
  destruct (EnqueueFails _ _ _); [repeat split|].
  destruct (UsageAddFails _ _ _); repeat split.
Qed.

(** What [saveOrder] does to the queue and the ledger depends on nothing
    else in the world. *)
Lemma saveOrder_ext (c : Collab) (limit : OrderLimit) (order : option Order)
    (w1 w2 : World) :
  ordersQueue w1 = ordersQueue w2 -> usage w1 = usage w2 ->
  ordersQueue (saveOrder c limit order w1)
  = ordersQueue (saveOrder c limit order w2)
  /\ usage (saveOrder c limit order w1) = usage (saveOrder c limit order w2).
Proof.
  intros Hq Hu. destruct order as [o|]; [|split; assumption].
  unfold saveOrder. destruct (Amount o <=? 0); [split; assumption|].
  rewrite Hq. destruct (EnqueueFails _ _ _); [split; assumption|].
  simpl. rewrite Hu. destruct (UsageAddFails _ _ _); simpl; rewrite ?Hq, ?Hu; split; reflexivity.
Qed.

Arguments saveOrder : simpl never.

(** ** What one message changes *)

Lemma Upload_order_frame (c : Collab) (limit : OrderLimit)
    (m : PieceUploadRequest) (st st' : UploadState) (err : option GoError) :
  Upload_order c limit m st = (err, st') ->
  pieceWriter st' = pieceWriter st
  /\ availableSpace st' = availableSpace st
  /\ chunkDataAll st' = chunkDataAll st
  /\ orderSaved st' = orderSaved st.
Proof.
  unfold Upload_order. intros H.
  repeat case_match; simplify_eq; repeat split.
Qed.

Lemma Upload_chunk_frame (c : Collab) (m : PieceUploadRequest)
    (st st' : UploadState) (err : option GoError) :
  Upload_chunk c m st = (err, st') ->
  largestOrder st' = largestOrder st /\ orderSaved st' = orderSaved st.
Proof.
  unfold Upload_chunk. intros H.
  repeat case_match; simplify_eq; repeat split.
Qed.

(** A chunk that is refused leaves the writer and the stash as they were. *)
Lemma Upload_chunk_refused (c : Collab) (m : PieceUploadRequest)
    (st st' : UploadState) (e : GoError) :
  Upload_chunk c m st = (Some e, st') ->
  pieceWriter st' = pieceWriter st /\ chunkDataAll st' = chunkDataAll st.
Proof.
  unfold Upload_chunk. intros H.
  repeat case_match; simplify_eq; repeat split.
Qed.

(** A message is refused as a whole, or its order is refused, or its order
    passes and its chunk decides. *)
Lemma Upload_message_inv (c : Collab) (limit : OrderLimit)
    (m : PieceUploadRequest) (st st' : UploadState) (err : option GoError) :
  Upload_message c limit m st = (err, st') ->
  (err = Some expectedMessage /\ st' = st
   /\ UpOrder m = None /\ UpChunk m = None /\ UpDone m = None)
  \/ (exists e, err = Some e /\ Upload_order c limit m st = (Some e, st'))
  \/ (exists st1, Upload_order c limit m st = (None, st1)
                  /\ Upload_chunk c m st1 = (err, st')).
Proof.
  unfold Upload_message. intros H.
  destruct (Upload_order c limit m st) as [[e|] st1] eqn:Ho.
  - destruct (UpOrder m) eqn:H1, (UpChunk m) eqn:H2, (UpDone m) eqn:H3;
      simplify_eq; try (right; left; eexists; split; reflexivity).
    unfold Upload_order in Ho. rewrite H1 in Ho. discriminate.
  - destruct (UpOrder m) eqn:H1, (UpChunk m) eqn:H2, (UpDone m) eqn:H3;
      simplify_eq; try (right; right; eexists; split; [reflexivity|assumption]).
    left. repeat split.
Qed.

Lemma Upload_message_frame (c : Collab) (limit : OrderLimit)
    (m : PieceUploadRequest) (st st' : UploadState) (err : option GoError) :
  Upload_message c limit m st = (err, st') ->
  orderSaved st' = orderSaved st.
Proof.
  intros H. apply Upload_message_inv in H
    as [(_ & -> & _) | [(e & _ & Ho) | (st1 & Ho & Hc)]].
  - reflexivity.
  - apply Upload_order_frame in Ho. tauto.
  - apply Upload_order_frame in Ho. apply Upload_chunk_frame in Hc.
    destruct Ho as (_ & _ & _ & ?), Hc as [_ ?]. congruence.
Qed.

Lemma Upload_message_refused (c : Collab) (limit : OrderLimit)
    (m : PieceUploadRequest) (st st' : UploadState) (e : GoError) :
  Upload_message c limit m st = (Some e, st') ->
  pieceWriter st' = pieceWriter st /\ chunkDataAll st' = chunkDataAll st.
Proof.
  intros H. apply Upload_message_inv in H
    as [(_ & -> & _) | [(e1 & _ & Ho) | (st1 & Ho & Hc)]].
  - split; reflexivity.
  - apply Upload_order_frame in Ho. tauto.
  - apply Upload_order_frame in Ho. apply Upload_chunk_refused in Hc.
    destruct Ho as (? & _ & ? & _), Hc as [? ?]. split; congruence.
Qed.

(** ** The orders queue and the ledger over a session *)

Lemma Upload_done_persist (c : Collab) (limit : OrderLimit) (done : PieceHash)
    (st st' : UploadState) (w w' : World) (err : option GoError) :
  orderSaved st = false ->
  Upload_done c limit done st w = (err, st', w') ->
  largestOrder st' = largestOrder st
  /\ (orderSaved st' = false
      /\ ordersQueue w' = ordersQueue w /\ usage w' = usage w
      \/ orderSaved st' = true
         /\ ordersQueue w'
            = ordersQueue (saveOrder c limit (Some (largestOrder st)) w)
         /\ usage w' = usage (saveOrder c limit (Some (largestOrder st)) w)).
Proof.
  intros Hs H. unfold Upload_done, CommitWithWiscKey in H.
  repeat case_match; simplify_eq; simpl;
    (split; [reflexivity|]);
    try (left; repeat split; assumption);
    right; (split; [reflexivity|]);
    apply saveOrder_ext; reflexivity.
Qed.

Lemma Upload_loop_persist (c : Collab) (limit : OrderLimit)
    (stream : list (Recv PieceUploadRequest)) :
  forall (st st' : UploadState) (w w' : World) (err : option GoError),
    orderSaved st = false ->
    Upload_loop c limit st w stream = (err, st', w') ->
    orderSaved st' = false
    /\ ordersQueue w' = ordersQueue w /\ usage w' = usage w
    \/ orderSaved st' = true
       /\ ordersQueue w'
          = ordersQueue (saveOrder c limit (Some (largestOrder st')) w)
       /\ usage w' = usage (saveOrder c limit (Some (largestOrder st')) w).
Proof.
  induction stream as [|r rest IH]; intros st st' w w' err Hs H; simpl in H.
  - simplify_eq. left. repeat split. assumption.
  - destruct r as [e | [m|]].
    + destruct (Is_EOF e); simplify_eq; left; repeat split; assumption.
    + destruct (Upload_message c limit m st) as [[e|] st1] eqn:Hm.
      * apply Upload_message_frame in Hm. simplify_eq.
        left. repeat split. congruence.
      * apply Upload_message_frame in Hm.
        destruct (UpDone m) as [done|].
        -- apply Upload_done_persist in H as [Hl Hd]; [|congruence].
           rewrite Hl. exact Hd.
        -- eapply IH; [|eassumption]. congruence.
    + simplify_eq. left. repeat split. assumption.
Qed.

(** Over a session the queue and the ledger change as one [saveOrder] of the
    final [largestOrder] changes them, on every path out of the loop. *)
Lemma Upload_session_persist (c : Collab) (limit : OrderLimit) (wr : Writer)
    (space : Z) (w w' : World) (stream : list (Recv PieceUploadRequest))
    (err : option GoError) (st : UploadState) :
  Upload_session c limit wr space w stream = (err, st, w') ->
  ordersQueue w' = ordersQueue (saveOrder c limit (Some (largestOrder st)) w)
  /\ usage w' = usage (saveOrder c limit (Some (largestOrder st)) w).
Proof.
  unfold Upload_session. intros H.
  destruct (Upload_loop c limit (Upload_start wr space) w stream)
    as [[err1 st1] w1] eqn:Hl.
  simplify_eq.
  apply Upload_loop_persist in Hl as [(Hs & Hq & Hu) | (Hs & Hq & Hu)];
    [| |reflexivity]; rewrite Hs.
  - apply saveOrder_ext; assumption.
  - split; assumption.
Qed.

Lemma Download_receiver_persist (c : Collab) (limit : OrderLimit)
    (w w' : World) (stream : list (Recv PieceDownloadRequest))
    (err : option GoError) (largest : Order) :
  Download_receiver c limit w stream = (err, largest, w') ->
  w' = saveOrder c limit (Some largest) w.
Proof.
  unfold Download_receiver. intros H.
  destruct (Download_loop c limit Order_zero [] stream) as [[e l] p].
  simplify_eq. reflexivity.
Qed.

Lemma runSession_persist (c : Collab) (limit : OrderLimit) (s : Session)
    (w w' : World) (err : option GoError) (largest : Order) :
  runSession c limit s w = (err, largest, w') ->
  ordersQueue w' = ordersQueue (saveOrder c limit (Some largest) w)
  /\ usage w' = usage (saveOrder c limit (Some largest) w).
Proof.
  destruct s as [wr space stream | stream]; simpl; intros H.
  - destruct (Upload_session c limit wr space w stream)
      as [[e st] w1] eqn:Hs.
    simplify_eq. eapply Upload_session_persist. eassumption.
  - apply Download_receiver_persist in H. subst. split; reflexivity.
Qed.

(** ** The final largestOrder is the last order verified *)

Lemma Upload_message_largest (c : Collab) (limit : OrderLimit)
    (m : PieceUploadRequest) (st st' : UploadState) (err : option GoError) :
  Upload_message c limit m st = (err, st') ->
  largestOrder st'
  = default (largestOrder st) (last (Upload_accepts c limit m st)).
Proof.
  intros H. unfold Upload_accepts.
  apply Upload_message_inv in H
    as [(_ & -> & Ho & _) | [(e & _ & Ho) | (st1 & Ho & Hc)]].
  - rewrite Ho. destruct (Upload_order c limit m st) as [[?|] ?]; reflexivity.
  - rewrite Ho. unfold Upload_order in Ho.
    repeat case_match; simplify_eq; reflexivity.
  - rewrite Ho. apply Upload_chunk_frame in Hc as [-> _].
    unfold Upload_order in Ho.
    repeat case_match; simplify_eq; reflexivity.
Qed.

Lemma default_last_app {A : Type} (x : A) (l1 l2 : list A) :
  default x (last (l1 ++ l2)) = default (default x (last l1)) (last l2).
Proof.
  rewrite last_app. destruct (last l2); reflexivity.
Qed.

Lemma Upload_verified_final (c : Collab) (limit : OrderLimit)
    (stream : list (Recv PieceUploadRequest)) :
  forall (st st' : UploadState) (w w' : World) (err : option GoError),
    Upload_loop c limit st w stream = (err, st', w') ->
    largestOrder st'
    = default (largestOrder st) (last (Upload_verified c limit st stream)).
Proof.
  induction stream as [|r rest IH]; intros st st' w w' err H; simpl in H.
  - simplify_eq. reflexivity.
  - destruct r as [e | [m|]].
    + destruct (Is_EOF e); simplify_eq; reflexivity.
    + simpl. rewrite default_last_app.
      destruct (Upload_message c limit m st) as [[e|] st1] eqn:Hm;
        apply Upload_message_largest in Hm.
      * simplify_eq. simpl. assumption.
      * destruct (UpDone m) as [done|].
        -- unfold Upload_done, CommitWithWiscKey in H.
           repeat case_match; simplify_eq; simpl; assumption.
        -- rewrite <- Hm. eapply IH. eassumption.
    + simplify_eq. reflexivity.
Qed.

Lemma Upload_accepts_inv (c : Collab) (limit : OrderLimit)
    (m : PieceUploadRequest) (st : UploadState) :
  Upload_accepts c limit m st = []
  \/ exists o,
       Upload_accepts c limit m st = [o] /\ UpOrder m = Some o
       /\ VerifyOrder c limit o (Amount (largestOrder st)) = None.
Proof.
  unfold Upload_accepts, Upload_order.
  destruct (UpOrder m) as [o|]; [|left; reflexivity].
  destruct (VerifyOrder c limit o (Amount (largestOrder st))) eqn:Hv;
    [left; reflexivity|].
  right. exists o. repeat split. assumption.
Qed.

Lemma Upload_verified_sound (c : Collab) (limit : OrderLimit)
    (stream : list (Recv PieceUploadRequest)) :
  forall (st : UploadState) (o : Order),
    o ∈ Upload_verified c limit st stream ->
    exists m prev,
      inr (Some m) ∈ stream /\ UpOrder m = Some o
      /\ VerifyOrder c limit o prev = None.
Proof.
  induction stream as [|r rest IH]; intros st o Ho; simpl in Ho.
  - inversion Ho.
  - destruct r as [e | [m|]]; try (inversion Ho; fail).
    apply elem_of_app in Ho as [Ho | Ho].
    + destruct (Upload_accepts_inv c limit m st) as [Hn | (o' & Ha & Hm & Hv)];
        rewrite ?Hn, ?Ha in Ho.
      * inversion Ho.
      * apply list_elem_of_singleton in Ho. subst o'.
        exists m, (Amount (largestOrder st)). split; [left | split; assumption].
    + destruct (Upload_message c limit m st) as [[e|] st1];
        [inversion Ho|].
      destruct (UpDone m); [inversion Ho|].
      apply IH in Ho as (m' & prev & Hin & Hm & Hv).
      exists m', prev. split; [right; assumption | split; assumption].
Qed.


Lemma Download_verified_final (c : Collab) (limit : OrderLimit)
    (stream : list (Recv PieceDownloadRequest)) :
  forall (largest largest' : Order) (produced produced' : list Z)
         (err : option GoError),
    Download_loop c limit largest produced stream = (err, largest', produced') ->
    largest' = default largest (last (Download_verified c limit largest stream)).
Proof.
  induction stream as [|r rest IH]; intros l l' p p' err H; simpl in *.
  - simplify_eq. reflexivity.
  - destruct r as [e | [m|]].
    + repeat case_match; simplify_eq; reflexivity.
    + destruct (DownOrder m) as [o|]; [|simplify_eq; reflexivity].
      destruct (VerifyOrder c limit o (Amount l)); [simplify_eq; reflexivity|].
      apply IH in H. rewrite last_cons.
      destruct (last (Download_verified c limit o rest)); assumption.
    + simplify_eq. reflexivity.
Qed.

Lemma Download_verified_sound (c : Collab) (limit : OrderLimit)
    (stream : list (Recv PieceDownloadRequest)) :
  forall (largest o : Order),
    o ∈ Download_verified c limit largest stream ->
    exists m prev,
      inr (Some m) ∈ stream /\ DownOrder m = Some o
      /\ VerifyOrder c limit o prev = None.
Proof.
  induction stream as [|r rest IH]; intros l o Ho; simpl in Ho.
  - inversion Ho.
  - destruct r as [e | [m|]]; try (inversion Ho; fail).
    destruct (DownOrder m) as [o'|] eqn:Hm; [|inversion Ho].
    destruct (VerifyOrder c limit o' (Amount l)) eqn:Hv; [inversion Ho|].
    apply elem_of_cons in Ho as [-> | Ho].
    + exists m, (Amount l). split; [left | split; assumption].
    + apply IH in Ho as (m' & prev & Hin & Hm' & Hv').
      exists m', prev. split; [right; assumption | split; assumption].
Qed.


(** The same three facts for either kind of session. *)
Lemma runSession_final (c : Collab) (limit : OrderLimit) (s : Session)
    (w w' : World) (err : option GoError) (largest : Order) :
  runSession c limit s w = (err, largest, w') ->
  largest = default Order_zero (last (verifiedOrders c limit s)).
Proof.
  destruct s as [wr space stream | stream]; simpl; intros H.
  - unfold Upload_session in H.
    destruct (Upload_loop c limit (Upload_start wr space) w stream)
      as [[e st] w1] eqn:Hl.
    simplify_eq. apply Upload_verified_final in Hl. exact Hl.
  - unfold Download_receiver in H.
    destruct (Download_loop c limit Order_zero [] stream)
      as [[e l] p] eqn:Hl.
    simplify_eq. eapply Download_verified_final. eassumption.
Qed.

Lemma verifiedOrders_sound (c : Collab) (limit : OrderLimit) (s : Session)
    (o : Order) :
  o ∈ verifiedOrders c limit s ->
  exists prev, VerifyOrder c limit o prev = None.
Proof.
  destruct s as [wr space stream | stream]; simpl; intros H.
  - apply Upload_verified_sound in H as (m & prev & _ & _ & Hv). eauto.
  - apply Download_verified_sound in H as (m & prev & _ & _ & Hv). eauto.
Qed.


(** ** From the handlers to their sessions *)

Lemma CancelWithWiscKey_frame (wr : Writer) (w : World) :
  ordersQueue (CancelWithWiscKey wr w) = ordersQueue w
  /\ usage (CancelWithWiscKey wr w) = usage w
  /\ blobs (CancelWithWiscKey wr w) = blobs w
  /\ sent (CancelWithWiscKey wr w) = sent w.
Proof. unfold CancelWithWiscKey. destruct (WriterCommitted wr); repeat split. Qed.

(** An upload that passes its preliminaries returns the error of its
    session, and leaves the queue, the ledger and the store as its session
    leaves them. *)
Lemma Upload_reaches_session (cfg : Config) (c : Collab) (w : World)
    (first : PieceUploadRequest) (limit : OrderLimit) (space : Z)
    (stream : list (Recv PieceUploadRequest)) :
  UpLimit first = Some limit ->
  opens cfg c w limit space ->
  exists st w',
    Upload_session c limit
      (WriterWithWiscKey (SatelliteId limit) (PieceId limit)) space
      (Upload_entered c limit w) stream
    = ((Upload cfg c w (inr (Some first) :: stream)).1, st, w')
    /\ ordersQueue (Upload cfg c w (inr (Some first) :: stream)).2
       = ordersQueue w'
    /\ usage (Upload cfg c w (inr (Some first) :: stream)).2 = usage w'
    /\ blobs (Upload cfg c w (inr (Some first) :: stream)).2 = blobs w'
    /\ UploadMeter (bucketOf (Upload cfg c w (inr (Some first) :: stream)).1)
         (WriterSize (pieceWriter st))
       ∈ events (Upload cfg c w (inr (Some first) :: stream)).2.
Proof.
  intros Hf (Hg & Ha & Hv & Hs & (d & Hd & Hle) & Hw).
  unfold Upload, Upload_gated. rewrite Hg, Hf.
  assert (Hact : negb (bool_decide (Action limit = PUT))
                 && negb (bool_decide (Action limit = PUT_REPAIR)) = false).
  { destruct Ha as [-> | ->]; reflexivity. }
  rewrite Hact, Hv. unfold Upload_monitored. rewrite Hs.
  unfold Upload_checked. rewrite Hd.
  destruct (Z.ltb_spec d (Limit limit)); [lia|].
  unfold Upload_metered, Upload_writing. rewrite Hw.
  fold (Upload_entered c limit w).
  destruct (Upload_session c limit _ space (Upload_entered c limit w) stream)
    as [[err st] w'] eqn:Hsess.
  exists st, w'. split; [reflexivity|].
  destruct (CancelWithWiscKey_frame (pieceWriter st) w') as (Hq & Hu & Hb & _).
  destruct (availableSpace st <? ReportCapacityThreshold cfg); simpl;
    rewrite ?Hq, ?Hu, ?Hb; repeat split;
    rewrite !elem_of_app, !list_elem_of_singleton; auto.
Qed.

Lemma Download_send_frame (produces : nat -> Throttle) (pieceData : bytes)
    (turns : list Turn) :
  forall (currentOffset unsentAmount taken : Z) (received : nat)
         (w w' : World) (out : Outcome),
    Download_send produces pieceData currentOffset unsentAmount taken received
      w turns = (out, w') ->
    liveRequests w' = liveRequests w /\ ordersQueue w' = ordersQueue w
    /\ usage w' = usage w /\ blobs w' = blobs w
    /\ retainQueue w' = retainQueue w /\ events w' = events w.
Proof.
  induction turns as [|t rest IH]; intros off un tk rc w w' out H;
    simpl in H.
  - destruct (0 <? un); simplify_eq; repeat split.
  - repeat case_match; simplify_eq; try (repeat split; fail);
      apply IH in H; exact H.
Qed.

Lemma Download_sender_frame (c : Collab) (limit : OrderLimit) (p : Piece)
    (chunk : DownloadChunk) (stream : list (Recv PieceDownloadRequest))
    (turns : list Turn) (w w' : World) (out : Outcome) :
  Download_sender c limit p chunk w stream turns = (out, w') ->
  liveRequests w' = liveRequests w /\ ordersQueue w' = ordersQueue w
  /\ usage w' = usage w /\ blobs w' = blobs w
  /\ retainQueue w' = retainQueue w /\ events w' = events w.
Proof.
  unfold Download_sender. intros H.
  destruct (ReadFails c); [simplify_eq; repeat split|].
  eapply Download_send_frame. eassumption.
Qed.

(** A download that passes its preliminaries and whose sending task returns
    gives the two tasks' errors combined, and leaves the queue, the ledger
    and the responses as its receiving closure leaves them. *)
Lemma Download_reaches_tasks (c : Collab) (w : World)
    (first : PieceDownloadRequest) (limit : OrderLimit)
    (chunk : DownloadChunk) (p : Piece)
    (stream : list (Recv PieceDownloadRequest)) (turns : list Turn)
    (sendErr : option GoError) (w2 : World) :
  DownLimit first = Some limit ->
  DownChunk first = Some chunk ->
  reads c w limit chunk p ->
  Download_sender c limit p chunk (Download_entered c limit p w) stream turns
  = (Returned sendErr, w2) ->
  exists recvErr largest w3,
    Download_receiver c limit w2 stream = (recvErr, largest, w3)
    /\ (Download c w (inr (Some first) :: stream) turns).1
       = Returned (Wrap Internal (Combine sendErr recvErr))
    /\ ordersQueue (Download c w (inr (Some first) :: stream) turns).2
       = ordersQueue w3
    /\ usage (Download c w (inr (Some first) :: stream) turns).2 = usage w3
    /\ sent (Download c w (inr (Some first) :: stream) turns).2 = sent w3
    /\ DownloadMeter (bucketOf (Wrap Internal (Combine sendErr recvErr)))
         (ReaderSize p)
       ∈ events (Download c w (inr (Some first) :: stream) turns).2.
Proof.
  intros Hl Hc (Ha & Hsz & Hv & Hr & Hb & Hrep & Hfit) Hsend.
  destruct (Download_receiver c limit w2 stream) as [[recvErr largest] w3]
    eqn:Hrecv.
  exists recvErr, largest, w3. split; [reflexivity|].
  unfold Download, Download_counted. rewrite Hl, Hc, Ha. simpl negb. cbv iota.
  destruct (Z.ltb_spec (Limit limit) (ChunkSize chunk)); [lia|].
  rewrite Hv. unfold Download_metered, ReaderWithWiscKey. rewrite Hr.
  simpl blobs. rewrite Hb. unfold Download_reading.
  unfold Download_entered in Hsend.
  destruct (bool_decide (Action limit = GET_REPAIR)) eqn:Hrepair.
  - apply bool_decide_eq_true in Hrepair. destruct (Hrep Hrepair) as [-> ->].
    destruct (GetHashAndLimitWithWiscKey limit p) as [pieceHash orderLimit].
    simpl in Hsend.
    destruct (Z.ltb_spec (ReaderSize p)
                (add64 (ChunkOffset chunk) (ChunkSize chunk))); [lia|].
    rewrite Hsend, Hrecv. repeat split.
    simpl. rewrite !elem_of_app, !list_elem_of_singleton. auto.
  - destruct (Z.ltb_spec (ReaderSize p)
                (add64 (ChunkOffset chunk) (ChunkSize chunk))); [lia|].
    rewrite Hsend, Hrecv. repeat split.
    simpl. rewrite !elem_of_app, !list_elem_of_singleton. auto.
Qed.

Lemma Download_entered_frame (c : Collab) (limit : OrderLimit) (p : Piece)
    (w : World) :
  ordersQueue (Download_entered c limit p w) = ordersQueue w
  /\ usage (Download_entered c limit p w) = usage w
  /\ blobs (Download_entered c limit p w) = blobs w.
Proof.
  unfold Download_entered.
  destruct (bool_decide (Action limit = GET_REPAIR)); repeat split.
Qed.

(** A handler leaves the queue and the ledger as its session leaves them,
    and its session starts with the queue and the ledger the handler
    found. *)
Lemma serves_persist (c : Collab) (limit : OrderLimit) (w0 w final w' : World)
    (s : Session) (err : option GoError) (largest : Order) :
  serves c limit w0 s w final ->
  runSession c limit s w = (err, largest, w') ->
  ordersQueue w = ordersQueue w0 /\ usage w = usage w0
  /\ ordersQueue final = ordersQueue w' /\ usage final = usage w'.
Proof.
  intros Hserves Hrun.
  destruct Hserves as [cfg w0 first space stream Hf Ho
                      | w0 first chunk p stream turns sendErr w Hl Hc Hr Hs].
  - destruct (Upload_reaches_session cfg c w0 first limit space stream Hf Ho)
      as (st & w1 & Hsess & Hq & Hu & _).
    simpl in Hrun. rewrite Hsess in Hrun. simplify_eq.
    repeat split; assumption.
  - destruct (Download_reaches_tasks c w0 first limit chunk p stream turns
                sendErr w Hl Hc Hr Hs)
      as (recvErr & largest1 & w3 & Hrecv & _ & Hq & Hu & _).
    simpl in Hrun. rewrite Hrecv in Hrun. simplify_eq.
    apply Download_sender_frame in Hs as (_ & Hq1 & Hu1 & _).
    destruct (Download_entered_frame c limit p w0) as (Hq2 & Hu2 & _).
    repeat split; congruence.
Qed.

(** * The properties of the specification *)

(** ** Persistence of orders *)


Lemma quiet_opens (action : PieceAction) :
  action = PUT \/ action = PUT_REPAIR ->
  opens unlimited quiet idle (limitFor action 10) 1000.
Proof.
  intros Ha. unfold opens. repeat split; try assumption; try reflexivity.
  exists 1000. split; [reflexivity | simpl; lia].
Qed.



Lemma quiet_bounded (limit : OrderLimit) :
  Limit limit <= max_int64 -> bounded quiet limit.
Proof.
  intros Hlim o prev H. simpl in H. unfold verifyOrder_spec in H.
  destruct (negb (OrderSerialNumber o =? SerialNumber limit));
    [discriminate|].
  destruct (Z.ltb_spec (Amount o) prev); [discriminate|].
  destruct (Z.ltb_spec (Limit limit) (Amount o)); [discriminate|]. lia.
Qed.




(** On return from a handler the queue and the ledger are those one
    [saveOrder] of the final [largestOrder] makes of the ones it found. *)
Lemma serves_saveOrder (c : Collab) (limit : OrderLimit)
    (w0 w final w' : World) (s : Session) (err : option GoError)
    (largest : Order) :
  serves c limit w0 s w final ->
  runSession c limit s w = (err, largest, w') ->
  ordersQueue final = ordersQueue (saveOrder c limit (Some largest) w0)
  /\ usage final = usage (saveOrder c limit (Some largest) w0).
Proof.
  intros Hserves Hrun.
  destruct (serves_persist _ _ _ _ _ _ _ _ _ Hserves Hrun)
    as (Hq0 & Hu0 & Hq & Hu).
  destruct (runSession_persist _ _ _ _ _ _ _ Hrun) as [Hq1 Hu1].
  destruct (saveOrder_ext c limit (Some largest) w w0 Hq0 Hu0) as [Hq2 Hu2].
  split; congruence.
Qed.

(** C10.  When the session of an Upload or Download ends with a largest
    verified order of amount at most 0, as it does when it verified no order
    at all, the handler returns with the orders queue and the bandwidth
    ledger as it found them: the order-persist is a no-op.  In every case
    the ledger changes only when the enqueue succeeded, and then the queue
    has gained the record. *)
Theorem order_persist_noop (c : Collab) (limit : OrderLimit)
    (w0 w final w' : World) (s : Session) (err : option GoError)
    (largest : Order) :
  serves c limit w0 s w final ->
  runSession c limit s w = (err, largest, w') ->
  (Amount largest <= 0 ->
   saveOrder c limit (Some largest) w0 = w0
   /\ ordersQueue final = ordersQueue w0 /\ usage final = usage w0)
  /\ (verifiedOrders c limit s = [] -> Amount largest <= 0)
  /\ (usage final <> usage w0 ->
      EnqueueFails c (ordersQueue w0) (infoOf limit largest) = None
      /\ ordersQueue final = ordersQueue w0 ++ [infoOf limit largest]).
Proof.
  intros Hserves Hrun.
  destruct (serves_saveOrder _ _ _ _ _ _ _ _ _ Hserves Hrun) as [Hq Hu].
  split; [|split].
  - intros Hle. rewrite Hq, Hu, saveOrder_nothing by assumption.
    repeat split.
  - intros Hnone. rewrite (runSession_final _ _ _ _ _ _ _ Hrun), Hnone.
    simpl. lia.
  - intros Hne. rewrite Hq.
    destruct (saveOrder_cases c limit (Some largest) w0)
      as [Hsame | (o & Ho & _ & Henq & Hqueue & _)].
    + rewrite Hu, Hsame in Hne. contradiction.
    + simplify_eq. split; assumption.
Qed.

Lemma order_persist_noop_witness :
  saveOrder quiet (limitFor PUT 10) (Some (orderOf 0)) idle = idle
  /\ ordersQueue
       (Upload unlimited quiet idle
          (inr (Some (firstOf (limitFor PUT 10))) :: orderThenEOF 0)).2
     = ordersQueue idle
  /\ usage
       (Upload unlimited quiet idle
          (inr (Some (firstOf (limitFor PUT 10))) :: orderThenEOF 0)).2
     = usage idle.
Proof.
  refine (proj1 (order_persist_noop quiet (limitFor PUT 10) idle
           (Upload_entered quiet (limitFor PUT 10) idle) _
           (runSession quiet (limitFor PUT 10)
              (Upload_sessionOf (limitFor PUT 10) 1000 (orderThenEOF 0))
              (Upload_entered quiet (limitFor PUT 10) idle)).2
           _ (Some unexpectedEOF) (orderOf 0) _ _) _).
  - apply (serves_upload quiet (limitFor PUT 10) unlimited idle
             (firstOf (limitFor PUT 10)) 1000 (orderThenEOF 0)).
    + reflexivity.
    + apply quiet_opens. left. reflexivity.
  - reflexivity.
  - simpl. lia.
Defined.

(** ** Runs of the upload loop *)

Lemma Upload_run_app (c : Collab) (limit : OrderLimit)
    (ms1 ms2 : list PieceUploadRequest) :
  forall st : UploadState,
    Upload_run c limit st (ms1 ++ ms2)
    = match Upload_run c limit st ms1 with
      | Some st1 => Upload_run c limit st1 ms2
      | None => None
      end.
Proof.
  induction ms1 as [|m ms1 IH]; intros st; simpl; [reflexivity|].
  destruct (Upload_message c limit m st) as [[e|] st1]; [reflexivity|].
  destruct (UpDone m); [reflexivity|]. apply IH.
Qed.

Lemma Upload_run_snoc (c : Collab) (limit : OrderLimit)
    (ms : list PieceUploadRequest) (m : PieceUploadRequest)
    (st st' : UploadState) :
  Upload_run c limit st (ms ++ [m]) = Some st' ->
  exists st1,
    Upload_run c limit st ms = Some st1
    /\ Upload_message c limit m st1 = (None, st')
    /\ UpDone m = None.
Proof.
  rewrite Upload_run_app.
  destruct (Upload_run c limit st ms) as [st1|]; [|discriminate].
  simpl. intros H. exists st1.
  destruct (Upload_message c limit m st1) as [[e|] st2]; [discriminate|].
  destruct (UpDone m); [discriminate|]. simplify_eq. repeat split.
Qed.

(** While the loop runs it has taken every message off the stream. *)
Lemma Upload_loop_run (c : Collab) (limit : OrderLimit)
    (ms : list PieceUploadRequest) :
  forall (st st1 : UploadState) (w : World)
         (rest : list (Recv PieceUploadRequest)),
    Upload_run c limit st ms = Some st1 ->
    Upload_loop c limit st w (arrive ms ++ rest)
    = Upload_loop c limit st1 w rest.
Proof.
  induction ms as [|m ms IH]; intros st st1 w rest H; simpl in *.
  - simplify_eq. reflexivity.
  - destruct (Upload_message c limit m st) as [[e|] st2]; [discriminate|].
    destruct (UpDone m); [discriminate|]. apply IH. assumption.
Qed.

Lemma Upload_message_accepted (c : Collab) (limit : OrderLimit)
    (m : PieceUploadRequest) (st st' : UploadState) :
  Upload_message c limit m st = (None, st') ->
  exists st1,
    Upload_order c limit m st = (None, st1)
    /\ Upload_chunk c m st1 = (None, st').
Proof.
  intros H. apply Upload_message_inv in H
    as [(? & _) | [(e & ? & _) | (st1 & Ho & Hc)]]; try discriminate.
  exists st1. split; assumption.
Qed.


(** A chunk is written only at the writer's size and under the amount of
    [largestOrder]. *)
Lemma Upload_chunk_written (c : Collab) (m : PieceUploadRequest)
    (ch : UploadChunk) (st st' : UploadState) :
  UpChunk m = Some ch ->
  Upload_chunk c m st = (None, st') ->
  Offset ch = WriterSize (pieceWriter st)
  /\ add64 (WriterSize (pieceWriter st)) (len64 (Data ch))
     <= Amount (largestOrder st)
  /\ pieceWriter st' = WriteWithWiscKey (pieceWriter st) (Data ch)
  /\ chunkDataAll st' = chunkDataAll st ++ [Data ch].
Proof.
  unfold Upload_chunk. intros -> H.
  destruct (Z.eqb_spec (Offset ch) (WriterSize (pieceWriter st)));
    [|discriminate]. simpl in H.
  destruct (Z.ltb_spec (Amount (largestOrder st))
              (add64 (WriterSize (pieceWriter st)) (len64 (Data ch))));
    [discriminate|].
  repeat case_match; simplify_eq. repeat split; assumption.
Qed.

Lemma Upload_chunk_absent (c : Collab) (m : PieceUploadRequest)
    (st : UploadState) :
  UpChunk m = None -> Upload_chunk c m st = (None, st).
Proof. unfold Upload_chunk. intros ->. reflexivity. Qed.

Lemma chunksOf_snoc (ms : list PieceUploadRequest) (m : PieceUploadRequest) :
  chunksOf (ms ++ [m])
  = chunksOf ms ++ match UpChunk m with
                   | Some ch => [Data ch]
                   | None => []
                   end.
Proof.
  unfold chunksOf. rewrite omap_app. simpl.
  destruct (UpChunk m); reflexivity.
Qed.






(** The loop returns the error of the message that stops it, with the
    world as it was. *)
Lemma Upload_loop_stops (c : Collab) (limit : OrderLimit)
    (ms : list PieceUploadRequest) (m : PieceUploadRequest)
    (st0 st st' : UploadState) (e : GoError) (w : World)
    (rest : list (Recv PieceUploadRequest)) :
  Upload_run c limit st0 ms = Some st ->
  Upload_message c limit m st = (Some e, st') ->
  Upload_loop c limit st0 w (arrive ms ++ inr (Some m) :: rest)
  = (Some e, st', w).
Proof.
  intros Hrun Hm. rewrite (Upload_loop_run _ _ _ _ _ _ _ Hrun).
  simpl. rewrite Hm. reflexivity.
Qed.

Lemma Upload_message_chunk_with (c : Collab) (limit : OrderLimit)
    (m : PieceUploadRequest) (ch : UploadChunk) (st st1 : UploadState) :
  UpChunk m = Some ch ->
  Upload_order c limit m st = (None, st1) ->
  Upload_message c limit m st = Upload_chunk c m st1.
Proof.
  unfold Upload_message. intros Hc Ho. rewrite Hc, Ho.
  destruct (UpOrder m); reflexivity.
Qed.


(** ** Order of the chunks *)




(** ** Allocation *)




(** ** Disk space *)

(** C6.  An Upload whose order-limit passes verification, and for which the
    store then reports less free disk space than the limit's byte limit,
    fails with aborted.  It does so before a writer is opened: the handler
    leaves the store, the orders queue and the ledger as it found them, and
    the only calls it has made on collaborators that leave a trace are the
    ping and, when the monitor's available space is under the threshold,
    the low-disk notification.  (The store is queried once the monitor has
    answered the query that precedes it.) *)
Theorem no_space_aborts (cfg : Config) (c : Collab) (w : World)
    (first : PieceUploadRequest) (limit : OrderLimit) (space diskFree : Z)
    (stream : list (Recv PieceUploadRequest)) :
  overloaded cfg (add32 (liveRequests w) 1) = false ->
  UpLimit first = Some limit ->
  Action limit = PUT \/ Action limit = PUT_REPAIR ->
  verifyOrderLimit c limit = None ->
  AvailableSpace c = inr space ->
  StorageStatus c = inr diskFree ->
  diskFree < Limit limit ->
  (Upload cfg c w (inr (Some first) :: stream)).1
  = Some (notEnoughDiskSpace diskFree (Limit limit))
  /\ Code (Upload cfg c w (inr (Some first) :: stream)).1 = Aborted
  /\ blobs (Upload cfg c w (inr (Some first) :: stream)).2 = blobs w
  /\ ordersQueue (Upload cfg c w (inr (Some first) :: stream)).2
     = ordersQueue w
  /\ usage (Upload cfg c w (inr (Some first) :: stream)).2 = usage w
  /\ events (Upload cfg c w (inr (Some first) :: stream)).2
     = events w ++ WasPinged (now c)
         :: (if space <? ReportCapacityThreshold cfg then [NotifyLowDisk]
             else [])
  /\ (forall satellite piece,
        ~ WriterOpened satellite piece
            ∈ drop (length (events w))
                (events (Upload cfg c w (inr (Some first) :: stream)).2))
  /\ (forall satellite piece,
        ~ WriterCanceled satellite piece
            ∈ drop (length (events w))
                (events (Upload cfg c w (inr (Some first) :: stream)).2)).
Proof.
  intros Hg Hf Ha Hv Hs Hd Hlt.
  assert (Hact : negb (bool_decide (Action limit = PUT))
                 && negb (bool_decide (Action limit = PUT_REPAIR)) = false).
  { destruct Ha as [-> | ->]; reflexivity. }
  assert (Hrun : Upload cfg c w (inr (Some first) :: stream)
                 = (Some (notEnoughDiskSpace diskFree (Limit limit)),
                    setLive (add32 (add32 (liveRequests w) 1) (-1))
                      (if space <? ReportCapacityThreshold cfg
                       then emit NotifyLowDisk
                              (emit (WasPinged (now c))
                                 (setLive (add32 (liveRequests w) 1) w))
                       else emit (WasPinged (now c))
                              (setLive (add32 (liveRequests w) 1) w)))).
  { unfold Upload, Upload_gated. rewrite Hg, Hf, Hact, Hv.
    unfold Upload_monitored. rewrite Hs. unfold Upload_checked. rewrite Hd.
    destruct (Z.ltb_spec diskFree (Limit limit)); [|lia].
    destruct (space <? ReportCapacityThreshold cfg); reflexivity. }
  rewrite Hrun. simpl.
  assert (Hev : events
                  (if space <? ReportCapacityThreshold cfg
                   then emit NotifyLowDisk
                          (emit (WasPinged (now c))
                             (setLive (add32 (liveRequests w) 1) w))
                   else emit (WasPinged (now c))
                          (setLive (add32 (liveRequests w) 1) w))
                = events w ++ WasPinged (now c)
                    :: (if space <? ReportCapacityThreshold cfg
                        then [NotifyLowDisk] else [])).
  { destruct (space <? ReportCapacityThreshold cfg); simpl;
      rewrite <- ?app_assoc; reflexivity. }
  repeat split;
    try (destruct (space <? ReportCapacityThreshold cfg); reflexivity);
    try assumption;
    intros satellite piece;
    rewrite Hev, drop_app_length;
    destruct (space <? ReportCapacityThreshold cfg);
    intros Hin; repeat (apply elem_of_cons in Hin as [Hin | Hin];
                        [discriminate|]); inversion Hin.
Qed.

Lemma no_space_aborts_witness :
  (Upload unlimited lowDisk idle [inr (Some (firstOf (limitFor PUT 10)))]).1
  = Some (notEnoughDiskSpace 5 10)
  /\ Code (Upload unlimited lowDisk idle
             [inr (Some (firstOf (limitFor PUT 10)))]).1 = Aborted
  /\ blobs (Upload unlimited lowDisk idle
              [inr (Some (firstOf (limitFor PUT 10)))]).2 = blobs idle
  /\ ordersQueue (Upload unlimited lowDisk idle
                    [inr (Some (firstOf (limitFor PUT 10)))]).2
     = ordersQueue idle
  /\ usage (Upload unlimited lowDisk idle
              [inr (Some (firstOf (limitFor PUT 10)))]).2 = usage idle
  /\ events (Upload unlimited lowDisk idle
               [inr (Some (firstOf (limitFor PUT 10)))]).2
     = events idle ++ WasPinged (now lowDisk)
         :: (if 1000 <? ReportCapacityThreshold unlimited then [NotifyLowDisk]
             else [])
  /\ (forall satellite piece,
        ~ WriterOpened satellite piece
            ∈ drop (length (events idle))
                (events (Upload unlimited lowDisk idle
                           [inr (Some (firstOf (limitFor PUT 10)))]).2))
  /\ (forall satellite piece,
        ~ WriterCanceled satellite piece
            ∈ drop (length (events idle))
                (events (Upload unlimited lowDisk idle
                           [inr (Some (firstOf (limitFor PUT 10)))]).2)).
Proof.
  apply (no_space_aborts unlimited lowDisk idle (firstOf (limitFor PUT 10))
           (limitFor PUT 10) 1000 5 []).
  - reflexivity.
  - reflexivity.
  - left. reflexivity.
  - reflexivity.
  - reflexivity.
  - reflexivity.
  - simpl. lia.
Defined.

(** ** A peer that goes away *)







(** ** Retain *)

(** C8, as amended.  While the retain service is not disabled, a Retain
    call from a peer without identity fails with unauthenticated and one
    from a peer the trust pool does not know fails with permission-denied,
    in both cases with the world as it was: the filter is not parsed and
    nothing is queued.  While the retain service is disabled, every call
    succeeds as a no-op and the peer is not looked at. *)
Theorem retain_checks_peer (cfg : Config) (c : Collab) (peer : GoError + Z)
    (retainReq : option RetainRequest) (w : World) :
  match peer with
  | inl _ => True
  | inr peerID => VerifySatelliteID c peerID <> None
  end ->
  (RetainStatus c <> Disabled ->
   exists e,
     Retain cfg c peer retainReq w = (Some e, w)
     /\ Code (Some e) = match peer with
                        | inl _ => Unauthenticated
                        | inr _ => PermissionDenied
                        end)
  /\ (RetainStatus c = Disabled ->
      Retain cfg c peer retainReq w = (None, w)).
Proof.
  intros Hpeer. unfold Retain. split.
  - intros Hon. destruct (RetainStatus c); [contradiction| |];
      destruct peer as [e | peerID];
      try (eexists; split; reflexivity);
      destruct (VerifySatelliteID c peerID); try contradiction;
      eexists; split; reflexivity.
  - intros ->. reflexivity.
Qed.

Lemma retain_checks_peer_witness :
  (exists e,
     Retain unlimited quiet (inl (failure "no peer identity")) None idle
     = (Some e, idle)
     /\ Code (Some e) = Unauthenticated)
  /\ Retain unlimited retainOff (inl (failure "no peer identity")) None idle
     = (None, idle).
Proof.
  split.
  - refine (proj1 (retain_checks_peer unlimited quiet
                     (inl (failure "no peer identity")) None idle I) _).
    intros H. discriminate H.
  - refine (proj2 (retain_checks_peer unlimited retainOff
                     (inl (failure "no peer identity")) None idle I) _).
    reflexivity.
Defined.

(** C8, as stated, fails.  With the retain service disabled, a call from a
    peer without identity succeeds, and so does a call from a peer the
    trust pool refuses. *)
Lemma retain_disabled_skips_peer_check :
  Retain unlimited retainOff (inl (failure "no peer identity")) None idle
  = (None, idle)
  /\ VerifySatelliteID retainOff 9 = Some (failure "satellite is untrusted")
  /\ Retain unlimited retainOff (inr 9)
       (Some {| CreationDate := 100; Filter := oneHashFilter |}) idle
     = (None, idle).
Proof. repeat split. Qed.

(** C9, as amended.  A Retain call that is accepted (service not disabled,
    peer trusted, filter parsed) hands the retain service's queue a request
    with the peer as satellite, the supplied created-before timestamp
    unchanged and the filter; the configured retain-time-buffer plays no
    part in it.  The request is queued when the service accepts it, and the
    call succeeds either way. *)
Theorem retain_queues_request (cfg : Config) (c : Collab) (peerID : Z)
    (retainReq : option RetainRequest) (w : World) :
  RetainStatus c <> Disabled ->
  VerifySatelliteID c peerID = None ->
  NewFromBytesFails c (GetFilter retainReq) = None ->
  Retain cfg c (inr peerID) retainReq w
  = (None,
     if QueueAccepts c (retainQueue w)
          {| ReqSatelliteID := peerID;
             ReqCreatedBefore := GetCreationDate retainReq;
             ReqFilter := GetFilter retainReq |}
     then setRetain
            (retainQueue w
             ++ [{| ReqSatelliteID := peerID;
                    ReqCreatedBefore := GetCreationDate retainReq;
                    ReqFilter := GetFilter retainReq |}]) w
     else w)
  /\ forall buffer : Z,
       Retain {| MaxConcurrentRequests := MaxConcurrentRequests cfg;
                 ReportCapacityThreshold := ReportCapacityThreshold cfg;
                 RetainTimeBuffer := buffer |} c (inr peerID) retainReq w
       = Retain cfg c (inr peerID) retainReq w.
Proof.
  intros Hon Ht Hp. split; [|reflexivity].
  unfold Retain. rewrite Ht, Hp.
  destruct (RetainStatus c); [contradiction| |];
    destruct (QueueAccepts c _ _); reflexivity.
Qed.

Lemma retain_queues_request_witness :
  Retain unlimited quiet (inr 9)
    (Some {| CreationDate := 100; Filter := oneHashFilter |}) idle
  = (None,
     setRetain [{| ReqSatelliteID := 9; ReqCreatedBefore := 100;
                   ReqFilter := oneHashFilter |}] idle).
Proof.
  refine (proj1 (retain_queues_request unlimited quiet 9
                   (Some {| CreationDate := 100; Filter := oneHashFilter |}) idle
                   _ eq_refl eq_refl)).
  intros H. discriminate H.
Defined.

(** C9, as stated, fails.  With a retain-time-buffer of 48, an accepted
    call with created-before 100 queues a request with created-before 100,
    not 52. *)
Lemma retain_passes_timestamp_unadjusted :
  RetainTimeBuffer unlimited = 48
  /\ retainQueue
       (Retain unlimited quiet (inr 9)
          (Some {| CreationDate := 100; Filter := oneHashFilter |}) idle).2
     = [{| ReqSatelliteID := 9; ReqCreatedBefore := 100;
          ReqFilter := oneHashFilter |}]
  /\ ReqCreatedBefore <$>
       retainQueue
         (Retain unlimited quiet (inr 9)
            (Some {| CreationDate := 100; Filter := oneHashFilter |}) idle).2
     <> [100 - RetainTimeBuffer unlimited].
Proof. repeat split. intros H. discriminate H. Qed.

(** ** The live-request counter *)

Lemma count_entered (p : InFlight -> bool) (s : Live) (f : InFlight) :
  Z.of_nat (length (filter (fun f => p f = true) (inFlight s ++ [f])))
  = count p s + (if p f then 1 else 0).
Proof.
  unfold count. rewrite filter_app, length_app, filter_cons, filter_nil.
  destruct (decide (p f = true)) as [Hp | Hp].
  - rewrite Hp. simpl. lia.
  - destruct (p f); [congruence|]. simpl. lia.
Qed.

Lemma count_left (p : InFlight -> bool) (s : Live) (i : nat) :
  Z.of_nat (length (filter (fun f => p f = true) (delete i (inFlight s))))
  <= count p s.
Proof.
  unfold count. generalize (inFlight s) as l. intros l. revert i.
  induction l as [|x l IH]; intros [|i]; simpl; try lia.
  - rewrite filter_cons. destruct (decide (p x = true)); simpl; lia.
  - rewrite !filter_cons. specialize (IH i).
    destruct (decide (p x = true)); simpl; lia.
Qed.

Lemma count_nonneg (p : InFlight -> bool) (s : Live) : 0 <= count p s.
Proof. unfold count. lia. Qed.

(** The three kinds of request in flight make up all of them. *)
Lemma count_partition (s : Live) :
  count isUpload s + count isRejecting s + count isOther s
  = Z.of_nat (length (inFlight s)).
Proof.
  unfold count. induction (inFlight s) as [|f l IH]; [reflexivity|].
  rewrite !filter_cons.
  destruct (decide (isUpload f = true)) as [H1 | H1],
           (decide (isRejecting f = true)) as [H2 | H2],
           (decide (isOther f = true)) as [H3 | H3];
    destruct f as [[| |]|]; simpl in *; try discriminate; try congruence;
    lia.
Qed.

Lemma move_length (cfg : Config) (s s' : Live) (m : Move) :
  move cfg s m = Some s' ->
  (length (inFlight s') <= S (length (inFlight s)))%nat.
Proof.
  destruct m as [r | i]; simpl; intros H.
  - simplify_eq. unfold enter. simpl. rewrite length_app. simpl. lia.
  - unfold leave in H. destruct (inFlight s !! i) eqn:Hi; [|discriminate].
    simplify_eq. simpl. rewrite length_delete by eauto. lia.
Qed.

Lemma execute_length (cfg : Config) (ms : list Move) :
  forall s s' : Live,
    execute cfg s ms = Some s' ->
    (length (inFlight s') <= length (inFlight s) + length ms)%nat.
Proof.
  induction ms as [|m ms IH]; intros s s' H; simpl in H.
  - simplify_eq. lia.
  - destruct (move cfg s m) as [s1|] eqn:Hm; [|discriminate].
    apply IH in H. apply move_length in Hm. simpl. lia.
Qed.

(** An upload that finds the node overloaded returns unavailable. *)
Lemma Upload_overloaded (cfg : Config) (c : Collab) (w : World)
    (stream : list (Recv PieceUploadRequest)) :
  overloaded cfg (add32 (liveRequests w) 1) = true ->
  Code (Upload cfg c w stream).1 = Unavailable.
Proof.
  intros H. unfold Upload, Upload_gated. rewrite H. reflexivity.
Qed.

Lemma move_invariant (cfg : Config) (s s' : Live) (m : Move) :
  0 < MaxConcurrentRequests cfg ->
  counter s = Z.of_nat (length (inFlight s)) ->
  count isUpload s <= MaxConcurrentRequests cfg ->
  Z.of_nat (length (inFlight s)) + 1 < 2 ^ 31 ->
  move cfg s m = Some s' ->
  counter s' = Z.of_nat (length (inFlight s'))
  /\ count isUpload s' <= MaxConcurrentRequests cfg.
Proof.
  intros Hn Hc Hu Hlen Hm. destruct m as [r | i]; simpl in Hm.
  - simplify_eq. unfold enter.
    rewrite add32_exact by lia.
    split; [simpl; rewrite length_app; simpl; lia|].
    unfold count at 1. simpl inFlight. rewrite count_entered.
    pose proof (count_partition s) as Hp.
    pose proof (count_nonneg isRejecting s).
    pose proof (count_nonneg isOther s).
    destruct r; simpl; try lia.
    destruct (overloaded cfg (counter s + 1)) eqn:Hov; simpl; [lia|].
    unfold overloaded in Hov.
    destruct (Z.ltb_spec 0 (MaxConcurrentRequests cfg)); [|lia].
    destruct (Z.ltb_spec (MaxConcurrentRequests cfg) (counter s + 1));
      [discriminate|]. lia.
  - unfold leave in Hm.
    destruct (inFlight s !! i) as [f|] eqn:Hi; [|discriminate].
    simplify_eq. simpl. apply lookup_lt_Some in Hi as Hlt.
    rewrite length_delete by eauto.
    rewrite add32_exact by lia.
    split; [lia|].
    pose proof (count_left isUpload s i) as Hd. unfold count at 1. simpl.
    lia.
Qed.

Lemma execute_invariant (cfg : Config) (ms : list Move) :
  0 < MaxConcurrentRequests cfg ->
  forall s s' : Live,
    counter s = Z.of_nat (length (inFlight s)) ->
    count isUpload s <= MaxConcurrentRequests cfg ->
    Z.of_nat (length (inFlight s)) + Z.of_nat (length ms) < 2 ^ 31 ->
    execute cfg s ms = Some s' ->
    counter s' = Z.of_nat (length (inFlight s'))
    /\ count isUpload s' <= MaxConcurrentRequests cfg.
Proof.
  intros Hn. induction ms as [|m ms IH]; intros s s' Hc Hu Hlen Hex;
    simpl in Hex.
  - simplify_eq. split; assumption.
  - destruct (move cfg s m) as [s1|] eqn:Hm; [|discriminate].
    simpl length in Hlen.
    pose proof (move_length _ _ _ _ Hm) as Hl.
    destruct (move_invariant cfg s s1 m Hn Hc Hu) as [Hc1 Hu1];
      [lia | assumption |].
    apply (IH s1 s'); try assumption. lia.
Qed.

(** C4, as amended.  With max-concurrent-requests N > 0, only Upload is
    gated.  In every interleaving of entries and exits (short of 2^31 - 1
    steps, so that the 32-bit counter does not wrap) the counter is the
    number of requests in flight, the uploads being served never exceed N,
    and so the counter less the downloads and deletes in flight, and less
    the uploads about to return unavailable, is at most N.  An upload that
    enters when the counter is N or more returns unavailable. *)
Theorem uploads_capped (cfg : Config) (ms : list Move) (s : Live) :
  0 < MaxConcurrentRequests cfg ->
  Z.of_nat (length ms) < 2 ^ 31 - 1 ->
  execute cfg started ms = Some s ->
  counter s = Z.of_nat (length (inFlight s))
  /\ count isUpload s <= MaxConcurrentRequests cfg
  /\ counter s - count isOther s - count isRejecting s
     <= MaxConcurrentRequests cfg
  /\ forall (c : Collab) (w : World)
            (stream : list (Recv PieceUploadRequest)),
       liveRequests w = counter s ->
       MaxConcurrentRequests cfg <= counter s ->
       Code (Upload cfg c w stream).1 = Unavailable.
Proof.
  intros Hn Hlen Hex.
  destruct (execute_invariant cfg ms Hn started s) as [Hc Hu];
    try assumption; try reflexivity.
  { unfold count. simpl. lia. }
  { simpl. lia. }
  pose proof (count_partition s) as Hp.
  pose proof (execute_length _ _ _ _ Hex) as Hb. simpl in Hb.
  repeat split; try assumption; [lia|].
  intros c w stream Hw Hfull. apply Upload_overloaded.
  rewrite Hw. unfold overloaded. rewrite add32_exact by lia.
  destruct (Z.ltb_spec 0 (MaxConcurrentRequests cfg)); [|lia].
  destruct (Z.ltb_spec (MaxConcurrentRequests cfg) (counter s + 1)); [|lia].
  reflexivity.
Qed.

Lemma uploads_capped_witness :
  counter {| counter := 2;
             inFlight := [Serving RpcUpload; Rejecting] |}
  = Z.of_nat (length [Serving RpcUpload; Rejecting])
  /\ count isUpload {| counter := 2;
                       inFlight := [Serving RpcUpload; Rejecting] |}
     <= MaxConcurrentRequests oneAtATime
  /\ counter {| counter := 2;
                inFlight := [Serving RpcUpload; Rejecting] |}
     - count isOther {| counter := 2;
                        inFlight := [Serving RpcUpload; Rejecting] |}
     - count isRejecting {| counter := 2;
                            inFlight := [Serving RpcUpload; Rejecting] |}
     <= MaxConcurrentRequests oneAtATime
  /\ forall (c : Collab) (w : World)
            (stream : list (Recv PieceUploadRequest)),
       liveRequests w = 2 ->
       MaxConcurrentRequests oneAtATime <= 2 ->
       Code (Upload oneAtATime c w stream).1 = Unavailable.
Proof.
  apply (uploads_capped oneAtATime [Enter RpcUpload; Enter RpcUpload]).
  - simpl. lia.
  - simpl. lia.
  - reflexivity.
Defined.

(** C4, as stated, fails.  With max-concurrent-requests 1, two downloads
    in flight bring the counter to 2 while no upload is being rejected;
    and so do one download and one delete. *)
Lemma downloads_exceed_the_cap :
  MaxConcurrentRequests oneAtATime = 1
  /\ execute oneAtATime started [Enter RpcDownload; Enter RpcDownload]
     = Some {| counter := 2;
               inFlight := [Serving RpcDownload; Serving RpcDownload] |}
  /\ count isRejecting
       {| counter := 2;
          inFlight := [Serving RpcDownload; Serving RpcDownload] |} = 0
  /\ execute oneAtATime started [Enter RpcDownload; Enter RpcDelete]
     = Some {| counter := 2;
               inFlight := [Serving RpcDownload; Serving RpcDelete] |}
  /\ ~ 2 <= MaxConcurrentRequests oneAtATime.
Proof. repeat split. simpl. lia. Qed.

(** ** What an upload stores *)

Lemma Upload_message_stash (c : Collab) (limit : OrderLimit)
    (m : PieceUploadRequest) (st st' : UploadState) :
  Upload_message c limit m st = (None, st') ->
  WriterSatellite (pieceWriter st') = WriterSatellite (pieceWriter st)
  /\ WriterPiece (pieceWriter st') = WriterPiece (pieceWriter st)
  /\ chunkDataAll st'
     = chunkDataAll st ++ match UpChunk m with
                          | Some ch => [Data ch]
                          | None => []
                          end.
Proof.
  intros H. apply Upload_message_accepted in H as (st1 & Ho & Hc).
  apply Upload_order_frame in Ho as (Hw & _ & Hd & _).
  destruct (UpChunk m) as [ch|] eqn:Hm.
  - destruct (Upload_chunk_written _ _ _ _ _ Hm Hc) as (_ & _ & Hw' & Hd').
    rewrite Hw', Hd', Hw, Hd. repeat split.
  - rewrite (Upload_chunk_absent _ _ _ Hm) in Hc. simplify_eq.
    rewrite app_nil_r. repeat split; congruence.
Qed.

(** A done that succeeds has committed the stash under the writer's key. *)
Lemma Upload_done_commits (c : Collab) (limit : OrderLimit) (done : PieceHash)
    (st st' : UploadState) (w w' : World) :
  Upload_done c limit done st w = (None, st', w') ->
  exists header,
    blobs w'
    = <[(WriterSatellite (pieceWriter st), WriterPiece (pieceWriter st)) :=
          {| PieceHeaderOf := header;
             PieceContent := concat (chunkDataAll st) |}]> (blobs w).
Proof.
  intros H. unfold Upload_done, CommitWithWiscKey in H.
  repeat case_match; simplify_eq; eexists; simpl;
    rewrite (proj1 (proj2 (saveOrder_frame _ _ _ _))); reflexivity.
Qed.

Lemma Upload_loop_commits (c : Collab) (limit : OrderLimit)
    (stream : list (Recv PieceUploadRequest)) :
  forall (st st' : UploadState) (w w' : World),
    Upload_loop c limit st w stream = (None, st', w') ->
    exists header,
      blobs w'
      = <[(WriterSatellite (pieceWriter st), WriterPiece (pieceWriter st)) :=
            {| PieceHeaderOf := header;
               PieceContent :=
                 concat (chunkDataAll st ++ uploadedChunks stream) |}]>
          (blobs w).
Proof.
  induction stream as [|r rest IH]; intros st st' w w' H; simpl in H.
  - discriminate.
  - destruct r as [e | [m|]]; [destruct (Is_EOF e); discriminate | |
                               discriminate].
    destruct (Upload_message c limit m st) as [[e|] st1] eqn:Hm;
      [discriminate|].
    apply Upload_message_stash in Hm as (Hs & Hp & Hd).
    simpl. destruct (UpDone m) as [done|].
    + apply Upload_done_commits in H as [header Hb].
      exists header. rewrite Hb, Hs, Hp, Hd, app_nil_r. reflexivity.
    + apply IH in H as [header Hb].
      exists header. rewrite Hb, Hs, Hp, Hd, <- app_assoc. reflexivity.
Qed.

(** A successful upload leaves in the store, under the limit's satellite
    and piece, the payloads it received, concatenated. *)
Lemma Upload_stores (cfg : Config) (c : Collab) (w w1 : World)
    (first : PieceUploadRequest) (limit : OrderLimit)
    (stream : list (Recv PieceUploadRequest)) :
  UpLimit first = Some limit ->
  Upload cfg c w (inr (Some first) :: stream) = (None, w1) ->
  exists header,
    blobs w1 !! (SatelliteId limit, PieceId limit)
    = Some {| PieceHeaderOf := header;
              PieceContent := concat (uploadedChunks stream) |}.
Proof.
  intros Hf H. unfold Upload, Upload_gated in H. rewrite Hf in H.
  destruct (overloaded cfg _); [discriminate|].
  destruct (negb _ && negb _); [discriminate|].
  destruct (verifyOrderLimit c limit); [discriminate|].
  unfold Upload_monitored in H.
  destruct (AvailableSpace c) as [e|space]; [discriminate|].
  unfold Upload_checked in H.
  destruct (StorageStatus c) as [e|diskFree]; [discriminate|].
  destruct (diskFree <? Limit limit); [discriminate|].
  unfold Upload_metered, Upload_writing in H.
  destruct (WriterFails c); [discriminate|].
  destruct (Upload_session c limit _ space _ stream) as [[err st] w2] eqn:Hs.
  unfold Upload_session in Hs.
  destruct (Upload_loop c limit _ _ stream) as [[err1 st1] w3] eqn:Hl.
  injection Hs as -> -> <-. injection H as -> <-.
  apply Upload_loop_commits in Hl as [header Hb]. simpl in Hb.
  exists header.
  destruct (CancelWithWiscKey_frame (pieceWriter st)
              (if orderSaved st then w3
               else saveOrder c limit (Some (largestOrder st)) w3))
    as (_ & _ & Hcb & _).
  assert (Hblobs : blobs (if orderSaved st then w3
                          else saveOrder c limit (Some (largestOrder st)) w3)
                   = blobs w3).
  { destruct (orderSaved st); [reflexivity|].
    apply saveOrder_frame. }
  destruct (availableSpace st <? ReportCapacityThreshold cfg); simpl;
    rewrite Hcb, Hblobs, Hb; apply lookup_insert_eq.
Qed.

Lemma sentBytes_app (l1 l2 : list PieceDownloadResponse) :
  sentBytes (l1 ++ l2) = sentBytes l1 ++ sentBytes l2.
Proof. unfold sentBytes. rewrite map_app, concat_app. reflexivity. Qed.

Lemma slice_Some (s d : bytes) (lo hi : Z) :
  slice s lo hi = Some d ->
  0 <= lo <= hi /\ hi <= len64 s
  /\ d = take (Z.to_nat (hi - lo)) (drop (Z.to_nat lo) s).
Proof.
  unfold slice. intros H.
  destruct (Z.leb_spec 0 lo); [|discriminate].
  destruct (Z.leb_spec lo hi); [|discriminate].
  destruct (Z.leb_spec hi (len64 s)); [|discriminate].
  simpl in H. simplify_eq. repeat split; assumption.
Qed.

Lemma min_spec (a b : Z) : min a b = Z.min a b.
Proof. unfold min. destruct (Z.ltb_spec a b); lia. Qed.

Lemma sentBytes_cons (offset : Z) (data : bytes)
    (rs : list PieceDownloadResponse) :
  sentBytes (RespChunk offset data :: rs) = data ++ sentBytes rs.
Proof. reflexivity. Qed.

Lemma send_all_sent (new : list PieceDownloadResponse) :
  forall w : World, sent (send_all new w) = sent w ++ new.
Proof.
  induction new as [|r new IH]; intros w; simpl.
  - rewrite app_nil_r. reflexivity.
  - rewrite IH. simpl. rewrite <- app_assoc. reflexivity.
Qed.

Lemma send_all_app (l1 l2 : list PieceDownloadResponse) :
  forall w : World, send_all (l1 ++ l2) w = send_all l2 (send_all l1 w).
Proof.
  induction l1 as [|r l1 IH]; intros w; simpl; [reflexivity | apply IH].
Qed.

(** A slice expression for a granted chunk that does not panic has not
    wrapped around, and gives as many bytes as were granted. *)
Lemma slice_granted (s d : bytes) (offset chunkSize : Z) :
  0 < chunkSize <= max_int64 ->
  slice s offset (add64 offset chunkSize) = Some d ->
  0 <= offset
  /\ add64 offset chunkSize = offset + chunkSize
  /\ offset + chunkSize <= len64 s
  /\ d = take (Z.to_nat chunkSize) (drop (Z.to_nat offset) s)
  /\ len64 d = chunkSize.
Proof.
  intros Hg H. apply slice_Some in H as ((Hoff & Hle) & Hend & ->).
  assert (Hexact : add64 offset chunkSize = offset + chunkSize).
  { unfold add64, wrap, max_int64 in *. change (64 - 1) with 63 in *.
    pose proof (Z.mod_pos_bound (offset + chunkSize + 2 ^ 63) (2 ^ 64)
                  ltac:(lia)) as Hm.
    destruct (Z_lt_le_dec (offset + chunkSize) (2 ^ 63)) as [Hlt|Hge].
    - rewrite Z.mod_small; lia.
    - exfalso.
      assert (Hmod : (offset + chunkSize + 2 ^ 63) mod 2 ^ 64
                     = offset + chunkSize + 2 ^ 63 - 2 ^ 64).
      { symmetry. apply (Z.mod_unique _ _ 1); lia. }
      lia. }
  rewrite Hexact in *.
  replace (offset + chunkSize - offset) with chunkSize by lia.
  repeat split; try assumption.
  unfold len64 in *. rewrite length_take, length_drop. lia.
Qed.

(** ** The throttle between the two tasks of a download *)

Lemma total_app (l1 l2 : list Z) : total (l1 ++ l2) = total l1 + total l2.
Proof.
  unfold total. induction l1 as [|x l1 IH]; simpl; [reflexivity|].
  rewrite IH. lia.
Qed.

Lemma total_nonneg (l : list Z) : Forall (fun n => 0 <= n) l -> 0 <= total l.
Proof.
  unfold total. intros H. induction H as [|x l Hx _ IH]; simpl; lia.
Qed.

Lemma Download_loop_tokens (c : Collab) (limit : OrderLimit)
    (stream : list (Recv PieceDownloadRequest)) :
  bounded c limit ->
  forall (largestOrder largest : Order) (acc produced : list Z)
         (err : option GoError),
    0 <= Amount largestOrder ->
    Download_loop c limit largestOrder acc stream = (err, largest, produced) ->
    exists new : list Z,
      produced = acc ++ new
      /\ total new = Amount largest - Amount largestOrder
      /\ Forall (fun n => 0 <= n) new
      /\ length new
         = length (Download_verified c limit largestOrder stream).
Proof.
  intros Hver.
  assert (Hstop : forall (lo : Order) (acc : list Z),
            exists new : list Z,
              acc = acc ++ new
              /\ total new = Amount lo - Amount lo
              /\ Forall (fun n => 0 <= n) new
              /\ length new = length (@nil Order)).
  { intros lo acc. exists []. rewrite app_nil_r.
    repeat split; [unfold total; simpl; lia | constructor]. }
  induction stream as [|r rest IH]; intros lo largest acc produced err Hlo H;
    simpl in H |- *.
  - simplify_eq. apply Hstop.
  - destruct r as [e | [m|]].
    + destruct (Is_EOF e); [simplify_eq; apply Hstop|].
      destruct (IsCanceled e); simplify_eq; apply Hstop.
    + destruct (DownOrder m) as [o|]; [|simplify_eq; apply Hstop].
      destruct (VerifyOrder c limit o (Amount lo)) eqn:Hv;
        [simplify_eq; apply Hstop|].
      apply Hver in Hv.
      rewrite sub64_exact in H by (unfold min_int64, max_int64 in *; lia).
      apply IH in H as (new & Hp & Ht & Hpos & Hlen); [|lia].
      exists ((Amount o - Amount lo) :: new).
      rewrite Hp, <- app_assoc. split; [reflexivity|].
      split; [unfold total in *; simpl; lia|].
      split; [constructor; [lia | assumption]|].
      simpl. rewrite Hlen. reflexivity.
    + simplify_eq. apply Hstop.
Qed.

Lemma Download_loop_bounded (c : Collab) (limit : OrderLimit)
    (stream : list (Recv PieceDownloadRequest)) :
  bounded c limit ->
  forall (largestOrder largest : Order) (acc produced : list Z)
         (err : option GoError),
    Amount largestOrder <= max_int64 ->
    Download_loop c limit largestOrder acc stream = (err, largest, produced) ->
    Amount largestOrder <= Amount largest <= max_int64.
Proof.
  intros Hver.
  induction stream as [|r rest IH]; intros lo largest acc produced err Hlo H;
    simpl in H.
  - simplify_eq. lia.
  - destruct r as [e | [m|]].
    + destruct (Is_EOF e); [simplify_eq; lia|].
      destruct (IsCanceled e); simplify_eq; lia.
    + destruct (DownOrder m) as [o|]; [|simplify_eq; lia].
      destruct (VerifyOrder c limit o (Amount lo)) eqn:Hv;
        [simplify_eq; lia|].
      apply Hver in Hv. apply IH in H; lia.
    + simplify_eq. lia.
Qed.

(** The largest order of the receiving loop after some of the results of
    the stream is not above the one after all of them. *)
Lemma Download_loop_take (c : Collab) (limit : OrderLimit)
    (stream : list (Recv PieceDownloadRequest)) :
  bounded c limit ->
  forall (n : nat) (largestOrder : Order) (acc : list Z),
    Amount largestOrder <= max_int64 ->
    Amount (Download_loop c limit largestOrder acc (take n stream)).1.2
    <= Amount (Download_loop c limit largestOrder acc stream).1.2.
Proof.
  intros Hver.
  induction stream as [|r rest IH]; intros n lo acc Hlo.
  - rewrite take_nil. lia.
  - destruct n as [|n].
    + destruct (Download_loop c limit lo acc (r :: rest))
        as [[err largest] produced] eqn:H.
      apply (Download_loop_bounded c limit _ Hver) in H; [|assumption].
      simpl. lia.
    + simpl. destruct r as [e | [m|]].
      * destruct (Is_EOF e); [simpl; lia|].
        destruct (IsCanceled e); simpl; lia.
      * destruct (DownOrder m) as [o|]; [|simpl; lia].
        destruct (VerifyOrder c limit o (Amount lo)) eqn:Hv; [simpl; lia|].
        apply IH. apply Hver in Hv. lia.
      * simpl. lia.
Qed.

Lemma Produce_failedWith (l : list Z) :
  forall throttle : Throttle,
    failedWith (foldl Produce throttle l) = failedWith throttle.
Proof.
  induction l as [|a l IH]; intros t; simpl; [reflexivity|].
  rewrite IH. unfold Produce.
  destruct (failedWith t) eqn:H; [exact H | reflexivity].
Qed.

Lemma Produce_available (l : list Z) :
  Forall (fun n => 0 <= n) l ->
  forall throttle : Throttle,
    failedWith throttle = None -> 0 <= available throttle ->
    available throttle + total l <= max_int64 ->
    available (foldl Produce throttle l) = available throttle + total l.
Proof.
  intros Hall. induction Hall as [|a l Ha Hl IH]; intros t Hf Ht Hmax.
  - unfold total. simpl. lia.
  - pose proof (total_nonneg l Hl) as Hpos.
    change (total (a :: l)) with (a + total l) in *.
    assert (Hp : Produce t a
                 = {| available := available t + a; failedWith := None |}).
    { unfold Produce. rewrite Hf.
      rewrite add64_exact by (unfold min_int64; lia). reflexivity. }
    simpl. rewrite Hp, IH; simpl; try reflexivity; lia.
Qed.

(** With such a verifier the throttle holds, whatever was received, the
    amount of the largest order verified by then. *)
Lemma Download_produces_available (c : Collab) (limit : OrderLimit)
    (stream : list (Recv PieceDownloadRequest)) (received : nat) :
  bounded c limit ->
  available (Download_produces c limit stream received)
  = Amount (Download_loop c limit Order_zero [] (take received stream)).1.2
  /\ 0 <= available (Download_produces c limit stream received) <= max_int64.
Proof.
  intros Hver. unfold Download_produces.
  destruct (Download_loop c limit Order_zero [] (take received stream))
    as [[err largest] produced] eqn:H.
  assert (Hb : Amount Order_zero <= Amount largest <= max_int64).
  { apply (Download_loop_bounded c limit _ Hver _ _ _ _ _) in H;
      [exact H | vm_compute; discriminate]. }
  apply (Download_loop_tokens c limit _ Hver) in H
    as (new & -> & Ht & Hpos & _); [|simpl; lia].
  change (Amount Order_zero) with 0 in *.
  assert (Ha : available (foldl Produce NewThrottle ([] ++ new))
               = Amount largest).
  { simpl. rewrite Produce_available; simpl; try lia; try assumption.
    reflexivity. }
  destruct (length ([] ++ new) =? received)%nat; simpl in *; rewrite Ha;
    lia.
Qed.

(** What the sending task has at its disposal never exceeds the amount of
    the largest order the receiving loop verifies. *)
Lemma Download_produces_paid (c : Collab) (limit : OrderLimit)
    (stream : list (Recv PieceDownloadRequest)) (received : nat) :
  bounded c limit ->
  0 <= available (Download_produces c limit stream received)
    <= Amount (Download_loop c limit Order_zero [] stream).1.2.
Proof.
  intros Hver.
  destruct (Download_produces_available c limit stream received Hver)
    as (Ha & Hb).
  pose proof (Download_loop_take c limit stream Hver received Order_zero [])
    as Hle.
  rewrite Ha in *. split; [lia|]. apply Hle. vm_compute. discriminate.
Qed.

Lemma take_arrive {M : Type} (ms : list M) (rest : list (Recv M)) :
  forall n : nat,
    (n <= length ms)%nat -> take n (arrive ms ++ rest) = arrive (take n ms).
Proof.
  unfold arrive. induction ms as [|m ms IH]; intros n Hn; simpl in *.
  - replace n with 0%nat by lia. reflexivity.
  - destruct n as [|n]; [reflexivity|]. simpl. f_equal. apply IH. lia.
Qed.

Lemma Download_run_take (c : Collab) (limit : OrderLimit)
    (ms : list PieceDownloadRequest) :
  forall (n : nat) (largest final : Order),
    Download_run c limit largest ms = Some final ->
    exists l, Download_run c limit largest (take n ms) = Some l.
Proof.
  induction ms as [|m ms IH]; intros n lo final H.
  - rewrite take_nil. exists final. exact H.
  - destruct n as [|n]; [exists lo; reflexivity|]. simpl in *.
    destruct (DownOrder m) as [o|]; [|discriminate].
    destruct (VerifyOrder c limit o (Amount lo)); [discriminate|].
    eapply IH. eassumption.
Qed.

Lemma Download_loop_arrive (c : Collab) (limit : OrderLimit)
    (ms : list PieceDownloadRequest) :
  forall (largest final : Order) (acc : list Z),
    Download_run c limit largest ms = Some final ->
    exists new : list Z,
      Download_loop c limit largest acc (arrive ms)
      = (None, final, acc ++ new)
      /\ length new = length ms.
Proof.
  induction ms as [|m ms IH]; intros lo final acc H; simpl in *.
  - simplify_eq. exists []. rewrite app_nil_r. split; reflexivity.
  - destruct (DownOrder m) as [o|]; [|discriminate].
    destruct (VerifyOrder c limit o (Amount lo)); [discriminate|].
    destruct (IH _ _ (acc ++ [sub64 (Amount o) (Amount lo)]) H)
      as (new & Hl & Hn).
    exists (sub64 (Amount o) (Amount lo) :: new).
    split; [|simpl; rewrite Hn; reflexivity].
    etransitivity; [exact Hl|]. rewrite <- app_assoc. reflexivity.
Qed.

(** While the receiving loop is receiving accepted orders the throttle is
    not failed, and after the last of them it holds that order's amount. *)
Lemma Download_produces_running (c : Collab) (limit : OrderLimit)
    (ms : list PieceDownloadRequest)
    (rest : list (Recv PieceDownloadRequest)) (largest : Order) :
  bounded c limit ->
  Download_run c limit Order_zero ms = Some largest ->
  (forall n : nat,
     (n <= length ms)%nat ->
     failedWith (Download_produces c limit (arrive ms ++ rest) n) = None
     /\ 0 <= available (Download_produces c limit (arrive ms ++ rest) n)
          <= max_int64)
  /\ available (Download_produces c limit (arrive ms ++ rest) (length ms))
     = Amount largest.
Proof.
  intros Hver Hrun. split.
  - intros n Hn. split; [|apply Download_produces_available; assumption].
    unfold Download_produces. rewrite take_arrive by assumption.
    destruct (Download_run_take c limit ms n _ _ Hrun) as [l Hl].
    destruct (Download_loop_arrive c limit _ _ _ [] Hl) as (new & -> & Hlen).
    rewrite length_take in Hlen. simpl.
    replace (length new =? n)%nat with true
      by (symmetry; apply Nat.eqb_eq; lia).
    apply Produce_failedWith.
  - rewrite (proj1 (Download_produces_available c limit _ _ Hver)).
    rewrite take_arrive, take_ge by lia.
    destruct (Download_loop_arrive c limit _ _ _ [] Hrun) as (new & -> & _).
    reflexivity.
Qed.

Lemma ConsumeOrWait_grants (throttle : Throttle) (maxAmount chunkSize : Z) :
  ConsumeOrWait throttle maxAmount = Some (inr chunkSize) ->
  failedWith throttle = None /\ 0 < available throttle
  /\ chunkSize = Z.min (available throttle) maxAmount.
Proof.
  unfold ConsumeOrWait. intros H.
  destruct (failedWith throttle); [discriminate|].
  destruct (Z.ltb_spec 0 (available throttle)); [|discriminate].
  simplify_eq. rewrite min_spec. auto.
Qed.

(** ** The sending loop of a download *)

Lemma Download_send_cons (produces : nat -> Throttle) (pieceData : bytes)
    (currentOffset unsentAmount taken : Z) (received : nat) (w : World)
    (t : Turn) (rest : list Turn) :
  Download_send produces pieceData currentOffset unsentAmount taken received
    w (t :: rest)
  = if 0 <? unsentAmount then
      match ConsumeOrWait
              (consumed taken (produces (received + Received t)%nat))
              (min unsentAmount maximumChunkSize) with
      | None =>
          Download_send produces pieceData currentOffset unsentAmount taken
            (received + Received t) w rest
      | Some (inl _) => (Returned None, w)
      | Some (inr chunkSize) =>
          match slice pieceData currentOffset
                  (add64 currentOffset chunkSize) with
          | None => (Panicked, w)
          | Some data =>
              match SendFails t with
              | Some e =>
                  if Is_EOF e then (Returned None, w)
                  else (Returned (Some (wrapped Internal e)), w)
              | None =>
                  Download_send produces pieceData
                    (add64 currentOffset chunkSize)
                    (sub64 unsentAmount chunkSize) (add64 taken chunkSize)
                    (received + Received t)
                    (send (RespChunk currentOffset data) w) rest
              end
          end
      end
    else (Returned None, w).
Proof. reflexivity. Qed.

Lemma Download_send_done (produces : nat -> Throttle) (pieceData : bytes)
    (currentOffset unsentAmount taken : Z) (received : nat) (w : World)
    (turns : list Turn) :
  unsentAmount <= 0 ->
  Download_send produces pieceData currentOffset unsentAmount taken received
    w turns
  = (Returned None, w).
Proof.
  intros H. destruct turns; simpl;
    destruct (Z.ltb_spec 0 unsentAmount); try lia; reflexivity.
Qed.

Lemma receivedIn_cons (t : Turn) (turns : list Turn) :
  receivedIn (t :: turns) = (Received t + receivedIn turns)%nat.
Proof. reflexivity. Qed.

Lemma Download_send_grows (produces : nat -> Throttle) (pieceData : bytes)
    (turns : list Turn) :
  forall (currentOffset unsentAmount taken : Z) (received : nat)
         (w w' : World) (out : Outcome),
    Download_send produces pieceData currentOffset unsentAmount taken
      received w turns = (out, w') ->
    exists new : list PieceDownloadResponse, sent w' = sent w ++ new.
Proof.
  induction turns as [|t rest IH]; intros off un tk rc w w' out H.
  - simpl in H. exists [].
    destruct (0 <? un); simplify_eq; rewrite app_nil_r; reflexivity.
  - rewrite Download_send_cons in H.
    repeat case_match; simplify_eq;
      try (exists []; rewrite app_nil_r; reflexivity);
      try (apply IH in H; exact H).
    apply IH in H as [new Hn]. eexists. rewrite Hn. simpl.
    rewrite <- app_assoc. reflexivity.
Qed.

(** However the sending loop ends, the chunks it has sent are consecutive
    bytes of the piece from the first offset on. *)
Lemma Download_send_prefix (produces : nat -> Throttle) (pieceData : bytes)
    (turns : list Turn) :
  forall (currentOffset unsentAmount taken : Z) (received : nat)
         (w w' : World) (out : Outcome),
    0 <= currentOffset ->
    Download_send produces pieceData currentOffset unsentAmount taken
      received w turns = (out, w') ->
    exists (new : list PieceDownloadResponse) (k : nat),
      sent w' = sent w ++ new
      /\ sentBytes new = take k (drop (Z.to_nat currentOffset) pieceData).
Proof.
  assert (Hstay : forall (w : World) (off : Z),
            exists (new : list PieceDownloadResponse) (k : nat),
              sent w = sent w ++ new
              /\ sentBytes new = take k (drop (Z.to_nat off) pieceData)).
  { intros w off. exists [], 0%nat. rewrite app_nil_r. split; reflexivity. }
  induction turns as [|t rest IH]; intros off un tk rc w w' out Hoff H.
  - simpl in H. destruct (0 <? un); simplify_eq; apply Hstay.
  - rewrite Download_send_cons in H.
    destruct (0 <? un); [|simplify_eq; apply Hstay].
    destruct (ConsumeOrWait _ _) as [[e|chunkSize]|];
      [simplify_eq; apply Hstay | | apply IH in H; assumption].
    destruct (slice pieceData off (add64 off chunkSize)) as [data|] eqn:Hs;
      [|simplify_eq; apply Hstay].
    apply slice_Some in Hs as ((_ & Hle) & _ & ->).
    destruct (SendFails t) as [e|].
    { destruct (Is_EOF e); simplify_eq; apply Hstay. }
    apply IH in H as (new & k & Hsent & Hbytes); [|lia].
    exists (RespChunk off
              (take (Z.to_nat (add64 off chunkSize - off))
                 (drop (Z.to_nat off) pieceData)) :: new),
           (Z.to_nat (add64 off chunkSize - off) + k)%nat.
    split.
    + rewrite Hsent. simpl. rewrite <- app_assoc. reflexivity.
    + rewrite sentBytes_cons, Hbytes.
      rewrite <- take_take_drop, drop_drop.
      replace (Z.to_nat off + Z.to_nat (add64 off chunkSize - off))%nat
        with (Z.to_nat (add64 off chunkSize)) by lia.
      reflexivity.
Qed.

(** The sending loop never sends more bytes than the throttle was given
    tokens for. *)
Lemma Download_send_paid (produces : nat -> Throttle) (pieceData : bytes)
    (paid : Z) (turns : list Turn) :
  paid <= max_int64 ->
  (forall n : nat, 0 <= available (produces n) <= paid) ->
  forall (currentOffset unsentAmount taken : Z) (received : nat)
         (w w' : World) (out : Outcome),
    0 <= taken <= paid ->
    Download_send produces pieceData currentOffset unsentAmount taken
      received w turns = (out, w') ->
    exists new : list PieceDownloadResponse,
      sent w' = sent w ++ new /\ taken + len64 (sentBytes new) <= paid.
Proof.
  intros Hmax Hp.
  assert (Hstay : forall (w : World) (tk : Z),
            0 <= tk <= paid ->
            exists new : list PieceDownloadResponse,
              sent w = sent w ++ new /\ tk + len64 (sentBytes new) <= paid).
  { intros w tk Htk. exists []. rewrite app_nil_r. split; [reflexivity|].
    change (len64 (sentBytes [])) with 0. lia. }
  induction turns as [|t rest IH]; intros off un tk rc w w' out Htk H.
  - simpl in H. destruct (0 <? un); simplify_eq; apply Hstay; assumption.
  - rewrite Download_send_cons in H.
    destruct (Z.ltb_spec 0 un) as [Hpos|];
      [|simplify_eq; apply Hstay; assumption].
    destruct (ConsumeOrWait _ _) as [[e|g]|] eqn:Hc;
      [simplify_eq; apply Hstay; assumption | | apply IH in H; assumption].
    apply ConsumeOrWait_grants in Hc as (_ & Hav & Hg).
    cbn [consumed available] in Hav, Hg.
    pose proof (Hp (rc + Received t)%nat) as Hb.
    rewrite sub64_exact in Hav, Hg
      by (unfold min_int64, max_int64 in *; lia).
    rewrite min_spec in Hg.
    destruct (slice pieceData off (add64 off g)) as [data|] eqn:Hs;
      [|simplify_eq; apply Hstay; assumption].
    apply slice_granted in Hs as (_ & _ & _ & _ & Hlen);
      [|unfold maximumChunkSize, max_int64 in *; lia].
    destruct (SendFails t) as [e|].
    { destruct (Is_EOF e); simplify_eq; apply Hstay; assumption. }
    rewrite (add64_exact tk g) in H
      by (unfold maximumChunkSize, min_int64, max_int64 in *; lia).
    apply IH in H as (new & Hsent & Hle);
      [|unfold maximumChunkSize in *; lia].
    exists (RespChunk off data :: new). split.
    + rewrite Hsent. simpl. rewrite <- app_assoc. reflexivity.
    + rewrite sentBytes_cons, len64_app. lia.
Qed.

(** While the receiving loop is running and the sends succeed, the sending
    loop goes on, and has sent consecutive bytes of the piece. *)
Lemma Download_send_before (produces : nat -> Throttle) (pieceData : bytes)
    (running : nat) (post : list Turn) :
  len64 pieceData <= max_int64 ->
  (forall n : nat,
     (n <= running)%nat ->
     failedWith (produces n) = None
     /\ 0 <= available (produces n) <= max_int64) ->
  forall (pre : list Turn) (currentOffset unsentAmount taken : Z)
         (received : nat) (w : World),
    0 <= currentOffset -> 0 <= unsentAmount ->
    currentOffset + unsentAmount <= len64 pieceData ->
    0 <= taken -> taken + unsentAmount <= max_int64 ->
    (received + receivedIn pre <= running)%nat ->
    Forall (fun t => SendFails t = None) pre ->
    exists (k : Z) (new : list PieceDownloadResponse),
      0 <= k <= unsentAmount
      /\ Download_send produces pieceData currentOffset unsentAmount taken
           received w (pre ++ post)
         = Download_send produces pieceData (currentOffset + k)
             (unsentAmount - k) (taken + k) (received + receivedIn pre)
             (send_all new w) post
      /\ sentBytes new
         = take (Z.to_nat k) (drop (Z.to_nat currentOffset) pieceData).
Proof.
  intros Hfit Hrun.
  induction pre as [|t pre IH];
    intros off un tk rc w Hoff Hun Hend Htk Hmax Hrc Hsend.
  - exists 0, []. split; [lia|]. simpl.
    rewrite !Z.add_0_r, Z.sub_0_r, Nat.add_0_r. split; reflexivity.
  - apply Forall_cons in Hsend as [Ht Hsend].
    rewrite receivedIn_cons in *. rewrite Nat.add_assoc in *.
    change ((t :: pre) ++ post) with (t :: (pre ++ post)).
    rewrite Download_send_cons.
    destruct (Z.ltb_spec 0 un) as [Hpos|Hzero].
    2: { exists 0, []. split; [lia|]. split; [|reflexivity].
         rewrite Download_send_done by lia. reflexivity. }
    set (r1 := (rc + Received t)%nat) in *.
    destruct (Hrun r1) as (Halive & Hav); [lia|].
    unfold ConsumeOrWait, consumed. cbn [failedWith available].
    rewrite Halive.
    rewrite (sub64_exact (available (produces r1)) tk)
      by (unfold min_int64, max_int64 in *; lia).
    destruct (Z.ltb_spec 0 (available (produces r1) - tk)) as [Hgrant|Hwait].
    2: { destruct (IH off un tk r1 w) as (k & new & Hk & Heq & Hbytes);
           try assumption.
         exists k, new. split; [assumption|]. split; assumption. }
    rewrite !min_spec.
    set (g := Z.min (available (produces r1) - tk)
                (Z.min un maximumChunkSize)).
    assert (Hg : 1 <= g <= un) by (unfold g, maximumChunkSize; lia).
    rewrite (add64_exact off g), (sub64_exact un g), (add64_exact tk g)
      by (unfold min_int64, max_int64 in *; lia).
    unfold slice.
    destruct (Z.leb_spec 0 off); [|lia].
    destruct (Z.leb_spec off (off + g)); [|lia].
    destruct (Z.leb_spec (off + g) (len64 pieceData)); [|lia].
    cbn [andb]. rewrite Ht.
    destruct (IH (off + g) (un - g) (tk + g) r1
                (send (RespChunk off
                         (take (Z.to_nat (off + g - off))
                            (drop (Z.to_nat off) pieceData))) w))
      as (k & new & Hk & Heq & Hbytes); try lia; try assumption.
    exists (g + k),
           (RespChunk off
              (take (Z.to_nat (off + g - off))
                 (drop (Z.to_nat off) pieceData)) :: new).
    split; [lia|]. split.
    + rewrite Heq.
      replace (off + (g + k)) with (off + g + k) by lia.
      replace (un - (g + k)) with (un - g - k) by lia.
      replace (tk + (g + k)) with (tk + g + k) by lia.
      reflexivity.
    + rewrite sentBytes_cons, Hbytes.
      replace (off + g - off) with g by lia.
      replace (Z.to_nat (off + g)) with (Z.to_nat off + Z.to_nat g)%nat
        by lia.
      rewrite <- drop_drop, take_take_drop. f_equal. lia.
Qed.

(** Once the receiving loop has verified orders for all that is left to
    send and waits for another, the sending loop sends it all, given a
    turn for every byte. *)
Lemma Download_send_rest (produces : nat -> Throttle) (pieceData : bytes)
    (running : nat) :
  len64 pieceData <= max_int64 ->
  failedWith (produces running) = None ->
  0 <= available (produces running) <= max_int64 ->
  forall (post : list Turn) (currentOffset unsentAmount taken : Z)
         (received : nat) (w : World),
    0 <= currentOffset -> 0 <= unsentAmount ->
    currentOffset + unsentAmount <= len64 pieceData ->
    0 <= taken -> taken + unsentAmount <= available (produces running) ->
    match post with
    | [] => True
    | t :: rest =>
        (received + Received t)%nat = running
        /\ Forall (fun t => Received t = 0%nat) rest
    end ->
    Forall (fun t => SendFails t = None) post ->
    (Z.to_nat unsentAmount <= length post)%nat ->
    exists new : list PieceDownloadResponse,
      Download_send produces pieceData currentOffset unsentAmount taken
        received w post
      = (Returned None, send_all new w)
      /\ sentBytes new
         = take (Z.to_nat unsentAmount)
             (drop (Z.to_nat currentOffset) pieceData).
Proof.
  intros Hfit Halive Hav.
  induction post as [|t post IH];
    intros off un tk rc w Hoff Hun Hend Htk Hpaid Hrc Hsend Hturns.
  - simpl in Hturns. exists []. replace un with 0 by lia.
    split; reflexivity.
  - apply Forall_cons in Hsend as [Ht Hsend]. destruct Hrc as [Hrc Hlater].
    rewrite Download_send_cons.
    destruct (Z.ltb_spec 0 un) as [Hpos|Hzero].
    2: { exists []. replace un with 0 by lia. split; reflexivity. }
    rewrite Hrc.
    unfold ConsumeOrWait, consumed. cbn [failedWith available].
    rewrite Halive.
    rewrite (sub64_exact (available (produces running)) tk)
      by (unfold min_int64, max_int64 in *; lia).
    destruct (Z.ltb_spec 0 (available (produces running) - tk)); [|lia].
    rewrite !min_spec.
    set (g := Z.min (available (produces running) - tk)
                (Z.min un maximumChunkSize)).
    assert (Hg : 1 <= g <= un) by (unfold g, maximumChunkSize; lia).
    rewrite (add64_exact off g), (sub64_exact un g), (add64_exact tk g)
      by (unfold min_int64, max_int64 in *; lia).
    unfold slice.
    destruct (Z.leb_spec 0 off); [|lia].
    destruct (Z.leb_spec off (off + g)); [|lia].
    destruct (Z.leb_spec (off + g) (len64 pieceData)); [|lia].
    cbn [andb]. rewrite Ht.
    destruct (IH (off + g) (un - g) (tk + g) running
                (send (RespChunk off
                         (take (Z.to_nat (off + g - off))
                            (drop (Z.to_nat off) pieceData))) w))
      as (new & Hrun & Hbytes); try lia; try assumption.
    { destruct post as [|t' post']; [exact I|].
      apply Forall_cons in Hlater as [Ht' Hlater]. split; [lia | assumption]. }
    { simpl in Hturns. lia. }
    exists (RespChunk off
              (take (Z.to_nat (off + g - off))
                 (drop (Z.to_nat off) pieceData)) :: new).
    split; [rewrite Hrun; reflexivity|].
    rewrite sentBytes_cons, Hbytes.
    replace (off + g - off) with g by lia.
    replace (Z.to_nat (off + g)) with (Z.to_nat off + Z.to_nat g)%nat by lia.
    rewrite <- drop_drop, take_take_drop. f_equal. lia.
Qed.

(** When the orders of [ms] are accepted and pay for what is to be sent,
    the sends succeed, and the uplink keeps the stream open after its last
    order until the sending loop has had a turn for every byte, the loop
    sends all it was asked for: whatever it has sent while the orders were
    coming in ([pre]), it sends the rest after the last of them
    ([post]). *)
Lemma Download_send_all (c : Collab) (limit : OrderLimit)
    (ms : list PieceDownloadRequest)
    (rest : list (Recv PieceDownloadRequest)) (largest : Order)
    (pieceData : bytes) (pre post : list Turn)
    (currentOffset unsentAmount : Z) (w : World) :
  bounded c limit ->
  Download_run c limit Order_zero ms = Some largest ->
  0 <= currentOffset -> 0 <= unsentAmount ->
  currentOffset + unsentAmount <= len64 pieceData ->
  len64 pieceData <= max_int64 ->
  unsentAmount <= Amount largest ->
  Forall (fun t => SendFails t = None) pre ->
  (receivedIn pre <= length ms)%nat ->
  sendsAfter (length ms - receivedIn pre) post ->
  (Z.to_nat unsentAmount <= length post)%nat ->
  exists new : list PieceDownloadResponse,
    Download_send (Download_produces c limit (arrive ms ++ rest)) pieceData
      currentOffset unsentAmount 0 0 w (pre ++ post)
    = (Returned None, send_all new w)
    /\ sentBytes new
       = take (Z.to_nat unsentAmount)
           (drop (Z.to_nat currentOffset) pieceData).
Proof.
  intros Hver Hrun Hoff Hun Hend Hfit Hpaid Hpre Hrc [Hpost Hsend] Hturns.
  destruct (Download_produces_running c limit ms rest largest Hver Hrun)
    as [Halive Hfinal].
  destruct (Download_send_before _ pieceData (length ms) post Hfit Halive
              pre currentOffset unsentAmount 0 0%nat w)
    as (k & new1 & Hk & Heq & Hbytes1); try assumption; try lia.
  destruct (Download_send_rest _ pieceData (length ms) Hfit
              (proj1 (Halive (length ms) (Nat.le_refl _)))
              (proj2 (Halive (length ms) (Nat.le_refl _)))
              post (currentOffset + k) (unsentAmount - k) (0 + k)
              (0 + receivedIn pre)%nat (send_all new1 w))
    as (new2 & Hrest & Hbytes2); try assumption; try lia.
  { destruct post as [|t post']; [exact I|]. destruct Hpost as [Ht Hlater].
    split; [lia | assumption]. }
  exists (new1 ++ new2). split.
  - rewrite Heq, Hrest, send_all_app. reflexivity.
  - rewrite sentBytes_app, Hbytes1, Hbytes2.
    replace (Z.to_nat (currentOffset + k))
      with (Z.to_nat currentOffset + Z.to_nat k)%nat by lia.
    rewrite <- drop_drop, take_take_drop. f_equal. lia.
Qed.

(** What a download sends: nothing of the piece, or, after the leading
    frame of a repair, what its sending loop sends. *)
Lemma Download_reading_sends (c : Collab) (limit : OrderLimit)
    (chunk : DownloadChunk) (p : Piece) (w w' : World)
    (stream : list (Recv PieceDownloadRequest)) (turns : list Turn)
    (out : Outcome) :
  Download_reading c limit chunk p w stream turns = (out, w') ->
  exists frame new : list PieceDownloadResponse,
    sent w' = sent w ++ frame ++ new
    /\ sentBytes frame = []
    /\ (new = []
        \/ exists (w1 w2 : World) (out2 : Outcome),
             Download_send (Download_produces c limit stream)
               (PieceContent p) (ChunkOffset chunk) (ChunkSize chunk) 0 0
               w1 turns = (out2, w2)
             /\ sent w2 = sent w1 ++ new).
Proof.
  intros H. unfold Download_reading in H.
  assert (Hgo : forall (w1 : World) (frame : list PieceDownloadResponse),
            sent w1 = sent w ++ frame ->
            sentBytes frame = [] ->
            (if ReaderSize p <? add64 (ChunkOffset chunk) (ChunkSize chunk)
             then (Returned (Some (status InvalidArgument
                "requested more data than available, requesting=%v available=%v"
                [add64 (ChunkOffset chunk) (ChunkSize chunk); ReaderSize p])),
                   w1)
             else match Download_sender c limit p chunk w1 stream turns with
                  | (Panicked, w2) => (Panicked, w2)
                  | (Returned sendErr, w2) =>
                      let '(recvErr, _, w3) :=
                        Download_receiver c limit w2 stream in
                      (Returned (Wrap Internal (Combine sendErr recvErr)), w3)
                  end) = (out, w') ->
            exists frame new : list PieceDownloadResponse,
              sent w' = sent w ++ frame ++ new
              /\ sentBytes frame = []
              /\ (new = []
                  \/ exists (w1 w2 : World) (out2 : Outcome),
                       Download_send (Download_produces c limit stream)
                         (PieceContent p) (ChunkOffset chunk)
                         (ChunkSize chunk) 0 0 w1 turns = (out2, w2)
                       /\ sent w2 = sent w1 ++ new)).
  { intros w1 frame Hw1 Hframe H1.
    destruct (ReaderSize p <? add64 (ChunkOffset chunk) (ChunkSize chunk)).
    { simplify_eq. exists frame, []. rewrite app_nil_r. auto. }
    destruct (Download_sender c limit p chunk w1 stream turns)
      as [out2 w2] eqn:Hs.
    assert (Hsent : exists new : list PieceDownloadResponse,
              sent w2 = sent w1 ++ new
              /\ (new = []
                  \/ exists (w1 w2 : World) (out2 : Outcome),
                       Download_send (Download_produces c limit stream)
                         (PieceContent p) (ChunkOffset chunk)
                         (ChunkSize chunk) 0 0 w1 turns = (out2, w2)
                       /\ sent w2 = sent w1 ++ new)).
    { unfold Download_sender in Hs. destruct (ReadFails c).
      - simplify_eq. exists []. rewrite app_nil_r. auto.
      - destruct (Download_send_grows _ _ _ _ _ _ _ _ _ _ Hs) as [new Hnew].
        exists new. split; [exact Hnew|].
        right. exists w1, w2, out2. split; assumption. }
    destruct Hsent as (new & Hsent & Hnew).
    exists frame, new. split; [|split; assumption].
    destruct out2 as [sendErr|].
    - destruct (Download_receiver c limit w2 stream) as [[recvErr l] w3]
        eqn:Hr.
      apply Download_receiver_persist in Hr. simplify_eq.
      rewrite (proj1 (proj2 (proj2 (proj2 (saveOrder_frame _ _ _ _))))).
      rewrite Hsent, Hw1, <- app_assoc. reflexivity.
    - simplify_eq. rewrite Hsent, Hw1, <- app_assoc. reflexivity. }
  assert (Hfail : forall e : GoError,
            exists frame new : list PieceDownloadResponse,
              sent w = sent w ++ frame ++ new
              /\ sentBytes frame = []
              /\ (new = []
                  \/ exists (w1 w2 : World) (out2 : Outcome),
                       Download_send (Download_produces c limit stream)
                         (PieceContent p) (ChunkOffset chunk)
                         (ChunkSize chunk) 0 0 w1 turns = (out2, w2)
                       /\ sent w2 = sent w1 ++ new)).
  { intros _. exists [], []. rewrite app_nil_r. auto. }
  destruct (bool_decide (Action limit = GET_REPAIR)).
  - destruct (GetHashAndLimitFails c) as [e|];
      [simplify_eq; apply (Hfail e)|].
    destruct (GetHashAndLimitWithWiscKey limit p) as [pieceHash orderLimit].
    destruct (SendHashFails c) as [e|]; [simplify_eq; apply (Hfail e)|].
    apply (Hgo _ [RespHashAndLimit pieceHash orderLimit]) in H;
      [exact H | reflexivity | reflexivity].
  - apply (Hgo _ []) in H;
      [exact H | rewrite app_nil_r; reflexivity | reflexivity].
Qed.

Lemma Download_sends (c : Collab) (w : World) (first : PieceDownloadRequest)
    (limit : OrderLimit) (chunk : DownloadChunk)
    (stream : list (Recv PieceDownloadRequest)) (turns : list Turn) :
  DownLimit first = Some limit ->
  DownChunk first = Some chunk ->
  sentBytes (responsesOf w (Download c w (inr (Some first) :: stream) turns).2)
  = []
  \/ exists (p : Piece) (w1 w2 : World) (out2 : Outcome)
            (new : list PieceDownloadResponse),
       blobs w !! (SatelliteId limit, PieceId limit) = Some p
       /\ Download_send (Download_produces c limit stream) (PieceContent p)
            (ChunkOffset chunk) (ChunkSize chunk) 0 0 w1 turns = (out2, w2)
       /\ sent w2 = sent w1 ++ new
       /\ sentBytes
            (responsesOf w
               (Download c w (inr (Some first) :: stream) turns).2)
          = sentBytes new.
Proof.
  intros Hl Hc.
  assert (Hstay : sentBytes (drop (length (sent w)) (sent w)) = []).
  { rewrite drop_all. reflexivity. }
  unfold responsesOf, Download, Download_counted. rewrite Hl, Hc.
  destruct (negb (isGetAction (Action limit))); [left; exact Hstay|].
  destruct (Limit limit <? ChunkSize chunk); [left; exact Hstay|].
  destruct (verifyOrderLimit c limit); [left; exact Hstay|].
  unfold Download_metered, ReaderWithWiscKey.
  destruct (ReaderFails c); [left; exact Hstay|].
  cbn [blobs emit setLive].
  destruct (blobs w !! (SatelliteId limit, PieceId limit)) as [p|] eqn:Hb;
    [|left; exact Hstay].
  destruct (Download_reading c limit chunk p _ stream turns)
    as [out w1] eqn:Hr.
  apply Download_reading_sends in Hr
    as (frame & new & Hsent & Hframe & Hnew).
  cbn [sent emit setLive] in Hsent.
  assert (Hbytes : sentBytes (drop (length (sent w)) (sent w1))
                   = sentBytes new).
  { rewrite Hsent, drop_app_length, sentBytes_app, Hframe. reflexivity. }
  destruct Hnew as [-> | (w2 & w3 & out2 & Hsend & Hw3)].
  - left. destruct out; cbn [snd sent emit setLive]; exact Hbytes.
  - right. exists p, w2, w3, out2, new.
    split; [reflexivity|]. split; [exact Hsend|]. split; [exact Hw3|].
    destruct out; cbn [snd sent emit setLive]; exact Hbytes.
Qed.

Lemma Download_paid (c : Collab) (w : World) (first : PieceDownloadRequest)
    (limit : OrderLimit) (chunk : DownloadChunk)
    (stream : list (Recv PieceDownloadRequest)) (turns : list Turn) :
  DownLimit first = Some limit ->
  DownChunk first = Some chunk ->
  bounded c limit ->
  len64 (sentBytes
           (responsesOf w
              (Download c w (inr (Some first) :: stream) turns).2))
  <= Amount (Download_loop c limit Order_zero [] stream).1.2.
Proof.
  intros Hl Hc Hver.
  pose proof (Download_produces_paid c limit stream 0 Hver) as Hpos.
  destruct (Download_sends c w first limit chunk stream turns Hl Hc)
    as [-> | (p & w1 & w2 & out2 & new & _ & Hsend & Hw2 & ->)].
  - change (len64 []) with 0. lia.
  - apply (Download_send_paid _ _
             (Amount (Download_loop c limit Order_zero [] stream).1.2))
      in Hsend as (new' & Hnew' & Hle).
    + rewrite Hw2 in Hnew'. apply app_inv_head in Hnew'. subst new'. lia.
    + destruct (Download_loop c limit Order_zero [] stream)
        as [[err largest] produced] eqn:Hloop.
      apply (Download_loop_bounded c limit _ Hver) in Hloop;
        [simpl; lia | vm_compute; discriminate].
    + intros n. apply Download_produces_paid. exact Hver.
    + lia.
Qed.

(** ** Upload, then download *)

(** C7, as amended.  After a successful upload under a limit, a download of
    the same (satellite, piece) that asks for the full piece from offset 0
    delivers, however it ends, a prefix of the concatenation of the
    uploaded chunk payloads.  It delivers all of it when the download
    passes its checks, the orders the uplink sends are accepted and reach
    the size of the piece, the uplink keeps the stream open after the last
    of them until the sending task has had a turn for every byte, and the
    sends succeed; [pre] are the turns the sending task takes while the
    orders come in, [post] those after the last of them. *)
Theorem upload_then_download (cfg : Config) (cu cd : Collab) (w0 w1 : World)
    (ufirst : PieceUploadRequest) (ulimit : OrderLimit)
    (ustream : list (Recv PieceUploadRequest))
    (dfirst : PieceDownloadRequest) (dlimit : OrderLimit)
    (chunk : DownloadChunk)
    (dstream : list (Recv PieceDownloadRequest)) (turns : list Turn) :
  UpLimit ufirst = Some ulimit ->
  Upload cfg cu w0 (inr (Some ufirst) :: ustream) = (None, w1) ->
  DownLimit dfirst = Some dlimit ->
  SatelliteId dlimit = SatelliteId ulimit ->
  PieceId dlimit = PieceId ulimit ->
  DownChunk dfirst = Some chunk ->
  ChunkOffset chunk = 0 ->
  ChunkSize chunk = len64 (concat (uploadedChunks ustream)) ->
  (exists k : nat,
     sentBytes
       (responsesOf w1
          (Download cd w1 (inr (Some dfirst) :: dstream) turns).2)
     = take k (concat (uploadedChunks ustream)))
  /\ (forall (ms : list PieceDownloadRequest)
             (rest : list (Recv PieceDownloadRequest)) (largest : Order)
             (pre post : list Turn),
        dstream = arrive ms ++ rest ->
        turns = pre ++ post ->
        served cd dlimit chunk ->
        bounded cd dlimit ->
        Download_run cd dlimit Order_zero ms = Some largest ->
        ChunkSize chunk <= Amount largest ->
        Forall (fun t => SendFails t = None) pre ->
        (receivedIn pre <= length ms)%nat ->
        sendsAfter (length ms - receivedIn pre) post ->
        (length (concat (uploadedChunks ustream)) <= length post)%nat ->
        sentBytes
          (responsesOf w1
             (Download cd w1 (inr (Some dfirst) :: dstream) turns).2)
        = concat (uploadedChunks ustream)).
Proof.
  intros Hu Hup Hd Hsat Hpiece Hc Hoff Hsize.
  destruct (Upload_stores cfg cu w0 w1 ufirst ulimit ustream Hu Hup)
    as [header Hb].
  rewrite <- Hsat, <- Hpiece in Hb. split.
  - destruct (Download_sends cd w1 dfirst dlimit chunk dstream turns Hd Hc)
      as [Hnone | (p & w2 & w3 & out2 & new & Hp & Hsend & Hw3 & Hbytes)].
    + exists 0%nat. rewrite Hnone. reflexivity.
    + rewrite Hb in Hp. injection Hp as <-.
      apply Download_send_prefix in Hsend as (new' & k & Hnew' & Hk); [|lia].
      rewrite Hw3 in Hnew'. apply app_inv_head in Hnew'. subst new'.
      exists k. rewrite Hbytes, Hk, Hoff. reflexivity.
  - intros ms rest largest pre post -> ->
      (Ha & Hle & Hv & Hr & Hread & Hrep) Hver Hrun Hpaid Hpre Hrc Hpost
      Hturns.
    set (p := {| PieceHeaderOf := header;
                 PieceContent := concat (uploadedChunks ustream) |}) in *.
    assert (Hfit : len64 (concat (uploadedChunks ustream)) <= max_int64).
    { destruct (Download_produces_running cd dlimit ms rest largest Hver Hrun)
        as [Halive Hfinal].
      destruct (Halive (length ms)) as (_ & Hbound); lia. }
    assert (Hreads : reads cd w1 dlimit chunk p).
    { unfold reads. repeat apply conj; try assumption.
      rewrite Hoff, Hsize.
      rewrite add64_exact
        by (pose proof (len64_nonneg (concat (uploadedChunks ustream)));
            unfold min_int64; lia).
      unfold ReaderSize. simpl. lia. }
    destruct (Download_send_all cd dlimit ms rest largest (PieceContent p)
                pre post (ChunkOffset chunk) (ChunkSize chunk)
                (Download_entered cd dlimit p w1) Hver Hrun)
      as (new & Hrunall & Hbytes); try assumption.
    { lia. }
    { rewrite Hsize. apply len64_nonneg. }
    { rewrite Hoff, Hsize. simpl. lia. }
    { rewrite Hsize. unfold len64. lia. }
    assert (Hsender : Download_sender cd dlimit p chunk
                        (Download_entered cd dlimit p w1)
                        (arrive ms ++ rest) (pre ++ post)
                      = (Returned None,
                         send_all new (Download_entered cd dlimit p w1))).
    { unfold Download_sender. rewrite Hread. exact Hrunall. }
    destruct (Download_reaches_tasks cd w1 dfirst dlimit chunk p
                (arrive ms ++ rest) (pre ++ post) None _ Hd Hc Hreads
                Hsender)
      as (recvErr & largest' & w3 & Hrecv & _ & _ & _ & Hsent & _).
    apply Download_receiver_persist in Hrecv. subst w3.
    rewrite (proj1 (proj2 (proj2 (proj2 (saveOrder_frame _ _ _ _)))))
      in Hsent.
    rewrite send_all_sent in Hsent.
    unfold responsesOf. rewrite Hsent.
    assert (Hentered : exists lead,
               sent (Download_entered cd dlimit p w1) = sent w1 ++ lead
               /\ sentBytes lead = []).
    { unfold Download_entered.
      destruct (bool_decide (Action dlimit = GET_REPAIR)).
      - eexists. split; reflexivity.
      - exists []. rewrite app_nil_r. split; reflexivity. }
    destruct Hentered as (lead & -> & Hlead).
    rewrite <- app_assoc, drop_app_length, sentBytes_app, Hlead, Hbytes.
    rewrite Hoff, Hsize. simpl. unfold len64.
    rewrite Nat2Z.id. apply take_ge. lia.
Qed.

Lemma upload_then_download_witness :
  sentBytes
    (responsesOf
       (Upload unlimited quiet idle
          (inr (Some (firstOf (limitFor PUT 10))) :: uploadThree)).2
       (Download quiet
          (Upload unlimited quiet idle
             (inr (Some (firstOf (limitFor PUT 10))) :: uploadThree)).2
          [inr (Some (firstDown (limitFor GET 10) 0 3));
           inr (Some (downOrder 1)); inr (Some (downOrder 3))]
          [turnAfter 1; turnAfter 1; turnAfter 0; turnAfter 0]).2)
  = concat (uploadedChunks uploadThree).
Proof.
  refine (proj2 (upload_then_download unlimited quiet quiet idle _
           (firstOf (limitFor PUT 10)) (limitFor PUT 10) uploadThree
           (firstDown (limitFor GET 10) 0 3) (limitFor GET 10)
           {| ChunkOffset := 0; ChunkSize := 3 |}
           [inr (Some (downOrder 1)); inr (Some (downOrder 3))]
           [turnAfter 1; turnAfter 1; turnAfter 0; turnAfter 0]
           eq_refl eq_refl eq_refl eq_refl eq_refl eq_refl eq_refl eq_refl)
           [downOrder 1; downOrder 3] [] (orderOf 3)
           [turnAfter 1] [turnAfter 1; turnAfter 0; turnAfter 0]
           eq_refl eq_refl _ _ eq_refl _ _ _ _ _).
  - unfold served. repeat apply conj; try reflexivity.
    + simpl. lia.
    + intros H. discriminate H.
  - apply quiet_bounded. vm_compute. discriminate.
  - simpl. lia.
  - repeat constructor.
  - simpl. lia.
  - split; repeat constructor.
  - simpl. lia.
Defined.

(** An uplink that asks for the full piece and closes its side of the
    stream without having sent an order gets no byte of the piece,
    whatever the turns of the sending task, and the download returns no
    error. *)
Lemma download_without_order_delivers_nothing :
  (Upload unlimited quiet idle
     (inr (Some (firstOf (limitFor PUT 10))) :: uploadThree)).1 = None
  /\ ChunkSize {| ChunkOffset := 0; ChunkSize := 3 |}
     = len64 (concat (uploadedChunks uploadThree))
  /\ (Download quiet
        (Upload unlimited quiet idle
           (inr (Some (firstOf (limitFor PUT 10))) :: uploadThree)).2
        [inr (Some (firstDown (limitFor GET 10) 0 3)); inl io_EOF]
        [turnAfter 1]).1 = Returned None
  /\ (forall turns : list Turn,
        sentBytes
          (responsesOf
             (Upload unlimited quiet idle
                (inr (Some (firstOf (limitFor PUT 10))) :: uploadThree)).2
             (Download quiet
                (Upload unlimited quiet idle
                   (inr (Some (firstOf (limitFor PUT 10)))
                    :: uploadThree)).2
                [inr (Some (firstDown (limitFor GET 10) 0 3)); inl io_EOF]
                turns).2)
        = [])
  /\ concat (uploadedChunks uploadThree) <> [].
Proof.
  split; [vm_compute; reflexivity|]. split; [vm_compute; reflexivity|].
  split; [vm_compute; reflexivity|]. split; [|discriminate].
  intros turns.
  generalize (Upload unlimited quiet idle
                (inr (Some (firstOf (limitFor PUT 10))) :: uploadThree)).2.
  intros w1.
  pose proof (Download_paid quiet w1
                (firstDown (limitFor GET 10) 0 3) (limitFor GET 10)
                {| ChunkOffset := 0; ChunkSize := 3 |} [inl io_EOF] turns
                eq_refl eq_refl
                (quiet_bounded (limitFor GET 10)
                   ltac:(vm_compute; discriminate))) as H.
  assert (Hz : Amount (Download_loop quiet (limitFor GET 10) Order_zero []
                         [inl io_EOF]).1.2 = 0) by reflexivity.
  rewrite Hz in H. apply length_zero_iff_nil. unfold len64 in H. lia.
Qed.


(** * Further properties of the endpoint *)

(** ** What the handlers leave alone *)

Lemma add32_inverse (x : Z) :
  - 2 ^ 31 <= x < 2 ^ 31 -> add32 (add32 x 1) (-1) = x.
Proof.
  intros Hx. unfold add32, wrap. change (32 - 1) with 31.
  replace ((x + 1 + 2 ^ 31) mod 2 ^ 32 - 2 ^ 31 + -1 + 2 ^ 31)
    with ((x + 1 + 2 ^ 31) mod 2 ^ 32 - 1) by lia.
  rewrite Zminus_mod_idemp_l.
  replace (x + 1 + 2 ^ 31 - 1) with (x + 2 ^ 31) by lia.
  rewrite Z.mod_small by lia. lia.
Qed.

Lemma Upload_done_frame (c : Collab) (limit : OrderLimit) (done : PieceHash)
    (st st' : UploadState) (w w' : World) (err : option GoError) :
  Upload_done c limit done st w = (err, st', w') ->
  liveRequests w' = liveRequests w /\ sent w' = sent w
  /\ retainQueue w' = retainQueue w.
Proof.
  intros H. unfold Upload_done, CommitWithWiscKey in H.
  repeat case_match; simplify_eq; simpl;
    try (destruct (saveOrder_frame c limit
                     (Some (largestOrder st))
                     (setBlobs
                        (<[(WriterSatellite (pieceWriter st),
                            WriterPiece (pieceWriter st)) :=
                             {| PieceHeaderOf :=
                                  {| HeaderHash :=
                                       hash c (WriterHashed (pieceWriter st));
                                     CreationTime := Timestamp done;
                                     HeaderSignature := Signature done;
                                     HeaderOrderLimit := limit |};
                                PieceContent := concat (chunkDataAll st) |}]>
                           (blobs w)) w)) as (H1 & _ & H2 & H3 & _));
    repeat split; try assumption;
    rewrite ?(proj1 (saveOrder_frame _ _ _ _)),
      ?(proj1 (proj2 (proj2 (saveOrder_frame _ _ _ _)))),
      ?(proj1 (proj2 (proj2 (proj2 (saveOrder_frame _ _ _ _)))));
    reflexivity.
Qed.

Lemma Upload_loop_frame (c : Collab) (limit : OrderLimit)
    (stream : list (Recv PieceUploadRequest)) :
  forall (st st' : UploadState) (w w' : World) (err : option GoError),
    Upload_loop c limit st w stream = (err, st', w') ->
    liveRequests w' = liveRequests w /\ sent w' = sent w
    /\ retainQueue w' = retainQueue w.
Proof.
  induction stream as [|r rest IH]; intros st st' w w' err H; simpl in H.
  - simplify_eq. repeat split.
  - destruct r as [e | [m|]].
    + destruct (Is_EOF e); simplify_eq; repeat split.
    + destruct (Upload_message c limit m st) as [[e|] st1];
        [simplify_eq; repeat split|].
      destruct (UpDone m) as [done|].
      * eapply Upload_done_frame. eassumption.
      * eapply IH. eassumption.
    + simplify_eq. repeat split.
Qed.

(** An upload changes neither the counter it found, nor the responses
    sent, nor the retain queue. *)
Lemma Upload_frame (cfg : Config) (c : Collab) (w : World)
    (stream : list (Recv PieceUploadRequest)) :
  liveRequests (Upload cfg c w stream).2
  = add32 (add32 (liveRequests w) 1) (-1)
  /\ sent (Upload cfg c w stream).2 = sent w
  /\ retainQueue (Upload cfg c w stream).2 = retainQueue w.
Proof.
  unfold Upload.
  destruct (Upload_gated cfg c _ _ stream) as [err w2] eqn:Hg. simpl.
  enough (liveRequests w2 = add32 (liveRequests w) 1 /\ sent w2 = sent w
          /\ retainQueue w2 = retainQueue w) as (-> & -> & ->)
    by (repeat split).
  unfold Upload_gated in Hg.
  destruct (overloaded cfg _); [simplify_eq; repeat split|].
  destruct stream as [|[e | [message|]] rest];
    try (simplify_eq; repeat split; fail).
  destruct (UpLimit message) as [limit|]; [|simplify_eq; repeat split].
  destruct (negb _ && negb _); [simplify_eq; repeat split|].
  destruct (verifyOrderLimit c limit); [simplify_eq; repeat split|].
  unfold Upload_monitored in Hg.
  destruct (AvailableSpace c) as [e|space]; [simplify_eq; repeat split|].
  destruct (Upload_checked c limit space _ rest) as [[err1 space1] w1] eqn:Hc.
  assert (Hw1 : liveRequests w1 = add32 (liveRequests w) 1 /\ sent w1 = sent w
                /\ retainQueue w1 = retainQueue w).
  { unfold Upload_checked in Hc.
    destruct (StorageStatus c) as [e|diskFree]; [simplify_eq; repeat split|].
    destruct (diskFree <? Limit limit); [simplify_eq; repeat split|].
    unfold Upload_metered, Upload_writing in Hc.
    destruct (WriterFails c); [simplify_eq; repeat split|].
    destruct (Upload_session c limit _ space _ rest) as [[e st] w3] eqn:Hs.
    unfold Upload_session in Hs.
    destruct (Upload_loop c limit _ _ rest) as [[e1 st1] w4] eqn:Hl.
    apply Upload_loop_frame in Hl as (Hl1 & Hl2 & Hl3).
    simplify_eq. simpl.
    destruct (CancelWithWiscKey_frame (pieceWriter st)
                (if orderSaved st then w4
                 else saveOrder c limit (Some (largestOrder st)) w4))
      as (_ & _ & _ & Hcs).
    assert (Hsave : liveRequests
                      (if orderSaved st then w4
                       else saveOrder c limit (Some (largestOrder st)) w4)
                    = liveRequests w4
                    /\ sent (if orderSaved st then w4
                             else saveOrder c limit (Some (largestOrder st))
                                    w4) = sent w4
                    /\ retainQueue
                         (if orderSaved st then w4
                          else saveOrder c limit (Some (largestOrder st)) w4)
                       = retainQueue w4).
    { destruct (orderSaved st); [repeat split|].
      destruct (saveOrder_frame c limit (Some (largestOrder st)) w4)
        as (? & _ & ? & ? & _). repeat split; assumption. }
    destruct Hsave as (Hs1 & Hs2 & Hs3).
    unfold CancelWithWiscKey in *.
    destruct (WriterCommitted (pieceWriter st)); simpl;
      rewrite ?Hs1, ?Hs2, ?Hs3, ?Hl1, ?Hl2, ?Hl3; repeat split. }
  destruct (space1 <? ReportCapacityThreshold cfg); simplify_eq; exact Hw1.
Qed.

Lemma Download_reading_frame (c : Collab) (limit : OrderLimit)
    (chunk : DownloadChunk) (p : Piece) (w w' : World)
    (stream : list (Recv PieceDownloadRequest)) (turns : list Turn)
    (out : Outcome) :
  Download_reading c limit chunk p w stream turns = (out, w') ->
  liveRequests w' = liveRequests w /\ blobs w' = blobs w
  /\ retainQueue w' = retainQueue w.
Proof.
  intros H. unfold Download_reading in H.
  assert (Hgo : forall w1 : World,
            liveRequests w1 = liveRequests w -> blobs w1 = blobs w ->
            retainQueue w1 = retainQueue w ->
            (if ReaderSize p <? add64 (ChunkOffset chunk) (ChunkSize chunk)
             then (Returned (Some (status InvalidArgument
                "requested more data than available, requesting=%v available=%v"
                [add64 (ChunkOffset chunk) (ChunkSize chunk); ReaderSize p])),
                   w1)
             else match Download_sender c limit p chunk w1 stream turns with
                  | (Panicked, w2) => (Panicked, w2)
                  | (Returned sendErr, w2) =>
                      let '(recvErr, _, w3) :=
                        Download_receiver c limit w2 stream in
                      (Returned (Wrap Internal (Combine sendErr recvErr)), w3)
                  end) = (out, w') ->
            liveRequests w' = liveRequests w /\ blobs w' = blobs w
            /\ retainQueue w' = retainQueue w).
  { intros w1 Hl Hb Hr H1.
    destruct (ReaderSize p <? add64 (ChunkOffset chunk) (ChunkSize chunk));
      [simplify_eq; repeat split; assumption|].
    destruct (Download_sender c limit p chunk w1 stream turns) as [out2 w2] eqn:Hs.
    apply Download_sender_frame in Hs as (Hs1 & _ & _ & Hs2 & Hs3 & _).
    destruct out2 as [sendErr|];
      [|simplify_eq; repeat split; congruence].
    destruct (Download_receiver c limit w2 stream) as [[recvErr l] w3] eqn:Hr'.
    apply Download_receiver_persist in Hr'. simplify_eq.
    destruct (saveOrder_frame c limit (Some l) w2) as (? & ? & ? & _).
    repeat split; congruence. }
  destruct (bool_decide (Action limit = GET_REPAIR)).
  - destruct (GetHashAndLimitFails c); [simplify_eq; repeat split|].
    destruct (GetHashAndLimitWithWiscKey limit p) as [pieceHash orderLimit].
    destruct (SendHashFails c); [simplify_eq; repeat split|].
    apply Hgo in H; [exact H | reflexivity..].
  - apply Hgo in H; [exact H | reflexivity..].
Qed.

(** A download changes neither the counter it found, nor the store, nor
    the retain queue. *)
Lemma Download_frame (c : Collab) (w : World)
    (stream : list (Recv PieceDownloadRequest)) (turns : list Turn) :
  liveRequests (Download c w stream turns).2
  = add32 (add32 (liveRequests w) 1) (-1)
  /\ blobs (Download c w stream turns).2 = blobs w
  /\ retainQueue (Download c w stream turns).2 = retainQueue w.
Proof.
  unfold Download.
  destruct (Download_counted c _ stream turns) as [out w2] eqn:Hc. simpl.
  enough (liveRequests w2 = add32 (liveRequests w) 1 /\ blobs w2 = blobs w
          /\ retainQueue w2 = retainQueue w) as (-> & -> & ->)
    by (repeat split).
  unfold Download_counted in Hc.
  destruct stream as [|[e | [message|]] rest];
    try (simplify_eq; repeat split; fail).
  destruct (DownLimit message) as [limit|], (DownChunk message) as [chunk|];
    try (simplify_eq; repeat split; fail).
  destruct (negb (isGetAction (Action limit))); [simplify_eq; repeat split|].
  destruct (Limit limit <? ChunkSize chunk); [simplify_eq; repeat split|].
  destruct (verifyOrderLimit c limit); [simplify_eq; repeat split|].
  unfold Download_metered in Hc.
  destruct (ReaderWithWiscKey c (SatelliteId limit) (PieceId limit) _)
    as [e|p]; [simplify_eq; repeat split|].
  destruct (Download_reading c limit chunk p _ rest turns)
    as [out1 w1] eqn:Hr.
  apply Download_reading_frame in Hr as (Hr1 & Hr2 & Hr3).
  destruct out1; simplify_eq; simpl; rewrite Hr1, Hr2, Hr3; repeat split.
Qed.

Lemma Delete_frame (c : Collab) (w : World) (limit : OrderLimit) :
  liveRequests (Delete c w limit).2 = add32 (add32 (liveRequests w) 1) (-1)
  /\ ordersQueue (Delete c w limit).2 = ordersQueue w
  /\ usage (Delete c w limit).2 = usage w
  /\ sent (Delete c w limit).2 = sent w.
Proof.
  unfold Delete. repeat case_match; simplify_eq; repeat split.
Qed.

(** Once every call has returned, the counter of a new endpoint is back at
    0: each handler decrements it on every way out, errors and panics
    included. *)
Theorem counter_back_at_zero (w : World) (calls : list Call) :
  TestLiveRequestCount (foldl serve (NewEndpoint w) calls) = 0.
Proof.
  unfold TestLiveRequestCount.
  assert (Hgen : forall w0, liveRequests w0 = 0 ->
                   liveRequests (foldl serve w0 calls) = 0).
  { induction calls as [|call calls IH]; intros w0 H0; simpl; [assumption|].
    apply IH. destruct call as [cfg c stream | c stream turns | c limit];
      simpl.
    - rewrite (proj1 (Upload_frame cfg c w0 stream)), H0. reflexivity.
    - rewrite (proj1 (Download_frame c w0 stream turns)), H0. reflexivity.
    - rewrite (proj1 (Delete_frame c w0 limit)), H0. reflexivity. }
  apply Hgen. reflexivity.
Qed.

(** Each handler returns with the counter it found, for any value of the
    32-bit counter; an upload touches neither the responses sent nor the
    retain queue, a download neither the store nor the retain queue, a
    delete neither the orders queue, the ledger nor the responses. *)
Theorem handlers_restore_counter (cfg : Config) (c : Collab) (w : World)
    (ustream : list (Recv PieceUploadRequest))
    (dstream : list (Recv PieceDownloadRequest)) (turns : list Turn)
    (limit : OrderLimit) :
  - 2 ^ 31 <= liveRequests w < 2 ^ 31 ->
  (liveRequests (Upload cfg c w ustream).2 = liveRequests w
   /\ sent (Upload cfg c w ustream).2 = sent w
   /\ retainQueue (Upload cfg c w ustream).2 = retainQueue w)
  /\ (liveRequests (Download c w dstream turns).2 = liveRequests w
      /\ blobs (Download c w dstream turns).2 = blobs w
      /\ retainQueue (Download c w dstream turns).2 = retainQueue w)
  /\ (liveRequests (Delete c w limit).2 = liveRequests w
      /\ ordersQueue (Delete c w limit).2 = ordersQueue w
      /\ usage (Delete c w limit).2 = usage w
      /\ sent (Delete c w limit).2 = sent w).
Proof.
  intros Hr.
  destruct (Upload_frame cfg c w ustream) as (Hu & ? & ?).
  destruct (Download_frame c w dstream turns) as (Hd & ? & ?).
  destruct (Delete_frame c w limit) as (Hx & ? & ? & ?).
  rewrite add32_inverse in Hu, Hd, Hx by assumption.
  repeat split; assumption.
Qed.

Lemma handlers_restore_counter_witness :
  (liveRequests (Upload unlimited quiet stocked uploadThree).2
   = liveRequests stocked
   /\ sent (Upload unlimited quiet stocked uploadThree).2 = sent stocked
   /\ retainQueue (Upload unlimited quiet stocked uploadThree).2
      = retainQueue stocked)
  /\ (liveRequests (Download quiet stocked [] []).2 = liveRequests stocked
      /\ blobs (Download quiet stocked [] []).2 = blobs stocked
      /\ retainQueue (Download quiet stocked [] []).2 = retainQueue stocked)
  /\ (liveRequests (Delete quiet stocked (limitFor DELETE 0)).2
      = liveRequests stocked
      /\ ordersQueue (Delete quiet stocked (limitFor DELETE 0)).2
         = ordersQueue stocked
      /\ usage (Delete quiet stocked (limitFor DELETE 0)).2 = usage stocked
      /\ sent (Delete quiet stocked (limitFor DELETE 0)).2 = sent stocked).
Proof.
  apply (handlers_restore_counter unlimited quiet stocked uploadThree [] []
           (limitFor DELETE 0)).
  simpl. lia.
Defined.

(** ** Commit or cancel *)

Lemma saveOrder_events (c : Collab) (limit : OrderLimit)
    (order : option Order) (w : World) :
  events (saveOrder c limit order w) = events w.
Proof. apply saveOrder_frame. Qed.

Lemma saveOrder_blobs (c : Collab) (limit : OrderLimit)
    (order : option Order) (w : World) :
  blobs (saveOrder c limit order w) = blobs w.
Proof. apply saveOrder_frame. Qed.

Lemma not_canceled_nil (satellite piece : Z) :
  ~ WriterCanceled satellite piece ∈ @nil Event.
Proof. intros H. inversion H. Qed.

(** A done leaves the store as it was and fails, or commits the stash under
    the writer's key; it cancels nothing. *)
Lemma Upload_done_outcome (c : Collab) (limit : OrderLimit) (done : PieceHash)
    (st st' : UploadState) (w w' : World) (err : option GoError) :
  Upload_done c limit done st w = (err, st', w') ->
  exists ev,
    events w' = events w ++ ev
    /\ (forall satellite piece, ~ WriterCanceled satellite piece ∈ ev)
    /\ WriterSatellite (pieceWriter st') = WriterSatellite (pieceWriter st)
    /\ WriterPiece (pieceWriter st') = WriterPiece (pieceWriter st)
    /\ (blobs w' = blobs w
        /\ WriterCommitted (pieceWriter st')
           = WriterCommitted (pieceWriter st)
        /\ err <> None
        \/ exists header,
             blobs w'
             = <[(WriterSatellite (pieceWriter st),
                  WriterPiece (pieceWriter st)) :=
                   {| PieceHeaderOf := header;
                      PieceContent := concat (chunkDataAll st) |}]> (blobs w)
             /\ WriterCommitted (pieceWriter st') = true).
Proof.
  intros H. unfold Upload_done, CommitWithWiscKey in H.
  repeat case_match; simplify_eq; eexists;
    (split;
     [ simpl; rewrite ?saveOrder_events; simpl;
       first [ reflexivity | symmetry; apply app_nil_r
             | rewrite <- app_assoc; reflexivity ]
     | split;
       [ intros satellite piece Hin; simpl in Hin;
         repeat (apply elem_of_cons in Hin as [Hin | Hin]; [discriminate|]);
         inversion Hin
       | split; [reflexivity | split; [reflexivity|]];
         first [ left; split;
                 [reflexivity | split; [reflexivity | discriminate]]
               | right; eexists; split; simpl; rewrite ?saveOrder_blobs;
                 reflexivity ] ] ]).
Qed.

Lemma Upload_message_writer (c : Collab) (limit : OrderLimit)
    (m : PieceUploadRequest) (st st' : UploadState) (err : option GoError) :
  Upload_message c limit m st = (err, st') ->
  WriterSatellite (pieceWriter st') = WriterSatellite (pieceWriter st)
  /\ WriterPiece (pieceWriter st') = WriterPiece (pieceWriter st)
  /\ WriterCommitted (pieceWriter st') = WriterCommitted (pieceWriter st).
Proof.
  intros H. destruct err as [e|].
  - apply Upload_message_refused in H as [-> _]. repeat split.
  - apply Upload_message_accepted in H as (st1 & Ho & Hc).
    apply Upload_order_frame in Ho as (Hw & _).
    unfold Upload_chunk in Hc.
    repeat case_match; simplify_eq; rewrite <- Hw; repeat split.
Qed.

(** The loop leaves the store as it was and fails, or has committed under
    the writer's key what it received; it cancels nothing. *)
Lemma Upload_loop_outcome (c : Collab) (limit : OrderLimit)
    (stream : list (Recv PieceUploadRequest)) :
  forall (st st' : UploadState) (w w' : World) (err : option GoError),
    Upload_loop c limit st w stream = (err, st', w') ->
    exists ev,
      events w' = events w ++ ev
      /\ (forall satellite piece, ~ WriterCanceled satellite piece ∈ ev)
      /\ WriterSatellite (pieceWriter st') = WriterSatellite (pieceWriter st)
      /\ WriterPiece (pieceWriter st') = WriterPiece (pieceWriter st)
      /\ (blobs w' = blobs w
          /\ WriterCommitted (pieceWriter st')
             = WriterCommitted (pieceWriter st)
          /\ err <> None
          \/ exists header,
               blobs w'
               = <[(WriterSatellite (pieceWriter st),
                    WriterPiece (pieceWriter st)) :=
                     {| PieceHeaderOf := header;
                        PieceContent :=
                          concat (chunkDataAll st ++ uploadedChunks stream)
                     |}]> (blobs w)
               /\ WriterCommitted (pieceWriter st') = true).
Proof.
  assert (Hstop : forall (st : UploadState) (w : World) (e : GoError)
                         (chunks : list bytes),
            exists ev,
              events w = events w ++ ev
              /\ (forall satellite piece,
                    ~ WriterCanceled satellite piece ∈ ev)
              /\ WriterSatellite (pieceWriter st)
                 = WriterSatellite (pieceWriter st)
              /\ WriterPiece (pieceWriter st) = WriterPiece (pieceWriter st)
              /\ (blobs w = blobs w
                  /\ WriterCommitted (pieceWriter st)
                     = WriterCommitted (pieceWriter st)
                  /\ Some e <> None
                  \/ exists header,
                       blobs w
                       = <[(WriterSatellite (pieceWriter st),
                            WriterPiece (pieceWriter st)) :=
                             {| PieceHeaderOf := header;
                                PieceContent := concat chunks |}]> (blobs w)
                       /\ WriterCommitted (pieceWriter st) = true)).
  { intros st w e chunks. exists []. rewrite app_nil_r.
    repeat apply conj; try reflexivity; [apply not_canceled_nil|].
    left. repeat split. discriminate. }
  induction stream as [|r rest IH]; intros st st' w w' err H; simpl in H.
  - simplify_eq. apply Hstop.
  - destruct r as [e | [m|]].
    + destruct (Is_EOF e); simplify_eq; apply Hstop.
    + destruct (Upload_message c limit m st) as [[e|] st1] eqn:Hm.
      * pose proof (Upload_message_writer _ _ _ _ _ _ Hm) as (Hs & Hp & Hc).
        simplify_eq. exists []. rewrite app_nil_r.
        repeat apply conj; try assumption; try reflexivity;
          [apply not_canceled_nil|].
        left. repeat split; [assumption | discriminate].
      * pose proof (Upload_message_writer _ _ _ _ _ _ Hm) as (Hs & Hp & Hc).
        apply Upload_message_stash in Hm as (_ & _ & Hd). simpl.
        destruct (UpDone m) as [done|].
        -- apply Upload_done_outcome in H
             as (ev & Hev & Hno & Hs' & Hp' & Hout).
           exists ev. rewrite app_nil_r, <- Hd, <- Hs, <- Hp, <- Hc.
           repeat apply conj; try assumption; congruence.
        -- apply IH in H as (ev & Hev & Hno & Hs' & Hp' & Hout).
           exists ev. rewrite app_assoc, <- Hd, <- Hs, <- Hp, <- Hc.
           repeat apply conj; try assumption; congruence.
    + simplify_eq. apply Hstop.
Qed.

(** An upload whose writer was opened either leaves the store as it found
    it, cancels the writer and returns an error, or has committed under the
    limit's (satellite, piece) the chunk payloads it received, concatenated,
    and cancels nothing.  (An upload can return an error after the
    commit.) *)
Theorem upload_commits_or_cancels (cfg : Config) (c : Collab) (w : World)
    (first : PieceUploadRequest) (limit : OrderLimit) (space : Z)
    (stream : list (Recv PieceUploadRequest)) :
  UpLimit first = Some limit ->
  opens cfg c w limit space ->
  blobs (Upload cfg c w (inr (Some first) :: stream)).2 = blobs w
  /\ (Upload cfg c w (inr (Some first) :: stream)).1 <> None
  /\ WriterCanceled (SatelliteId limit) (PieceId limit)
     ∈ drop (length (events w))
         (events (Upload cfg c w (inr (Some first) :: stream)).2)
  \/ (exists header,
        blobs (Upload cfg c w (inr (Some first) :: stream)).2
        = <[(SatelliteId limit, PieceId limit) :=
              {| PieceHeaderOf := header;
                 PieceContent := concat (uploadedChunks stream) |}]> (blobs w))
     /\ forall satellite piece,
          ~ WriterCanceled satellite piece
              ∈ drop (length (events w))
                  (events (Upload cfg c w (inr (Some first) :: stream)).2).
Proof.
  intros Hf (Hg & Ha & Hv & Hs & (d & Hd & Hle) & Hw).
  unfold Upload, Upload_gated. rewrite Hg, Hf.
  assert (Hact : negb (bool_decide (Action limit = PUT))
                 && negb (bool_decide (Action limit = PUT_REPAIR)) = false).
  { destruct Ha as [-> | ->]; reflexivity. }
  rewrite Hact, Hv. unfold Upload_monitored. rewrite Hs.
  unfold Upload_checked. rewrite Hd.
  destruct (Z.ltb_spec d (Limit limit)); [lia|].
  unfold Upload_metered, Upload_writing. rewrite Hw.
  unfold Upload_session.
  destruct (Upload_loop c limit _ _ stream) as [[err st] w1] eqn:Hl.
  apply Upload_loop_outcome in Hl as (ev & Hev & Hno & Hsat & Hpiece & Hout).
  simpl in Hev, Hsat, Hpiece, Hout.
  set (w2 := if orderSaved st then w1
             else saveOrder c limit (Some (largestOrder st)) w1).
  assert (Hw2 : events w2 = events w1 /\ blobs w2 = blobs w1).
  { unfold w2. destruct (orderSaved st); [split; reflexivity|].
    split; [apply saveOrder_events | apply saveOrder_blobs]. }
  destruct Hw2 as [He2 Hb2].
  destruct Hout as [(Hb & Hc & Hne) | (header & Hb & Hc)].
  - left. unfold CancelWithWiscKey. rewrite Hc, Hsat, Hpiece. simpl.
    destruct (availableSpace st <? ReportCapacityThreshold cfg); simpl;
      rewrite Hb2, Hb, He2, Hev; (split; [reflexivity|]);
      (split; [assumption|]);
      rewrite <- !app_assoc, drop_app_length;
      rewrite !elem_of_app, !elem_of_cons; tauto.
  - right. unfold CancelWithWiscKey. rewrite Hc.
    split.
    + exists header.
      destruct (availableSpace st <? ReportCapacityThreshold cfg); simpl;
        rewrite Hb2, Hb; reflexivity.
    + intros satellite piece.
      destruct (availableSpace st <? ReportCapacityThreshold cfg); simpl;
        rewrite He2, Hev; rewrite <- !app_assoc, drop_app_length;
        rewrite !elem_of_app, !elem_of_cons, !elem_of_nil;
        specialize (Hno satellite piece); intuition discriminate.
Qed.

Lemma upload_commits_or_cancels_witness :
  blobs (Upload unlimited quiet idle
           (inr (Some (firstOf (limitFor PUT 10))) :: uploadThree)).2
  = blobs idle
  /\ (Upload unlimited quiet idle
        (inr (Some (firstOf (limitFor PUT 10))) :: uploadThree)).1 <> None
  /\ WriterCanceled (SatelliteId (limitFor PUT 10)) (PieceId (limitFor PUT 10))
     ∈ drop (length (events idle))
         (events (Upload unlimited quiet idle
                    (inr (Some (firstOf (limitFor PUT 10))) :: uploadThree)).2)
  \/ (exists header,
        blobs (Upload unlimited quiet idle
                 (inr (Some (firstOf (limitFor PUT 10))) :: uploadThree)).2
        = <[(SatelliteId (limitFor PUT 10), PieceId (limitFor PUT 10)) :=
              {| PieceHeaderOf := header;
                 PieceContent := concat (uploadedChunks uploadThree) |}]>
            (blobs idle))
     /\ forall satellite piece,
          ~ WriterCanceled satellite piece
              ∈ drop (length (events idle))
                  (events (Upload unlimited quiet idle
                             (inr (Some (firstOf (limitFor PUT 10)))
                              :: uploadThree)).2).
Proof.
  apply (upload_commits_or_cancels unlimited quiet idle
           (firstOf (limitFor PUT 10)) (limitFor PUT 10) 1000 uploadThree).
  - reflexivity.
  - apply quiet_opens. left. reflexivity.
Defined.

(** ** What a call can persist *)

(** An upload leaves the store, the orders queue and the ledger as it found
    them, unless it passed everything that precedes its session. *)
Lemma Upload_opened_or_untouched (cfg : Config) (c : Collab) (w : World)
    (stream : list (Recv PieceUploadRequest)) :
  blobs (Upload cfg c w stream).2 = blobs w
  /\ ordersQueue (Upload cfg c w stream).2 = ordersQueue w
  /\ usage (Upload cfg c w stream).2 = usage w
  \/ exists first limit space rest,
       stream = inr (Some first) :: rest
       /\ UpLimit first = Some limit
       /\ opens cfg c w limit space.
Proof.
  unfold Upload, Upload_gated.
  destruct (overloaded cfg _) eqn:Hg; [left; repeat split|].
  destruct stream as [|[e | [first|]] rest]; try (left; repeat split; fail).
  destruct (UpLimit first) as [limit|] eqn:Hf; [|left; repeat split].
  destruct (negb _ && negb _) eqn:Ha; [left; repeat split|].
  destruct (verifyOrderLimit c limit) eqn:Hv; [left; repeat split|].
  unfold Upload_monitored.
  destruct (AvailableSpace c) as [e|space] eqn:Hs; [left; repeat split|].
  unfold Upload_checked.
  destruct (StorageStatus c) as [e|diskFree] eqn:Hd.
  { left. destruct (space <? ReportCapacityThreshold cfg); repeat split. }
  destruct (Z.ltb_spec diskFree (Limit limit)).
  { left. destruct (space <? ReportCapacityThreshold cfg); repeat split. }
  unfold Upload_metered, Upload_writing.
  destruct (WriterFails c) eqn:Hw.
  { left. destruct (space <? ReportCapacityThreshold cfg); repeat split. }
  right. exists first, limit, space, rest.
  split; [reflexivity|]. split; [exact Hf|].
  unfold opens. repeat split; try assumption.
  - apply andb_false_iff in Ha.
    destruct Ha as [Ha | Ha]; apply negb_false_iff, bool_decide_eq_true in Ha;
      [left | right]; assumption.
  - exists diskFree. split; assumption.
Qed.

(** An upload that changes the store, the orders queue or the ledger
    carried a limit in its first message and passed every check that
    precedes the opening of the writer: the counter, the action, the
    verification of the limit and the two space queries. *)
Theorem upload_changes_need_opening (cfg : Config) (c : Collab) (w : World)
    (stream : list (Recv PieceUploadRequest)) :
  blobs (Upload cfg c w stream).2 <> blobs w
  \/ ordersQueue (Upload cfg c w stream).2 <> ordersQueue w
  \/ usage (Upload cfg c w stream).2 <> usage w ->
  exists first limit space rest,
    stream = inr (Some first) :: rest
    /\ UpLimit first = Some limit
    /\ opens cfg c w limit space.
Proof.
  intros Hch.
  destruct (Upload_opened_or_untouched cfg c w stream)
    as [(Hb & Hq & Hu) | Ho]; [|exact Ho].
  destruct Hch as [H | [H | H]]; contradiction.
Qed.

Lemma upload_changes_need_opening_witness :
  exists first limit space rest,
    inr (Some (firstOf (limitFor PUT 10))) :: orderThenEOF 5
    = inr (Some first) :: rest
    /\ UpLimit first = Some limit
    /\ opens unlimited quiet idle limit space.
Proof.
  apply (upload_changes_need_opening unlimited quiet idle
           (inr (Some (firstOf (limitFor PUT 10))) :: orderThenEOF 5)).
  right. left. vm_compute. discriminate.
Defined.

Lemma saveOrder_grows (c : Collab) (limit : OrderLimit) (order : option Order)
    (w : World) :
  exists q u,
    ordersQueue (saveOrder c limit order w) = ordersQueue w ++ q
    /\ usage (saveOrder c limit order w) = usage w ++ u
    /\ (length u <= length q <= 1)%nat.
Proof.
  destruct (saveOrder_cases c limit order w)
    as [-> | (o & _ & _ & _ & Hq & [Hu | Hu])].
  - exists [], []. rewrite !app_nil_r. repeat split; simpl; lia.
  - exists [infoOf limit o], []. rewrite app_nil_r.
    repeat split; try assumption; simpl; lia.
  - eexists [infoOf limit o], [_].
    repeat split; try eassumption; simpl; lia.
Qed.

Lemma Download_reading_persist (c : Collab) (limit : OrderLimit)
    (chunk : DownloadChunk) (p : Piece) (w w' : World)
    (stream : list (Recv PieceDownloadRequest)) (turns : list Turn)
    (out : Outcome) :
  Download_reading c limit chunk p w stream turns = (out, w') ->
  ordersQueue w' = ordersQueue w /\ usage w' = usage w
  \/ exists largest,
       ordersQueue w' = ordersQueue (saveOrder c limit (Some largest) w)
       /\ usage w' = usage (saveOrder c limit (Some largest) w).
Proof.
  intros H. unfold Download_reading in H.
  assert (Hgo : forall w1 : World,
            ordersQueue w1 = ordersQueue w -> usage w1 = usage w ->
            (if ReaderSize p <? add64 (ChunkOffset chunk) (ChunkSize chunk)
             then (Returned (Some (status InvalidArgument
                "requested more data than available, requesting=%v available=%v"
                [add64 (ChunkOffset chunk) (ChunkSize chunk); ReaderSize p])),
                   w1)
             else match Download_sender c limit p chunk w1 stream turns with
                  | (Panicked, w2) => (Panicked, w2)
                  | (Returned sendErr, w2) =>
                      let '(recvErr, _, w3) :=
                        Download_receiver c limit w2 stream in
                      (Returned (Wrap Internal (Combine sendErr recvErr)), w3)
                  end) = (out, w') ->
            ordersQueue w' = ordersQueue w /\ usage w' = usage w
            \/ exists largest,
                 ordersQueue w'
                 = ordersQueue (saveOrder c limit (Some largest) w)
                 /\ usage w' = usage (saveOrder c limit (Some largest) w)).
  { intros w1 Hq Hu H1.
    destruct (ReaderSize p <? add64 (ChunkOffset chunk) (ChunkSize chunk));
      [simplify_eq; left; split; assumption|].
    destruct (Download_sender c limit p chunk w1 stream turns) as [out2 w2] eqn:Hs.
    apply Download_sender_frame in Hs as (_ & Hq2 & Hu2 & _).
    destruct out2 as [sendErr|]; [|simplify_eq; left; split; congruence].
    destruct (Download_receiver c limit w2 stream) as [[recvErr l] w3] eqn:Hr.
    apply Download_receiver_persist in Hr. simplify_eq.
    right. exists l. apply saveOrder_ext; congruence. }
  destruct (bool_decide (Action limit = GET_REPAIR)).
  - destruct (GetHashAndLimitFails c); [simplify_eq; left; split; reflexivity|].
    destruct (GetHashAndLimitWithWiscKey limit p) as [pieceHash orderLimit].
    destruct (SendHashFails c); [simplify_eq; left; split; reflexivity|].
    apply Hgo in H; [exact H | reflexivity..].
  - apply Hgo in H; [exact H | reflexivity..].
Qed.

Lemma Download_persist_cases (c : Collab) (w : World)
    (stream : list (Recv PieceDownloadRequest)) (turns : list Turn) :
  ordersQueue (Download c w stream turns).2 = ordersQueue w
  /\ usage (Download c w stream turns).2 = usage w
  \/ exists limit largest,
       ordersQueue (Download c w stream turns).2
       = ordersQueue (saveOrder c limit (Some largest) w)
       /\ usage (Download c w stream turns).2
          = usage (saveOrder c limit (Some largest) w).
Proof.
  unfold Download.
  destruct (Download_counted c _ stream turns) as [out w2] eqn:Hc. simpl.
  unfold Download_counted in Hc.
  destruct stream as [|[e | [message|]] rest];
    try (simplify_eq; left; split; reflexivity).
  destruct (DownLimit message) as [limit|], (DownChunk message) as [chunk|];
    try (simplify_eq; left; split; reflexivity).
  destruct (negb (isGetAction (Action limit)));
    [simplify_eq; left; split; reflexivity|].
  destruct (Limit limit <? ChunkSize chunk);
    [simplify_eq; left; split; reflexivity|].
  destruct (verifyOrderLimit c limit);
    [simplify_eq; left; split; reflexivity|].
  unfold Download_metered in Hc.
  destruct (ReaderWithWiscKey c (SatelliteId limit) (PieceId limit) _)
    as [e|p]; [simplify_eq; left; split; reflexivity|].
  destruct (Download_reading c limit chunk p _ rest turns)
    as [out1 w1] eqn:Hr.
  apply Download_reading_persist in Hr as [[Hq Hu] | (largest & Hq & Hu)].
  - left. destruct out1; simplify_eq; simpl; split; assumption.
  - right. exists limit, largest.
    destruct out1; simplify_eq; simpl; rewrite Hq, Hu;
      apply saveOrder_ext; reflexivity.
Qed.

(** A call of Upload or Download adds at most one record to the orders
    queue and at most one entry to the bandwidth ledger, and a ledger entry
    only together with a record: the order is saved once, by the loop or by
    the deferred call, and the ledger is written only after the queue has
    taken the record. *)
Theorem one_record_per_call (cfg : Config) (c : Collab) (w : World)
    (ustream : list (Recv PieceUploadRequest))
    (dstream : list (Recv PieceDownloadRequest)) (turns : list Turn) :
  (exists q u,
     ordersQueue (Upload cfg c w ustream).2 = ordersQueue w ++ q
     /\ usage (Upload cfg c w ustream).2 = usage w ++ u
     /\ (length u <= length q <= 1)%nat)
  /\ (exists q u,
        ordersQueue (Download c w dstream turns).2 = ordersQueue w ++ q
        /\ usage (Download c w dstream turns).2 = usage w ++ u
        /\ (length u <= length q <= 1)%nat).
Proof.
  assert (Hnone : forall w' : World,
            ordersQueue w' = ordersQueue w -> usage w' = usage w ->
            exists q u,
              ordersQueue w' = ordersQueue w ++ q
              /\ usage w' = usage w ++ u
              /\ (length u <= length q <= 1)%nat).
  { intros w' Hq Hu. exists [], []. rewrite !app_nil_r.
    repeat split; try assumption; simpl; lia. }
  split.
  - destruct (Upload_opened_or_untouched cfg c w ustream)
      as [(_ & Hq & Hu) | (first & limit & space & rest & -> & Hf & Ho)];
      [apply Hnone; assumption|].
    destruct (Upload_reaches_session cfg c w first limit space rest Hf Ho)
      as (st & w' & Hsess & Hq & Hu & _).
    apply Upload_session_persist in Hsess as [Hq' Hu'].
    rewrite Hq, Hu, Hq', Hu'.
    destruct (saveOrder_ext c limit (Some (largestOrder st))
                (Upload_entered c limit w) w eq_refl eq_refl) as [-> ->].
    apply saveOrder_grows.
  - destruct (Download_persist_cases c w dstream turns)
      as [[Hq Hu] | (limit & largest & -> & ->)];
      [apply Hnone; assumption|].
    apply saveOrder_grows.
Qed.

(** ** The available space over an upload *)

Lemma Upload_chunk_space (c : Collab) (m : PieceUploadRequest)
    (ch : UploadChunk) (st st' : UploadState) :
  UpChunk m = Some ch ->
  Upload_chunk c m st = (None, st') ->
  availableSpace st' = sub64 (availableSpace st) (len64 (Data ch))
  /\ 0 <= availableSpace st'.
Proof.
  unfold Upload_chunk. intros -> H.
  destruct (negb _); [discriminate|].
  destruct (_ <? _); [discriminate|].
  cbn [availableSpace withSpace pieceWriter] in H.
  destruct (Z.ltb_spec (sub64 (availableSpace st) (len64 (Data ch))) 0);
    [discriminate|].
  destruct (WriteFails c _ _); [discriminate|].
  simplify_eq. simpl. split; [reflexivity | assumption].
Qed.

(** While the loop runs, [availableSpace] is what the monitor answered less
    the bytes accepted, and is not negative. *)
Lemma Upload_run_space (c : Collab) (limit : OrderLimit) (wr : Writer)
    (space : Z) (ms : list PieceUploadRequest) :
  forall st : UploadState,
    0 <= space <= max_int64 ->
    Upload_run c limit (Upload_start wr space) ms = Some st ->
    len64 (concat (chunksOf ms)) <= max_int64 ->
    availableSpace st = space - len64 (concat (chunksOf ms))
    /\ 0 <= availableSpace st.
Proof.
  induction ms as [|m ms IH] using rev_ind; intros st Hsp Hrun Hfit.
  - simpl in Hrun. simplify_eq. unfold len64. simpl. lia.
  - apply Upload_run_snoc in Hrun as (st1 & Hrun & Hmsg & _).
    rewrite chunksOf_snoc, concat_app, len64_app in Hfit |- *.
    pose proof (len64_nonneg (concat (chunksOf ms))) as Hn0.
    assert (Hfit1 : len64 (concat (chunksOf ms)) <= max_int64).
    { match type of Hfit with
      | _ + len64 ?x <= _ => pose proof (len64_nonneg x)
      end. lia. }
    destruct (IH st1 Hsp Hrun Hfit1) as [Ha Hpos].
    apply Upload_message_accepted in Hmsg as (st2 & Ho & Hch).
    apply Upload_order_frame in Ho as (_ & Ha2 & _).
    destruct (UpChunk m) as [ch|] eqn:Hm.
    + destruct (Upload_chunk_space _ _ _ _ _ Hm Hch) as [Hs Hpos'].
      cbn [concat] in Hfit |- *. rewrite app_nil_r in Hfit |- *.
      pose proof (len64_nonneg (Data ch)) as Hn1.
      rewrite Ha2, sub64_exact in Hs by (unfold min_int64, max_int64 in *; lia).
      split; lia.
    + rewrite (Upload_chunk_absent _ _ _ Hm) in Hch. simplify_eq.
      change (len64 (concat [])) with 0. lia.
Qed.

(** While the loop of an upload runs, the available space is what the
    monitor answered less the bytes accepted so far, so that an upload
    never accepts more bytes than the monitor reported available (for an
    answer and for payloads within int64).  A chunk that passes the offset
    and allocation checks and is longer than what is left stops the upload
    with internal "out of space": nothing of it is written, nothing is
    committed, and since the space left is decremented before it is tested,
    the deferred check notifies the monitor of low disk for every threshold
    that is not negative. *)
Theorem upload_space_accounting (c : Collab) (limit : OrderLimit) (space : Z)
    (ms : list PieceUploadRequest) (st : UploadState) :
  0 <= space <= max_int64 ->
  Upload_run c limit (Upload_begin limit space) ms = Some st ->
  len64 (concat (chunksOf ms)) <= max_int64 ->
  availableSpace st = space - len64 (concat (chunksOf ms))
  /\ len64 (concat (chunksOf ms)) <= space
  /\ forall (m : PieceUploadRequest) (ch : UploadChunk) (st1 : UploadState)
            (rest : list (Recv PieceUploadRequest)),
       UpChunk m = Some ch ->
       len64 (Data ch) <= max_int64 ->
       Upload_order c limit m st = (None, st1) ->
       Offset ch = WriterSize (pieceWriter st) ->
       add64 (WriterSize (pieceWriter st)) (len64 (Data ch))
       <= Amount (largestOrder st1) ->
       availableSpace st < len64 (Data ch) ->
       (forall w : World,
          Upload_loop c limit (Upload_begin limit space) w
            (arrive ms ++ inr (Some m) :: rest)
          = (Some outOfSpace,
             withSpace (availableSpace st - len64 (Data ch)) st1, w))
       /\ forall (cfg : Config) (w0 : World) (first : PieceUploadRequest),
            UpLimit first = Some limit ->
            opens cfg c w0 limit space ->
            (Upload cfg c w0
               (inr (Some first) :: arrive ms ++ inr (Some m) :: rest)).1
            = Some outOfSpace
            /\ blobs (Upload cfg c w0
                        (inr (Some first)
                         :: arrive ms ++ inr (Some m) :: rest)).2
               = blobs w0
            /\ (0 <= ReportCapacityThreshold cfg ->
                NotifyLowDisk
                ∈ drop (length (events w0))
                    (events (Upload cfg c w0
                               (inr (Some first)
                                :: arrive ms ++ inr (Some m) :: rest)).2)).
Proof.
  intros Hsp Hrun Hfit.
  destruct (Upload_run_space c limit _ space ms st Hsp Hrun Hfit)
    as [Ha Hpos].
  split; [assumption|]. split; [lia|].
  intros m ch st1 rest Hm Hlen Ho Hoff Halloc Hlt.
  pose proof (len64_nonneg (Data ch)) as Hn1.
  assert (Hmsg : Upload_message c limit m st
                 = (Some outOfSpace,
                    withSpace (availableSpace st - len64 (Data ch)) st1)).
  { rewrite (Upload_message_chunk_with _ _ _ _ _ _ Hm Ho).
    apply Upload_order_frame in Ho as (Hw1 & Ha1 & _).
    unfold Upload_chunk. rewrite Hm, Hw1, Ha1.
    destruct (Z.eqb_spec (Offset ch) (WriterSize (pieceWriter st)));
      [|contradiction].
    cbn [negb].
    destruct (Z.ltb_spec (Amount (largestOrder st1))
                (add64 (WriterSize (pieceWriter st)) (len64 (Data ch))));
      [lia|].
    cbn [availableSpace withSpace].
    rewrite sub64_exact by (unfold min_int64, max_int64 in *; lia).
    destruct (Z.ltb_spec (availableSpace st - len64 (Data ch)) 0); [|lia].
    reflexivity. }
  assert (Hloop : forall w : World,
            Upload_loop c limit (Upload_begin limit space) w
              (arrive ms ++ inr (Some m) :: rest)
            = (Some outOfSpace,
               withSpace (availableSpace st - len64 (Data ch)) st1, w)).
  { intros w. apply Upload_loop_stops with st; assumption. }
  split; [exact Hloop|].
  intros cfg w0 first Hf (Hg & Hact & Hv & Hs & (d & Hd & Hle) & Hw).
  unfold Upload, Upload_gated. rewrite Hg, Hf.
  assert (Hact' : negb (bool_decide (Action limit = PUT))
                  && negb (bool_decide (Action limit = PUT_REPAIR)) = false).
  { destruct Hact as [-> | ->]; reflexivity. }
  rewrite Hact', Hv. unfold Upload_monitored. rewrite Hs.
  unfold Upload_checked. rewrite Hd.
  destruct (Z.ltb_spec d (Limit limit)); [lia|].
  unfold Upload_metered, Upload_writing. rewrite Hw.
  unfold Upload_session. unfold Upload_begin in Hloop. rewrite Hloop.
  cbn [availableSpace withSpace orderSaved pieceWriter largestOrder].
  unfold CancelWithWiscKey.
  destruct (Z.ltb_spec (availableSpace st - len64 (Data ch))
              (ReportCapacityThreshold cfg)) as [Hlow | Hhigh].
  - split; [reflexivity|].
    destruct (orderSaved st1), (WriterCommitted (pieceWriter st1));
      cbn [snd fst blobs events emit setLive];
      rewrite ?saveOrder_blobs, ?saveOrder_events;
      (split; [reflexivity|]); intros _;
      cbn [blobs events emit setLive];
      rewrite <- !app_assoc, drop_app_length;
      rewrite !elem_of_app, !elem_of_cons; auto 10.
  - split; [reflexivity|].
    destruct (orderSaved st1), (WriterCommitted (pieceWriter st1));
      cbn [snd fst blobs events emit setLive];
      rewrite ?saveOrder_blobs, ?saveOrder_events;
      (split; [reflexivity|]); intros Hthr; lia.
Qed.

Lemma upload_space_accounting_witness :
  exists st : UploadState,
    Upload_run cramped (limitFor PUT 10) (Upload_begin (limitFor PUT 10) 2)
      twoOfThree = Some st
    /\ availableSpace st = 0
    /\ (Upload unlimited cramped idle
          (inr (Some (firstOf (limitFor PUT 10)))
           :: arrive twoOfThree ++ [inr (Some (upChunk 2 [Byte.x03]))])).1
       = Some outOfSpace
    /\ NotifyLowDisk
       ∈ drop (length (events idle))
           (events (Upload unlimited cramped idle
                      (inr (Some (firstOf (limitFor PUT 10)))
                       :: arrive twoOfThree
                          ++ [inr (Some (upChunk 2 [Byte.x03]))])).2).
Proof.
  eexists. split; [reflexivity|].
  assert (H1 : 0 <= 2 <= max_int64) by (unfold max_int64; lia).
  assert (H3 : len64 (concat (chunksOf twoOfThree)) <= max_int64)
    by (vm_compute; discriminate).
  destruct (upload_space_accounting cramped (limitFor PUT 10) 2 twoOfThree _
              H1 eq_refl H3) as (Ha & _ & Hrej).
  split; [exact Ha|].
  assert (Hlen : len64 [Byte.x03] <= max_int64) by (vm_compute; discriminate).
  assert (Hopens : opens unlimited cramped idle (limitFor PUT 10) 2).
  { unfold opens. repeat split; try reflexivity.
    - left. reflexivity.
    - exists 1000. split; [reflexivity | vm_compute; discriminate]. }
  destruct (Hrej (upChunk 2 [Byte.x03]) {| Offset := 2; Data := [Byte.x03] |}
              _ [] eq_refl Hlen eq_refl eq_refl) as [_ Hup].
  - vm_compute. discriminate.
  - vm_compute. reflexivity.
  - destruct (Hup unlimited idle (firstOf (limitFor PUT 10)) eq_refl Hopens)
      as (He & _ & Hn).
    split; [exact He|]. apply Hn. vm_compute. discriminate.
Defined.

(** ** The end of an upload *)

(** An upload that passes its preliminaries is its loop followed by its
    deferred calls. *)
Lemma Upload_unwinds (cfg : Config) (c : Collab) (w w1 : World)
    (first : PieceUploadRequest) (limit : OrderLimit) (space : Z)
    (stream : list (Recv PieceUploadRequest)) (err : option GoError)
    (st : UploadState) :
  UpLimit first = Some limit ->
  opens cfg c w limit space ->
  Upload_loop c limit (Upload_begin limit space) (Upload_entered c limit w)
    stream = (err, st, w1) ->
  Upload cfg c w (inr (Some first) :: stream)
  = (err, Upload_unwound cfg c limit err st w1).
Proof.
  intros Hf (Hg & Ha & Hv & Hs & (d & Hd & Hle) & Hw) Hl.
  unfold Upload, Upload_gated. rewrite Hg, Hf.
  assert (Hact : negb (bool_decide (Action limit = PUT))
                 && negb (bool_decide (Action limit = PUT_REPAIR)) = false).
  { destruct Ha as [-> | ->]; reflexivity. }
  rewrite Hact, Hv. unfold Upload_monitored. rewrite Hs.
  unfold Upload_checked. rewrite Hd.
  destruct (Z.ltb_spec d (Limit limit)); [lia|].
  unfold Upload_metered, Upload_writing. rewrite Hw.
  unfold Upload_session.
  unfold Upload_begin, Upload_entered in Hl. rewrite Hl.
  reflexivity.
Qed.

Lemma Upload_entered_events (c : Collab) (limit : OrderLimit) (w : World) :
  events (Upload_entered c limit w)
  = events w ++ [WasPinged (now c);
                 WriterOpened (SatelliteId limit) (PieceId limit)].
Proof. unfold Upload_entered. simpl. rewrite <- app_assoc. reflexivity. Qed.

(** The deferred calls leave the store alone, save the order unless the
    loop did, and cancel a writer that was not committed. *)
Lemma Upload_unwound_leaves (cfg : Config) (c : Collab) (limit : OrderLimit)
    (err : option GoError) (st : UploadState) (w1 : World) :
  blobs (Upload_unwound cfg c limit err st w1) = blobs w1
  /\ ordersQueue (Upload_unwound cfg c limit err st w1)
     = ordersQueue (if orderSaved st then w1
                    else saveOrder c limit (Some (largestOrder st)) w1)
  /\ exists ev,
       events (Upload_unwound cfg c limit err st w1) = events w1 ++ ev
       /\ (WriterCommitted (pieceWriter st) = false ->
           WriterCanceled (WriterSatellite (pieceWriter st))
             (WriterPiece (pieceWriter st)) ∈ ev)
       /\ UploadMeter (bucketOf err) (WriterSize (pieceWriter st)) ∈ ev.
Proof.
  unfold Upload_unwound, CancelWithWiscKey.
  set (w2 := if orderSaved st then w1
             else saveOrder c limit (Some (largestOrder st)) w1).
  assert (Hw2 : events w2 = events w1 /\ blobs w2 = blobs w1).
  { unfold w2. destruct (orderSaved st); [split; reflexivity|].
    split; [apply saveOrder_events | apply saveOrder_blobs]. }
  destruct Hw2 as [He2 Hb2].
  destruct (WriterCommitted (pieceWriter st)),
    (availableSpace st <? ReportCapacityThreshold cfg); simpl;
    rewrite Hb2, He2; (split; [reflexivity|]); (split; [reflexivity|]);
    rewrite <- ?app_assoc; eexists; (split; [reflexivity|]);
    (split; [intros Hc; try discriminate Hc|]);
    rewrite ?elem_of_app, ?elem_of_cons; auto 10.
Qed.

(** While the loop runs the writer is the one that was opened, not
    committed, and the order has not been saved. *)
Lemma Upload_run_writer (c : Collab) (limit : OrderLimit)
    (satellite piece space : Z) (ms : list PieceUploadRequest) :
  forall st : UploadState,
    Upload_run c limit
      (Upload_start (WriterWithWiscKey satellite piece) space) ms = Some st ->
    WriterSatellite (pieceWriter st) = satellite
    /\ WriterPiece (pieceWriter st) = piece
    /\ WriterCommitted (pieceWriter st) = false
    /\ orderSaved st = false.
Proof.
  induction ms as [|m ms IH] using rev_ind; intros st Hrun.
  - simpl in Hrun. simplify_eq. repeat split.
  - apply Upload_run_snoc in Hrun as (st0 & Hrun & Hm & _).
    pose proof (Upload_message_writer _ _ _ _ _ _ Hm) as (Hs1 & Hp1 & Hc1).
    pose proof (Upload_message_frame _ _ _ _ _ _ Hm) as Hsv.
    rewrite Hs1, Hp1, Hc1, Hsv. apply IH. assumption.
Qed.

(** A done whose hash the verifier refuses, or that declares another size
    than the writer's, is refused with the world as it was. *)
Lemma Upload_done_refused (c : Collab) (limit : OrderLimit) (done : PieceHash)
    (st : UploadState) (w : World) :
  VerifyPieceHash c limit done (hash c (WriterHashed (pieceWriter st)))
  <> None
  \/ PieceSize done <> WriterSize (pieceWriter st) ->
  Upload_done c limit done st w
  = (Some match VerifyPieceHash c limit done
                  (hash c (WriterHashed (pieceWriter st))) with
          | Some e => wrapped Internal e
          | None => sizeMismatch (PieceSize done) (WriterSize (pieceWriter st))
          end, st, w).
Proof.
  intros H. unfold Upload_done.
  destruct (VerifyPieceHash c limit done _) as [e|]; [reflexivity|].
  destruct H as [H | H]; [contradiction|].
  destruct (Z.eqb_spec (PieceSize done) (WriterSize (pieceWriter st)));
    [contradiction | reflexivity].
Qed.

(** A done is checked before anything is committed: when the verifier
    refuses the hash of the bytes written, the upload fails with that error
    wrapped as internal; when the hash passes and the done declares another
    size than the writer holds, it fails with invalid-argument.  Either way
    the store is as it was, the writer is canceled, and the largest order
    is still handed to the orders queue by the deferred call. *)
Theorem upload_done_checked (cfg : Config) (c : Collab) (w : World)
    (first : PieceUploadRequest) (limit : OrderLimit) (space : Z)
    (ms : list PieceUploadRequest) (m : PieceUploadRequest)
    (done : PieceHash) (st st1 : UploadState)
    (rest : list (Recv PieceUploadRequest)) :
  UpLimit first = Some limit ->
  opens cfg c w limit space ->
  Upload_run c limit (Upload_begin limit space) ms = Some st ->
  Upload_message c limit m st = (None, st1) ->
  UpDone m = Some done ->
  VerifyPieceHash c limit done (hash c (WriterHashed (pieceWriter st1)))
  <> None
  \/ PieceSize done <> WriterSize (pieceWriter st1) ->
  (Upload cfg c w (inr (Some first) :: arrive ms ++ inr (Some m) :: rest)).1
  = Some match VerifyPieceHash c limit done
                 (hash c (WriterHashed (pieceWriter st1))) with
         | Some e => wrapped Internal e
         | None =>
             sizeMismatch (PieceSize done) (WriterSize (pieceWriter st1))
         end
  /\ blobs (Upload cfg c w
              (inr (Some first) :: arrive ms ++ inr (Some m) :: rest)).2
     = blobs w
  /\ ordersQueue (Upload cfg c w
                    (inr (Some first) :: arrive ms ++ inr (Some m) :: rest)).2
     = ordersQueue (saveOrder c limit (Some (largestOrder st1)) w)
  /\ WriterCanceled (SatelliteId limit) (PieceId limit)
     ∈ drop (length (events w))
         (events (Upload cfg c w
                    (inr (Some first)
                     :: arrive ms ++ inr (Some m) :: rest)).2).
Proof.
  intros Hf Ho Hrun Hm Hd Hbad.
  assert (Hl : Upload_loop c limit (Upload_begin limit space)
                 (Upload_entered c limit w)
                 (arrive ms ++ inr (Some m) :: rest)
               = (Some match VerifyPieceHash c limit done
                               (hash c (WriterHashed (pieceWriter st1))) with
                       | Some e => wrapped Internal e
                       | None => sizeMismatch (PieceSize done)
                                   (WriterSize (pieceWriter st1))
                       end, st1, Upload_entered c limit w)).
  { rewrite (Upload_loop_run _ _ _ _ _ _ _ Hrun). simpl.
    rewrite Hm, Hd. apply Upload_done_refused. assumption. }
  rewrite (Upload_unwinds _ _ _ _ _ _ _ _ _ _ Hf Ho Hl).
  destruct (Upload_unwound_leaves cfg c limit
              (Some match VerifyPieceHash c limit done
                            (hash c (WriterHashed (pieceWriter st1))) with
                    | Some e => wrapped Internal e
                    | None => sizeMismatch (PieceSize done)
                                (WriterSize (pieceWriter st1))
                    end) st1 (Upload_entered c limit w))
    as (Hb & Hq & ev & Hev & Hcancel & _).
  pose proof (Upload_message_writer _ _ _ _ _ _ Hm) as (Hs1 & Hp1 & Hc1).
  pose proof (Upload_message_frame _ _ _ _ _ _ Hm) as Hsv.
  destruct (Upload_run_writer _ _ _ _ _ _ _ Hrun) as (Hs0 & Hp0 & Hc0 & Hsv0).
  assert (Hst : WriterSatellite (pieceWriter st1) = SatelliteId limit
                /\ WriterPiece (pieceWriter st1) = PieceId limit
                /\ WriterCommitted (pieceWriter st1) = false
                /\ orderSaved st1 = false)
    by (repeat split; congruence).
  destruct Hst as (Hsat & Hpiece & Hcom & Hsaved).
  cbn [fst snd]. split; [reflexivity|].
  split; [rewrite Hb; unfold Upload_entered; reflexivity|].
  split.
  - rewrite Hq, Hsaved. apply saveOrder_ext; reflexivity.
  - rewrite Hev, Upload_entered_events, <- app_assoc, drop_app_length.
    apply elem_of_app. right. rewrite <- Hsat, <- Hpiece.
    apply Hcancel. assumption.
Qed.

Lemma upload_done_checked_witness :
  (Upload unlimited quiet idle
     (inr (Some (firstOf (limitFor PUT 10)))
      :: arrive twoOfThree ++ [inr (Some (upDone 3 []))])).1
  = Some (sizeMismatch 3 2)
  /\ blobs (Upload unlimited quiet idle
              (inr (Some (firstOf (limitFor PUT 10)))
               :: arrive twoOfThree ++ [inr (Some (upDone 3 []))])).2
     = blobs idle
  /\ ordersQueue (Upload unlimited quiet idle
                    (inr (Some (firstOf (limitFor PUT 10)))
                     :: arrive twoOfThree ++ [inr (Some (upDone 3 []))])).2
     = ordersQueue (saveOrder quiet (limitFor PUT 10) (Some (orderOf 3)) idle)
  /\ WriterCanceled (SatelliteId (limitFor PUT 10)) (PieceId (limitFor PUT 10))
     ∈ drop (length (events idle))
         (events (Upload unlimited quiet idle
                    (inr (Some (firstOf (limitFor PUT 10)))
                     :: arrive twoOfThree ++ [inr (Some (upDone 3 []))])).2).
Proof.
  refine (upload_done_checked unlimited quiet idle
            (firstOf (limitFor PUT 10)) (limitFor PUT 10) 1000 twoOfThree
            (upDone 3 [])
            {| HashPieceId := 4; Hash := []; PieceSize := 3; Timestamp := 1;
               Signature := 6 |} _ _ [] eq_refl _ eq_refl eq_refl eq_refl _).
  - apply quiet_opens. left. reflexivity.
  - right. vm_compute. discriminate.
Defined.

(** ** What a successful upload stores and answers *)

Lemma concat_snoc (l : list bytes) (x : bytes) :
  concat (l ++ [x]) = concat l ++ x.
Proof. rewrite concat_app. simpl. rewrite app_nil_r. reflexivity. Qed.

(** The writer has hashed and counted the bytes of the stash. *)
Lemma Upload_message_written (c : Collab) (limit : OrderLimit)
    (m : PieceUploadRequest) (st st1 : UploadState) :
  Upload_message c limit m st = (None, st1) ->
  WriterHashed (pieceWriter st) = concat (chunkDataAll st) ->
  WriterSize (pieceWriter st) = len64 (concat (chunkDataAll st)) ->
  len64 (concat (chunkDataAll st1)) <= max_int64 ->
  WriterHashed (pieceWriter st1) = concat (chunkDataAll st1)
  /\ WriterSize (pieceWriter st1) = len64 (concat (chunkDataAll st1)).
Proof.
  intros H Hh Hs Hfit.
  apply Upload_message_accepted in H as (st2 & Ho & Hc).
  apply Upload_order_frame in Ho as (Hw & _ & Hd & _).
  destruct (UpChunk m) as [ch|] eqn:Hm.
  - destruct (Upload_chunk_written _ _ _ _ _ Hm Hc) as (_ & _ & Hw' & Hd').
    rewrite Hd', Hd, concat_snoc, len64_app in Hfit |- *.
    rewrite Hw', Hw. unfold WriteWithWiscKey.
    cbn [WriterHashed WriterSize]. rewrite Hh, Hs.
    pose proof (len64_nonneg (concat (chunkDataAll st))).
    pose proof (len64_nonneg (Data ch)).
    rewrite add64_exact by (unfold min_int64, max_int64 in *; lia).
    split; reflexivity.
  - rewrite (Upload_chunk_absent _ _ _ Hm) in Hc. simplify_eq.
    rewrite Hw, Hd. split; assumption.
Qed.

Lemma Upload_done_receipt (c : Collab) (limit : OrderLimit) (done : PieceHash)
    (st st' : UploadState) (w w' : World) :
  Upload_done c limit done st w = (None, st', w') ->
  VerifyPieceHash c limit done (hash c (WriterHashed (pieceWriter st))) = None
  /\ PieceSize done = WriterSize (pieceWriter st)
  /\ blobs w'
     = <[(WriterSatellite (pieceWriter st), WriterPiece (pieceWriter st)) :=
           {| PieceHeaderOf :=
                headerOf c limit done (WriterHashed (pieceWriter st));
              PieceContent := concat (chunkDataAll st) |}]> (blobs w)
  /\ exists ev,
       events w' = events w ++ ev
       /\ (SendAndCloseFails c = None ->
           SentAndClosed
             {| HashPieceId := PieceId limit;
                Hash := hash c (WriterHashed (pieceWriter st));
                PieceSize := WriterSize (pieceWriter st);
                Timestamp := now c;
                Signature :=
                  nodeSignature c
                    {| HashPieceId := PieceId limit;
                       Hash := hash c (WriterHashed (pieceWriter st));
                       PieceSize := WriterSize (pieceWriter st);
                       Timestamp := now c;
                       Signature := 0 |} |} ∈ ev)
       /\ (PieceExpiration limit <> 0 ->
           ExpirationSet (SatelliteId limit) (PieceId limit)
             (PieceExpiration limit) ∈ ev).
Proof.
  intros H. unfold Upload_done, CommitWithWiscKey in H.
  destruct (VerifyPieceHash c limit done _) as [e|] eqn:Hv; [discriminate|].
  destruct (Z.eqb_spec (PieceSize done) (WriterSize (pieceWriter st)))
    as [Hsz|]; [|discriminate].
  cbn [negb] in H.
  destruct (CommitFails c); [discriminate|].
  split; [reflexivity|]. split; [assumption|].
  destruct (Z.eqb_spec (PieceExpiration limit) 0) as [Hz | Hnz].
  - destruct (SignFails c); [discriminate|].
    destruct (SendAndCloseFails c) as [e|].
    + destruct (Is_EOF e); [|discriminate]. simplify_eq.
      cbn [blobs events]. rewrite saveOrder_blobs, saveOrder_events.
      split; [reflexivity|]. exists []. rewrite app_nil_r.
      split; [reflexivity|]. split; [discriminate | contradiction].
    + simplify_eq. cbn [blobs events emit].
      rewrite saveOrder_blobs, saveOrder_events.
      split; [reflexivity|]. eexists. split; [reflexivity|].
      split; [intros _; apply list_elem_of_singleton; reflexivity
             | contradiction].
  - destruct (SetExpirationFails c); [discriminate|].
    destruct (SignFails c); [discriminate|].
    destruct (SendAndCloseFails c) as [e|].
    + destruct (Is_EOF e); [|discriminate]. simplify_eq.
      cbn [blobs events emit]. rewrite saveOrder_blobs, saveOrder_events.
      split; [reflexivity|]. eexists. split; [reflexivity|].
      split; [discriminate
             | intros _; apply list_elem_of_singleton; reflexivity].
    + simplify_eq. cbn [blobs events emit].
      rewrite saveOrder_blobs, saveOrder_events.
      cbn [blobs events emit]. rewrite <- app_assoc.
      split; [reflexivity|]. eexists. split; [reflexivity|].
      split; intros _; rewrite elem_of_app, !list_elem_of_singleton; auto.
Qed.

Lemma len64_concat_app_le (l1 l2 : list bytes) :
  len64 (concat l1) <= len64 (concat (l1 ++ l2)).
Proof.
  rewrite concat_app, len64_app.
  pose proof (len64_nonneg (concat l2)). lia.
Qed.

Lemma Upload_loop_receipt (c : Collab) (limit : OrderLimit)
    (stream : list (Recv PieceUploadRequest)) :
  forall (st st' : UploadState) (w w' : World),
    Upload_loop c limit st w stream = (None, st', w') ->
    WriterHashed (pieceWriter st) = concat (chunkDataAll st) ->
    WriterSize (pieceWriter st) = len64 (concat (chunkDataAll st)) ->
    len64 (concat (chunkDataAll st ++ uploadedChunks stream)) <= max_int64 ->
    exists done,
      uploadedDone stream = Some done
      /\ VerifyPieceHash c limit done
           (hash c (concat (chunkDataAll st ++ uploadedChunks stream))) = None
      /\ PieceSize done
         = len64 (concat (chunkDataAll st ++ uploadedChunks stream))
      /\ blobs w'
         = <[(WriterSatellite (pieceWriter st), WriterPiece (pieceWriter st)) :=
               {| PieceHeaderOf :=
                    headerOf c limit done
                      (concat (chunkDataAll st ++ uploadedChunks stream));
                  PieceContent :=
                    concat (chunkDataAll st ++ uploadedChunks stream) |}]>
             (blobs w)
      /\ exists ev,
           events w' = events w ++ ev
           /\ (SendAndCloseFails c = None ->
               SentAndClosed
                 (receiptOf c limit
                    (concat (chunkDataAll st ++ uploadedChunks stream))) ∈ ev)
           /\ (PieceExpiration limit <> 0 ->
               ExpirationSet (SatelliteId limit) (PieceId limit)
                 (PieceExpiration limit) ∈ ev).
Proof.
  induction stream as [|r rest IH]; intros st st' w w' H Hh Hs Hfit;
    simpl in H.
  - discriminate.
  - destruct r as [e | [m|]]; [destruct (Is_EOF e); discriminate | |
                               discriminate].
    destruct (Upload_message c limit m st) as [[e|] st1] eqn:Hm;
      [discriminate|].
    pose proof (Upload_message_stash _ _ _ _ _ Hm) as (Hsat & Hpiece & Hd).
    cbn [uploadedChunks uploadedDone] in Hfit |- *.
    destruct (UpDone m) as [done|].
    + rewrite app_nil_r in Hfit |- *. rewrite <- Hd in Hfit |- *.
      destruct (Upload_message_written _ _ _ _ _ Hm Hh Hs Hfit) as [Hh1 Hs1].
      apply Upload_done_receipt in H
        as (Hv & Hsz & Hb & ev & Hev & Hsent & Hexp).
      exists done. rewrite Hh1 in Hv, Hb, Hsent. rewrite Hs1 in Hsz, Hsent.
      rewrite Hsat, Hpiece in Hb.
      repeat split; try assumption.
      exists ev. repeat split; assumption.
    + rewrite app_assoc in Hfit |- *. rewrite <- Hd in Hfit |- *.
      assert (Hfit1 : len64 (concat (chunkDataAll st1)) <= max_int64).
      { pose proof (len64_concat_app_le (chunkDataAll st1)
                      (uploadedChunks rest)). lia. }
      destruct (Upload_message_written _ _ _ _ _ Hm Hh Hs Hfit1) as [Hh1 Hs1].
      destruct (IH _ _ _ _ H Hh1 Hs1 Hfit)
        as (done & Hu & Hv & Hsz & Hb & Hev).
      exists done. rewrite Hsat, Hpiece in Hb.
      repeat split; assumption.
Qed.

(** An upload that returns nil passed everything that precedes its
    session. *)
Lemma Upload_nil_opens (cfg : Config) (c : Collab) (w : World)
    (first : PieceUploadRequest) (limit : OrderLimit)
    (stream : list (Recv PieceUploadRequest)) :
  UpLimit first = Some limit ->
  (Upload cfg c w (inr (Some first) :: stream)).1 = None ->
  exists space, opens cfg c w limit space.
Proof.
  intros Hf.
  destruct (Upload_opened_or_untouched cfg c w (inr (Some first) :: stream))
    as [_ | (first' & limit' & space & rest & Heq & Hf' & Ho)].
  - unfold Upload, Upload_gated. rewrite Hf.
    destruct (overloaded cfg _) eqn:Hg; [discriminate|].
    destruct (negb _ && negb _) eqn:Ha; [discriminate|].
    destruct (verifyOrderLimit c limit) eqn:Hv; [discriminate|].
    unfold Upload_monitored.
    destruct (AvailableSpace c) as [e|space] eqn:Hs; [discriminate|].
    unfold Upload_checked.
    destruct (StorageStatus c) as [e|diskFree] eqn:Hd; [discriminate|].
    destruct (Z.ltb_spec diskFree (Limit limit)); [discriminate|].
    unfold Upload_metered, Upload_writing.
    destruct (WriterFails c) eqn:Hw; [discriminate|].
    intros _. exists space. unfold opens. repeat split; try assumption.
    + apply andb_false_iff in Ha.
      destruct Ha as [Ha | Ha];
        apply negb_false_iff, bool_decide_eq_true in Ha;
        [left | right]; assumption.
    + exists diskFree. split; assumption.
  - intros _. simplify_eq. exists space. assumption.
Qed.

(** An upload that returns nil has received a done; the done declared the
    number of bytes received, and the verifier accepted it against the hash
    of those bytes.  The store holds under the limit's (satellite, piece)
    those bytes with a header made of that hash, the done's timestamp and
    signature and the limit; the answer sent, unless the peer was gone, is
    the node's signature over the piece id, that hash, that size and the
    time of signing; and the expiration of a limit that has one was handed
    to the store.  (For payloads whose lengths sum within int64.) *)
Theorem upload_receipt (cfg : Config) (c : Collab) (w w1 : World)
    (first : PieceUploadRequest) (limit : OrderLimit)
    (stream : list (Recv PieceUploadRequest)) :
  UpLimit first = Some limit ->
  Upload cfg c w (inr (Some first) :: stream) = (None, w1) ->
  len64 (concat (uploadedChunks stream)) <= max_int64 ->
  exists done,
    uploadedDone stream = Some done
    /\ PieceSize done = len64 (concat (uploadedChunks stream))
    /\ VerifyPieceHash c limit done
         (hash c (concat (uploadedChunks stream))) = None
    /\ blobs w1
       = <[(SatelliteId limit, PieceId limit) :=
             {| PieceHeaderOf :=
                  headerOf c limit done (concat (uploadedChunks stream));
                PieceContent := concat (uploadedChunks stream) |}]> (blobs w)
    /\ (SendAndCloseFails c = None ->
        SentAndClosed (receiptOf c limit (concat (uploadedChunks stream)))
        ∈ drop (length (events w)) (events w1))
    /\ (PieceExpiration limit <> 0 ->
        ExpirationSet (SatelliteId limit) (PieceId limit)
          (PieceExpiration limit)
        ∈ drop (length (events w)) (events w1)).
Proof.
  intros Hf Hup Hfit.
  destruct (Upload_nil_opens cfg c w first limit stream Hf) as [space Ho];
    [rewrite Hup; reflexivity|].
  destruct (Upload_loop c limit (Upload_begin limit space)
              (Upload_entered c limit w) stream) as [[err st] w'] eqn:Hl.
  rewrite (Upload_unwinds _ _ _ _ _ _ _ _ _ _ Hf Ho Hl) in Hup.
  injection Hup as -> <-.
  apply Upload_loop_receipt in Hl
    as (done & Hu & Hv & Hsz & Hb & ev & Hev & Hsent & Hexp);
    try reflexivity; [|exact Hfit].
  cbn [Upload_begin Upload_start chunkDataAll pieceWriter WriterWithWiscKey
       WriterSatellite WriterPiece app] in Hv, Hsz, Hb, Hsent.
  destruct (Upload_unwound_leaves cfg c limit None st w')
    as (Hb' & _ & ev2 & Hev2 & _).
  exists done. repeat split; try assumption.
  - rewrite Hb', Hb. reflexivity.
  - intros Hs. rewrite Hev2, Hev, Upload_entered_events, <- !app_assoc,
      drop_app_length, !elem_of_app. right. left. apply Hsent. assumption.
  - intros Hx. rewrite Hev2, Hev, Upload_entered_events, <- !app_assoc,
      drop_app_length, !elem_of_app. right. left. apply Hexp. assumption.
Qed.

Lemma upload_receipt_witness :
  exists done,
    uploadedDone uploadThree = Some done
    /\ PieceSize done = len64 (concat (uploadedChunks uploadThree))
    /\ VerifyPieceHash quiet (limitFor PUT 10) done
         (hash quiet (concat (uploadedChunks uploadThree))) = None
    /\ blobs (Upload unlimited quiet idle
                (inr (Some (firstOf (limitFor PUT 10))) :: uploadThree)).2
       = <[(SatelliteId (limitFor PUT 10), PieceId (limitFor PUT 10)) :=
             {| PieceHeaderOf :=
                  headerOf quiet (limitFor PUT 10) done
                    (concat (uploadedChunks uploadThree));
                PieceContent := concat (uploadedChunks uploadThree) |}]>
           (blobs idle)
    /\ (SendAndCloseFails quiet = None ->
        SentAndClosed
          (receiptOf quiet (limitFor PUT 10)
             (concat (uploadedChunks uploadThree)))
        ∈ drop (length (events idle))
            (events (Upload unlimited quiet idle
                       (inr (Some (firstOf (limitFor PUT 10)))
                        :: uploadThree)).2))
    /\ (PieceExpiration (limitFor PUT 10) <> 0 ->
        ExpirationSet (SatelliteId (limitFor PUT 10))
          (PieceId (limitFor PUT 10)) (PieceExpiration (limitFor PUT 10))
        ∈ drop (length (events idle))
            (events (Upload unlimited quiet idle
                       (inr (Some (firstOf (limitFor PUT 10)))
                        :: uploadThree)).2)).
Proof.
  apply (upload_receipt unlimited quiet idle _ (firstOf (limitFor PUT 10))
           (limitFor PUT 10) uploadThree eq_refl eq_refl).
  vm_compute. discriminate.
Defined.

(** ** Failures after the commit *)

Lemma Upload_done_committed (c : Collab) (limit : OrderLimit)
    (done : PieceHash) (st : UploadState) (w : World) :
  VerifyPieceHash c limit done (hash c (WriterHashed (pieceWriter st))) = None ->
  PieceSize done = WriterSize (pieceWriter st) ->
  CommitFails c = None ->
  exists st' w',
    Upload_done c limit done st w = (afterCommit c limit, st', w')
    /\ blobs w'
       = <[(WriterSatellite (pieceWriter st), WriterPiece (pieceWriter st)) :=
             {| PieceHeaderOf :=
                  headerOf c limit done (WriterHashed (pieceWriter st));
                PieceContent := concat (chunkDataAll st) |}]> (blobs w).
Proof.
  intros Hv Hsz Hc. unfold Upload_done, CommitWithWiscKey, afterCommit.
  rewrite Hv, Hsz, Z.eqb_refl, Hc. cbn [negb].
  destruct (PieceExpiration limit =? 0).
  - destruct (SignFails c); [eexists _, _; split; reflexivity|].
    destruct (SendAndCloseFails c) as [e|].
    + destruct (Is_EOF e); eexists _, _; (split; [reflexivity|]);
        cbn [blobs]; rewrite saveOrder_blobs; reflexivity.
    + eexists _, _. split; [reflexivity|].
      cbn [blobs emit]. rewrite saveOrder_blobs. reflexivity.
  - destruct (SetExpirationFails c); [eexists _, _; split; reflexivity|].
    destruct (SignFails c); [eexists _, _; split; reflexivity|].
    destruct (SendAndCloseFails c) as [e|].
    + destruct (Is_EOF e); eexists _, _; (split; [reflexivity|]);
        cbn [blobs]; rewrite saveOrder_blobs; reflexivity.
    + eexists _, _. split; [reflexivity|].
      cbn [blobs emit]. rewrite saveOrder_blobs. reflexivity.
Qed.

(** The commit of a piece is not undone by what follows it.  Once a done
    has passed the hash and size checks and the writer has committed, the
    upload returns the failure of the expiration, of the signature or of
    the response (wrapped as internal; an EOF on the response is success),
    and in every case the store holds the piece under the limit's
    (satellite, piece), and the largest order is handed to the orders queue
    once. *)
Theorem upload_commit_is_final (cfg : Config) (c : Collab) (w : World)
    (first : PieceUploadRequest) (limit : OrderLimit) (space : Z)
    (ms : list PieceUploadRequest) (m : PieceUploadRequest)
    (done : PieceHash) (st st1 : UploadState)
    (rest : list (Recv PieceUploadRequest)) :
  UpLimit first = Some limit ->
  opens cfg c w limit space ->
  Upload_run c limit (Upload_begin limit space) ms = Some st ->
  Upload_message c limit m st = (None, st1) ->
  UpDone m = Some done ->
  VerifyPieceHash c limit done (hash c (WriterHashed (pieceWriter st1)))
  = None ->
  PieceSize done = WriterSize (pieceWriter st1) ->
  CommitFails c = None ->
  (Upload cfg c w (inr (Some first) :: arrive ms ++ inr (Some m) :: rest)).1
  = afterCommit c limit
  /\ blobs (Upload cfg c w
              (inr (Some first) :: arrive ms ++ inr (Some m) :: rest)).2
     = <[(SatelliteId limit, PieceId limit) :=
           {| PieceHeaderOf :=
                headerOf c limit done (WriterHashed (pieceWriter st1));
              PieceContent := concat (chunkDataAll st1) |}]> (blobs w)
  /\ ordersQueue (Upload cfg c w
                    (inr (Some first) :: arrive ms ++ inr (Some m) :: rest)).2
     = ordersQueue (saveOrder c limit (Some (largestOrder st1)) w)
  /\ usage (Upload cfg c w
              (inr (Some first) :: arrive ms ++ inr (Some m) :: rest)).2
     = usage (saveOrder c limit (Some (largestOrder st1)) w).
Proof.
  intros Hf Ho Hrun Hm Hd Hv Hsz Hc.
  destruct (Upload_done_committed c limit done st1 (Upload_entered c limit w)
              Hv Hsz Hc) as (st' & w' & Hdone & Hb).
  assert (Hl : Upload_loop c limit (Upload_begin limit space)
                 (Upload_entered c limit w)
                 (arrive ms ++ inr (Some m) :: rest)
               = (afterCommit c limit, st', w')).
  { rewrite (Upload_loop_run _ _ _ _ _ _ _ Hrun). simpl.
    rewrite Hm, Hd. exact Hdone. }
  pose proof (Upload_message_writer _ _ _ _ _ _ Hm) as (Hs1 & Hp1 & _).
  pose proof (Upload_message_frame _ _ _ _ _ _ Hm) as Hsv.
  destruct (Upload_run_writer _ _ _ _ _ _ _ Hrun) as (Hs0 & Hp0 & _ & Hsv0).
  apply Upload_done_persist in Hdone as [Hlarge Hq]; [|congruence].
  rewrite (Upload_unwinds _ _ _ _ _ _ _ _ _ _ Hf Ho Hl).
  destruct (Upload_unwound_leaves cfg c limit (afterCommit c limit) st' w')
    as (Hb' & Hq' & _).
  cbn [fst snd]. split; [reflexivity|].
  split; [rewrite Hb', Hb, Hs1, Hp1, Hs0, Hp0; reflexivity|].
  assert (Hsaved : ordersQueue (if orderSaved st' then w'
                                else saveOrder c limit
                                       (Some (largestOrder st')) w')
                   = ordersQueue (saveOrder c limit
                                    (Some (largestOrder st1)) w)
                   /\ usage (if orderSaved st' then w'
                             else saveOrder c limit
                                    (Some (largestOrder st')) w')
                      = usage (saveOrder c limit
                                 (Some (largestOrder st1)) w)).
  { destruct Hq as [(Hs & Hq1 & Hu1) | (Hs & Hq1 & Hu1)]; rewrite Hs, ?Hlarge.
    - apply saveOrder_ext; [rewrite Hq1 | rewrite Hu1]; reflexivity.
    - rewrite Hq1, Hu1. apply saveOrder_ext; reflexivity. }
  split; [rewrite Hq'; apply Hsaved|].
  unfold Upload_unwound, CancelWithWiscKey.
  destruct (WriterCommitted (pieceWriter st')),
    (availableSpace st' <? ReportCapacityThreshold cfg); simpl;
    apply Hsaved.
Qed.

Lemma upload_commit_is_final_witness :
  (Upload unlimited quiet idle
     (inr (Some (firstOf (limitFor PUT 10)))
      :: arrive twoOfThree ++ [inr (Some (upDone 2 []))])).1
  = afterCommit quiet (limitFor PUT 10)
  /\ blobs (Upload unlimited quiet idle
              (inr (Some (firstOf (limitFor PUT 10)))
               :: arrive twoOfThree ++ [inr (Some (upDone 2 []))])).2
     = <[(SatelliteId (limitFor PUT 10), PieceId (limitFor PUT 10)) :=
           {| PieceHeaderOf :=
                headerOf quiet (limitFor PUT 10)
                  {| HashPieceId := 4; Hash := []; PieceSize := 2;
                     Timestamp := 1; Signature := 6 |}
                  [Byte.x01; Byte.x02];
              PieceContent := concat [[Byte.x01; Byte.x02]] |}]> (blobs idle)
  /\ ordersQueue (Upload unlimited quiet idle
                    (inr (Some (firstOf (limitFor PUT 10)))
                     :: arrive twoOfThree ++ [inr (Some (upDone 2 []))])).2
     = ordersQueue (saveOrder quiet (limitFor PUT 10) (Some (orderOf 3)) idle)
  /\ usage (Upload unlimited quiet idle
              (inr (Some (firstOf (limitFor PUT 10)))
               :: arrive twoOfThree ++ [inr (Some (upDone 2 []))])).2
     = usage (saveOrder quiet (limitFor PUT 10) (Some (orderOf 3)) idle).
Proof.
  refine (upload_commit_is_final unlimited quiet idle
            (firstOf (limitFor PUT 10)) (limitFor PUT 10) 1000 twoOfThree
            (upDone 2 [])
            {| HashPieceId := 4; Hash := []; PieceSize := 2; Timestamp := 1;
               Signature := 6 |} _ _ [] eq_refl _ eq_refl eq_refl eq_refl
            eq_refl eq_refl eq_refl).
  apply quiet_opens. left. reflexivity.
Defined.

(** ** The leading frame of a repair download *)

Lemma Download_reading_repair (c : Collab) (limit : OrderLimit)
    (chunk : DownloadChunk) (p : Piece) (w w' : World)
    (stream : list (Recv PieceDownloadRequest)) (turns : list Turn)
    (out : Outcome) :
  Action limit = GET_REPAIR ->
  GetHashAndLimitFails c = None ->
  SendHashFails c = None ->
  Download_reading c limit chunk p w stream turns = (out, w') ->
  exists rs : list PieceDownloadResponse,
    sent w'
    = sent w ++ RespHashAndLimit (GetHashAndLimitWithWiscKey limit p).1
                  (GetHashAndLimitWithWiscKey limit p).2 :: rs.
Proof.
  intros Ha Hg Hs H. unfold Download_reading in H.
  rewrite Ha, Hg, Hs in H.
  rewrite bool_decide_eq_true_2 in H by reflexivity.
  destruct (GetHashAndLimitWithWiscKey limit p) as [pieceHash orderLimit].
  cbn [fst snd].
  destruct (ReaderSize p <? add64 (ChunkOffset chunk) (ChunkSize chunk)).
  { simplify_eq. exists []. reflexivity. }
  destruct (Download_sender c limit p chunk _ stream turns) as [out2 w2] eqn:Hsend.
  assert (Hgrow : exists new, sent w2
                              = (sent w ++ [RespHashAndLimit pieceHash
                                              orderLimit]) ++ new).
  { unfold Download_sender in Hsend.
    destruct (ReadFails c);
      [simplify_eq; exists []; rewrite app_nil_r; reflexivity|].
    apply Download_send_grows in Hsend. exact Hsend. }
  destruct Hgrow as [new Hgrow]. rewrite <- app_assoc in Hgrow.
  destruct out2 as [sendErr|]; [|simplify_eq; exists new; exact Hgrow].
  destruct (Download_receiver c limit w2 stream) as [[recvErr l] w3] eqn:Hr.
  apply Download_receiver_persist in Hr. simplify_eq.
  exists new.
  rewrite (proj1 (proj2 (proj2 (proj2 (saveOrder_frame _ _ _ _))))).
  exact Hgrow.
Qed.

(** A repair download of a piece that an upload has stored sends, before
    any of the piece, a frame with the hash of the uploaded bytes under the
    uplink's timestamp and signature, and the order-limit of the upload. *)
Theorem repair_download_returns_upload (cfg : Config) (cu cd : Collab)
    (w0 w1 : World) (ufirst : PieceUploadRequest) (ulimit : OrderLimit)
    (ustream : list (Recv PieceUploadRequest))
    (dfirst : PieceDownloadRequest) (dlimit : OrderLimit)
    (chunk : DownloadChunk)
    (dstream : list (Recv PieceDownloadRequest)) (turns : list Turn) :
  UpLimit ufirst = Some ulimit ->
  Upload cfg cu w0 (inr (Some ufirst) :: ustream) = (None, w1) ->
  len64 (concat (uploadedChunks ustream)) <= max_int64 ->
  DownLimit dfirst = Some dlimit ->
  DownChunk dfirst = Some chunk ->
  SatelliteId dlimit = SatelliteId ulimit ->
  PieceId dlimit = PieceId ulimit ->
  Action dlimit = GET_REPAIR ->
  ChunkSize chunk <= Limit dlimit ->
  verifyOrderLimit cd dlimit = None ->
  ReaderFails cd = None ->
  GetHashAndLimitFails cd = None ->
  SendHashFails cd = None ->
  exists (done : PieceHash) (rs : list PieceDownloadResponse),
    uploadedDone ustream = Some done
    /\ responsesOf w1
         (Download cd w1 (inr (Some dfirst) :: dstream) turns).2
       = RespHashAndLimit
           {| HashPieceId := PieceId dlimit;
              Hash := hash cu (concat (uploadedChunks ustream));
              PieceSize := len64 (concat (uploadedChunks ustream));
              Timestamp := Timestamp done;
              Signature := Signature done |} ulimit :: rs.
Proof.
  intros Hu Hup Hfit Hl Hc Hsat Hpiece Ha Hsz Hv Hr Hg Hs.
  destruct (Upload_nil_opens cfg cu w0 ufirst ulimit ustream Hu)
    as [space Ho]; [rewrite Hup; reflexivity|].
  destruct (Upload_loop cu ulimit (Upload_begin ulimit space)
              (Upload_entered cu ulimit w0) ustream) as [[err st] w'] eqn:Hloop.
  rewrite (Upload_unwinds _ _ _ _ _ _ _ _ _ _ Hu Ho Hloop) in Hup.
  injection Hup as Herr Hw1. subst err.
  apply Upload_loop_receipt in Hloop as (done & Hdone & _ & _ & Hb & _);
    try reflexivity; [|exact Hfit].
  cbn [Upload_begin Upload_start chunkDataAll pieceWriter WriterWithWiscKey
       WriterSatellite WriterPiece app] in Hb.
  rewrite <- (proj1 (Upload_unwound_leaves cfg cu ulimit None st w')), Hw1
    in Hb.
  exists done.
  assert (Hp : blobs w1 !! (SatelliteId dlimit, PieceId dlimit)
               = Some {| PieceHeaderOf :=
                           headerOf cu ulimit done
                             (concat (uploadedChunks ustream));
                         PieceContent := concat (uploadedChunks ustream) |}).
  { rewrite Hb, Hsat, Hpiece. apply lookup_insert_eq. }
  unfold responsesOf, Download, Download_counted. rewrite Hl, Hc.
  unfold isGetAction. rewrite Ha. cbn [bool_decide negb orb].
  rewrite (bool_decide_eq_false_2 (GET_REPAIR = GET)) by discriminate.
  rewrite (bool_decide_eq_true_2 (GET_REPAIR = GET_REPAIR)) by reflexivity.
  cbn [negb orb].
  destruct (Z.ltb_spec (Limit dlimit) (ChunkSize chunk)); [lia|].
  rewrite Hv. unfold Download_metered, ReaderWithWiscKey. rewrite Hr.
  cbn [blobs emit setLive]. rewrite Hp.
  destruct (Download_reading cd dlimit chunk _ _ dstream turns)
    as [out w2] eqn:Hread.
  apply Download_reading_repair in Hread as [rs Hsent]; try assumption.
  exists rs. split; [exact Hdone|]. cbn [sent emit setLive] in Hsent.
  destruct out; cbn [snd sent emit setLive]; rewrite Hsent, drop_app_length;
    reflexivity.
Qed.

Lemma repair_download_returns_upload_witness :
  exists (done : PieceHash) (rs : list PieceDownloadResponse),
    uploadedDone uploadThree = Some done
    /\ responsesOf
         (Upload unlimited quiet idle
            (inr (Some (firstOf (limitFor PUT 10))) :: uploadThree)).2
         (Download quiet
            (Upload unlimited quiet idle
               (inr (Some (firstOf (limitFor PUT 10))) :: uploadThree)).2
            [inr (Some (firstDown (limitFor GET_REPAIR 10) 0 3));
             inr (Some (downOrder 3))] [turnAfter 1]).2
       = RespHashAndLimit
           {| HashPieceId := PieceId (limitFor GET_REPAIR 10);
              Hash := hash quiet (concat (uploadedChunks uploadThree));
              PieceSize := len64 (concat (uploadedChunks uploadThree));
              Timestamp := Timestamp done;
              Signature := Signature done |} (limitFor PUT 10) :: rs.
Proof.
  refine (repair_download_returns_upload unlimited quiet quiet idle _
            (firstOf (limitFor PUT 10)) (limitFor PUT 10) uploadThree
            (firstDown (limitFor GET_REPAIR 10) 0 3) (limitFor GET_REPAIR 10)
            {| ChunkOffset := 0; ChunkSize := 3 |}
            [inr (Some (downOrder 3))] [turnAfter 1]
            eq_refl eq_refl _ eq_refl eq_refl eq_refl eq_refl eq_refl _
            eq_refl eq_refl eq_refl eq_refl).
  - vm_compute. discriminate.
  - vm_compute. discriminate.
Defined.

(** ** The chunks a download sends *)

(** The sending loop does not step outside the piece. *)
Lemma Download_send_bounds (produces : nat -> Throttle) (pieceData : bytes)
    (turns : list Turn) :
  forall (currentOffset unsentAmount taken : Z) (received : nat)
         (w w' : World) (out : Outcome),
    0 <= currentOffset ->
    currentOffset + unsentAmount <= len64 pieceData ->
    currentOffset + unsentAmount <= max_int64 ->
    Download_send produces pieceData currentOffset unsentAmount taken
      received w turns = (out, w') ->
    out <> Panicked
    /\ exists new : list PieceDownloadResponse,
         sent w' = sent w ++ new
         /\ consecutive currentOffset new
         /\ Forall sizedChunk new
         /\ len64 (sentBytes new) <= Z.max 0 unsentAmount.
Proof.
  assert (Hstay : forall (w : World) (off un : Z) (e : option GoError),
            Returned e <> Panicked
            /\ exists new : list PieceDownloadResponse,
                 sent w = sent w ++ new
                 /\ consecutive off new
                 /\ Forall sizedChunk new
                 /\ len64 (sentBytes new) <= Z.max 0 un).
  { intros w off un e. split; [discriminate|]. exists [].
    rewrite app_nil_r. repeat split; [constructor|].
    unfold sentBytes, len64. simpl. lia. }
  induction turns as [|t rest IH];
    intros off un tk rc w w' out Hoff Hend Hmax H.
  - simpl in H. destruct (0 <? un); simplify_eq; apply Hstay.
  - rewrite Download_send_cons in H.
    destruct (Z.ltb_spec 0 un) as [Hpos|]; [|simplify_eq; apply Hstay].
    destruct (ConsumeOrWait _ _) as [[e|g]|] eqn:Hc;
      [simplify_eq; apply Hstay | | apply IH in H; assumption].
    apply ConsumeOrWait_grants in Hc as (_ & Hav & Hg).
    rewrite min_spec in Hg.
    assert (Hgrant : 1 <= g <= un /\ g <= maximumChunkSize)
      by (unfold maximumChunkSize in *; lia).
    clear Hg Hav.
    rewrite (add64_exact off g), (sub64_exact un g) in H
      by (unfold min_int64, max_int64 in *; lia).
    unfold slice in H.
    destruct (Z.leb_spec 0 off); [|lia].
    destruct (Z.leb_spec off (off + g)); [|lia].
    destruct (Z.leb_spec (off + g) (len64 pieceData)); [|lia].
    cbn [andb] in H.
    destruct (SendFails t) as [e|].
    { destruct (Is_EOF e); simplify_eq; apply Hstay. }
    apply IH in H as (Hout & new & Hsent & Hcons & Hsized & Hlen); try lia.
    split; [exact Hout|].
    set (data := take (Z.to_nat (off + g - off))
                   (drop (Z.to_nat off) pieceData)) in *.
    assert (Hdata : len64 data = g).
    { unfold data, len64 in *. rewrite length_take, length_drop. lia. }
    exists (RespChunk off data :: new).
    split; [rewrite Hsent; simpl; rewrite <- app_assoc; reflexivity|].
    split; [simpl; rewrite Hdata; split; [reflexivity | exact Hcons]|].
    split.
    + constructor; [|exact Hsized]. simpl. rewrite Hdata.
      unfold maximumChunkSize in *. lia.
    + rewrite sentBytes_cons, len64_app, Hdata. lia.
Qed.

Lemma Download_reading_bounds (c : Collab) (limit : OrderLimit)
    (chunk : DownloadChunk) (p : Piece) (w w' : World)
    (stream : list (Recv PieceDownloadRequest)) (turns : list Turn)
    (out : Outcome) :
  0 <= ChunkOffset chunk ->
  min_int64 <= ChunkSize chunk ->
  ChunkOffset chunk + ChunkSize chunk <= max_int64 ->
  Download_reading c limit chunk p w stream turns = (out, w') ->
  out <> Panicked
  /\ exists frame new : list PieceDownloadResponse,
       sent w' = sent w ++ frame ++ new
       /\ (frame = []
           \/ Action limit = GET_REPAIR
              /\ exists h l, frame = [RespHashAndLimit h l])
       /\ consecutive (ChunkOffset chunk) new
       /\ Forall sizedChunk new
       /\ len64 (sentBytes new) <= Z.max 0 (ChunkSize chunk).
Proof.
  intros Hoff Hmin Hmax H. unfold Download_reading in H.
  assert (Hnone : len64 (sentBytes []) <= Z.max 0 (ChunkSize chunk)).
  { unfold sentBytes, len64. simpl. lia. }
  assert (Hgo : forall (w1 : World) (frame : list PieceDownloadResponse),
            sent w1 = sent w ++ frame ->
            (if ReaderSize p <? add64 (ChunkOffset chunk) (ChunkSize chunk)
             then (Returned (Some (status InvalidArgument
                "requested more data than available, requesting=%v available=%v"
                [add64 (ChunkOffset chunk) (ChunkSize chunk); ReaderSize p])),
                   w1)
             else match Download_sender c limit p chunk w1 stream turns with
                  | (Panicked, w2) => (Panicked, w2)
                  | (Returned sendErr, w2) =>
                      let '(recvErr, _, w3) :=
                        Download_receiver c limit w2 stream in
                      (Returned (Wrap Internal (Combine sendErr recvErr)), w3)
                  end) = (out, w') ->
            out <> Panicked
            /\ exists new : list PieceDownloadResponse,
                 sent w' = sent w ++ frame ++ new
                 /\ consecutive (ChunkOffset chunk) new
                 /\ Forall sizedChunk new
                 /\ len64 (sentBytes new) <= Z.max 0 (ChunkSize chunk)).
  { intros w1 frame Hw1 H1.
    rewrite add64_exact in H1 by (unfold min_int64, max_int64 in *; lia).
    destruct (Z.ltb_spec (ReaderSize p)
                (ChunkOffset chunk + ChunkSize chunk)).
    { simplify_eq. split; [discriminate|]. exists [].
      rewrite app_nil_r. repeat split; [assumption | constructor | assumption]. }
    destruct (Download_sender c limit p chunk w1 stream turns) as [out2 w2] eqn:Hs.
    assert (Hsend : out2 <> Panicked
                    /\ exists new : list PieceDownloadResponse,
                         sent w2 = sent w1 ++ new
                         /\ consecutive (ChunkOffset chunk) new
                         /\ Forall sizedChunk new
                         /\ len64 (sentBytes new)
                            <= Z.max 0 (ChunkSize chunk)).
    { unfold Download_sender in Hs. destruct (ReadFails c).
      - simplify_eq. split; [discriminate|]. exists [].
        rewrite app_nil_r. repeat split; [constructor | assumption].
      - eapply Download_send_bounds; [exact Hoff | | exact Hmax | exact Hs].
        unfold ReaderSize in *. lia. }
    destruct Hsend as (Hout & new & Hsent & Hrest).
    destruct out2 as [sendErr|]; [|contradiction].
    destruct (Download_receiver c limit w2 stream) as [[recvErr l] w3] eqn:Hr.
    apply Download_receiver_persist in Hr. simplify_eq.
    split; [discriminate|]. exists new.
    rewrite (proj1 (proj2 (proj2 (proj2 (saveOrder_frame _ _ _ _))))).
    rewrite Hsent, Hw1, <- app_assoc. split; [reflexivity | exact Hrest]. }
  destruct (bool_decide (Action limit = GET_REPAIR)) eqn:Ha.
  - apply bool_decide_eq_true in Ha.
    assert (Hfail : forall e : GoError,
              Returned (Some e) <> Panicked
              /\ exists frame new : list PieceDownloadResponse,
                   sent w = sent w ++ frame ++ new
                   /\ (frame = []
                       \/ Action limit = GET_REPAIR
                          /\ exists h l, frame = [RespHashAndLimit h l])
                   /\ consecutive (ChunkOffset chunk) new
                   /\ Forall sizedChunk new
                   /\ len64 (sentBytes new) <= Z.max 0 (ChunkSize chunk)).
    { intros e. split; [discriminate|]. exists [], []. rewrite app_nil_r.
      repeat split; [left; reflexivity | constructor | assumption]. }
    destruct (GetHashAndLimitFails c); [simplify_eq; apply Hfail|].
    destruct (GetHashAndLimitWithWiscKey limit p) as [pieceHash orderLimit].
    destruct (SendHashFails c); [simplify_eq; apply Hfail|].
    apply (Hgo _ [RespHashAndLimit pieceHash orderLimit]) in H;
      [|reflexivity].
    destruct H as (Hout & new & Hrest). split; [exact Hout|].
    exists [RespHashAndLimit pieceHash orderLimit], new.
    destruct Hrest as (Hsent & Hrest). split; [exact Hsent|].
    split; [|exact Hrest]. right. split; [exact Ha|].
    exists pieceHash, orderLimit. reflexivity.
  - apply (Hgo _ []) in H; [|rewrite app_nil_r; reflexivity].
    destruct H as (Hout & new & Hsent & Hrest). split; [exact Hout|].
    exists [], new. split; [exact Hsent|].
    split; [left; reflexivity | exact Hrest].
Qed.

(** A download whose first message carries a limit and a chunk with an
    offset that is not negative does not panic, whatever the stream and the
    turns of the sending task, and what it sends, after the leading frame
    of a repair, are data chunks of at least one byte and at most 1 MiB
    each, the first at the offset asked for and each where the one before
    it ended, of no more bytes together than were asked for.  (For an
    offset and a size whose sum is within int64.) *)
Theorem download_chunks_in_bounds (c : Collab) (w : World)
    (first : PieceDownloadRequest) (limit : OrderLimit)
    (chunk : DownloadChunk)
    (stream : list (Recv PieceDownloadRequest)) (turns : list Turn) :
  DownLimit first = Some limit ->
  DownChunk first = Some chunk ->
  0 <= ChunkOffset chunk ->
  min_int64 <= ChunkSize chunk ->
  ChunkOffset chunk + ChunkSize chunk <= max_int64 ->
  (Download c w (inr (Some first) :: stream) turns).1 <> Panicked
  /\ exists frame new : list PieceDownloadResponse,
       responsesOf w (Download c w (inr (Some first) :: stream) turns).2
       = frame ++ new
       /\ (frame = []
           \/ Action limit = GET_REPAIR
              /\ exists h l, frame = [RespHashAndLimit h l])
       /\ consecutive (ChunkOffset chunk) new
       /\ Forall sizedChunk new
       /\ len64 (sentBytes new) <= Z.max 0 (ChunkSize chunk).
Proof.
  intros Hl Hc Hoff Hmin Hmax.
  assert (Hfail : forall e : GoError,
            Returned (Some e) <> Panicked
            /\ exists frame new : list PieceDownloadResponse,
                 drop (length (sent w)) (sent w) = frame ++ new
                 /\ (frame = []
                     \/ Action limit = GET_REPAIR
                        /\ exists h l, frame = [RespHashAndLimit h l])
                 /\ consecutive (ChunkOffset chunk) new
                 /\ Forall sizedChunk new
                 /\ len64 (sentBytes new) <= Z.max 0 (ChunkSize chunk)).
  { intros e. split; [discriminate|]. exists [], [].
    rewrite drop_all. repeat split; [left; reflexivity | constructor |].
    unfold sentBytes, len64. simpl. lia. }
  unfold responsesOf, Download, Download_counted. rewrite Hl, Hc.
  destruct (negb (isGetAction (Action limit))); [apply Hfail|].
  destruct (Limit limit <? ChunkSize chunk); [apply Hfail|].
  destruct (verifyOrderLimit c limit); [apply Hfail|].
  unfold Download_metered.
  destruct (ReaderWithWiscKey c (SatelliteId limit) (PieceId limit) _)
    as [e|p]; [apply Hfail|].
  destruct (Download_reading c limit chunk p _ stream turns)
    as [out w1] eqn:Hr.
  apply Download_reading_bounds in Hr
    as (Hout & frame & new & Hsent & Hrest); try assumption.
  destruct out as [err|]; [|contradiction].
  split; [discriminate|]. exists frame, new.
  cbn [snd sent emit setLive] in Hsent |- *.
  rewrite Hsent, drop_app_length. split; [reflexivity | exact Hrest].
Qed.

Lemma download_chunks_in_bounds_witness :
  (Download quiet stocked
     [inr (Some (firstDown (limitFor GET 10) 0 3)); inr (Some (downOrder 3))]
     [turnAfter 1]).1 <> Panicked
  /\ exists frame new : list PieceDownloadResponse,
       responsesOf stocked
         (Download quiet stocked
            [inr (Some (firstDown (limitFor GET 10) 0 3));
             inr (Some (downOrder 3))] [turnAfter 1]).2
       = frame ++ new
       /\ (frame = []
           \/ Action (limitFor GET 10) = GET_REPAIR
              /\ exists h l, frame = [RespHashAndLimit h l])
       /\ consecutive 0 new
       /\ Forall sizedChunk new
       /\ len64 (sentBytes new) <= Z.max 0 3.
Proof.
  apply (download_chunks_in_bounds quiet stocked
           (firstDown (limitFor GET 10) 0 3) (limitFor GET 10)
           {| ChunkOffset := 0; ChunkSize := 3 |}
           [inr (Some (downOrder 3))] [turnAfter 1]
           eq_refl eq_refl).
  - simpl. lia.
  - vm_compute. discriminate.
  - vm_compute. discriminate.
Defined.

(** The offset of the chunk asked for is checked from above only (line
    549): a download with a negative offset and a positive size within the
    limit passes every check, and the sending task panics on the slice
    expression at its first turn once the receiving loop has verified
    orders of a positive amount. *)
Theorem download_negative_offset_panics (c : Collab) (w : World)
    (first : PieceDownloadRequest) (limit : OrderLimit)
    (chunk : DownloadChunk) (p : Piece)
    (ms : list PieceDownloadRequest)
    (rest : list (Recv PieceDownloadRequest)) (largest : Order)
    (t : Turn) (turns : list Turn) :
  DownLimit first = Some limit ->
  DownChunk first = Some chunk ->
  reads c w limit chunk p ->
  ReadFails c = None ->
  ChunkOffset chunk < 0 ->
  0 < ChunkSize chunk ->
  bounded c limit ->
  Download_run c limit Order_zero ms = Some largest ->
  0 < Amount largest ->
  Received t = length ms ->
  (Download c w (inr (Some first) :: arrive ms ++ rest) (t :: turns)).1
  = Panicked.
Proof.
  intros Hl Hc (Ha & Hsz & Hv & Hr & Hb & Hrep & Hfit) Hread Hneg Hpos
    Hver Hrun Hpaid Hturn.
  unfold Download, Download_counted. rewrite Hl, Hc, Ha. simpl negb. cbv iota.
  destruct (Z.ltb_spec (Limit limit) (ChunkSize chunk)); [lia|].
  rewrite Hv. unfold Download_metered, ReaderWithWiscKey. rewrite Hr.
  simpl blobs. rewrite Hb. unfold Download_reading.
  assert (Hsend : forall w1 : World,
            Download_sender c limit p chunk w1 (arrive ms ++ rest)
              (t :: turns)
            = (Panicked, w1)).
  { intros w1. unfold Download_sender. rewrite Hread, Download_send_cons.
    destruct (Z.ltb_spec 0 (ChunkSize chunk)); [|lia].
    change (0 + Received t)%nat with (Received t). rewrite Hturn.
    destruct (Download_produces_running c limit ms rest largest Hver Hrun)
      as [Halive Hfinal].
    destruct (Halive (length ms)) as (Hf & Hav); [lia|].
    unfold ConsumeOrWait, consumed. cbn [failedWith available]. rewrite Hf.
    rewrite sub64_exact by (unfold min_int64, max_int64 in *; lia).
    destruct (Z.ltb_spec 0
                (available
                   (Download_produces c limit (arrive ms ++ rest)
                      (length ms)) - 0)); [|lia].
    unfold slice.
    destruct (Z.leb_spec 0 (ChunkOffset chunk)); [lia|]. reflexivity. }
  destruct (bool_decide (Action limit = GET_REPAIR)) eqn:Hrepair.
  - apply bool_decide_eq_true in Hrepair. destruct (Hrep Hrepair) as [-> ->].
    destruct (GetHashAndLimitWithWiscKey limit p) as [pieceHash orderLimit].
    destruct (Z.ltb_spec (ReaderSize p)
                (add64 (ChunkOffset chunk) (ChunkSize chunk))); [lia|].
    rewrite Hsend. reflexivity.
  - destruct (Z.ltb_spec (ReaderSize p)
                (add64 (ChunkOffset chunk) (ChunkSize chunk))); [lia|].
    rewrite Hsend. reflexivity.
Qed.

Lemma download_negative_offset_panics_witness :
  (Download quiet stocked
     [inr (Some (firstDown (limitFor GET 10) (-1) 1));
      inr (Some (downOrder 1))]
     [turnAfter 1]).1 = Panicked.
Proof.
  apply (download_negative_offset_panics quiet stocked
           (firstDown (limitFor GET 10) (-1) 1) (limitFor GET 10)
           {| ChunkOffset := -1; ChunkSize := 1 |} threeBytes
           [downOrder 1] [] (orderOf 1) (turnAfter 1) []
           eq_refl eq_refl).
  - unfold reads. repeat apply conj; try reflexivity.
    + simpl. lia.
    + intros H. discriminate H.
    + vm_compute. discriminate.
  - reflexivity.
  - simpl. lia.
  - simpl. lia.
  - apply quiet_bounded. vm_compute. discriminate.
  - reflexivity.
  - simpl. lia.
  - reflexivity.
Defined.

(** ** The tokens a download produces *)

(** With a verifier that accepts no order below the previous amount (and
    none above int64), the token counts the receiving loop of a download
    hands to the throttle, one for every order it verifies and none of them
    negative, add up to the amount of the largest order; the throttle never
    holds more than that amount, and the download sends, whatever the turns
    of the sending task, no more bytes of the piece than that amount: the
    sending task is never granted more bytes than the orders received pay
    for. *)
Theorem download_tokens_match_orders (c : Collab) (limit : OrderLimit)
    (stream : list (Recv PieceDownloadRequest)) (err : option GoError)
    (largest : Order) (produced : list Z) :
  bounded c limit ->
  Download_loop c limit Order_zero [] stream = (err, largest, produced) ->
  total produced = Amount largest
  /\ Forall (fun n => 0 <= n) produced
  /\ length produced = length (Download_verified c limit Order_zero stream)
  /\ (forall received : nat,
        0 <= available (Download_produces c limit stream received)
          <= Amount largest)
  /\ (forall (w : World) (first : PieceDownloadRequest)
             (chunk : DownloadChunk) (turns : list Turn),
        DownLimit first = Some limit ->
        DownChunk first = Some chunk ->
        len64 (sentBytes
                 (responsesOf w
                    (Download c w (inr (Some first) :: stream) turns).2))
        <= Amount largest).
Proof.
  intros Hver H.
  assert (Hlargest : (Download_loop c limit Order_zero [] stream).1.2
                     = largest) by (rewrite H; reflexivity).
  apply (Download_loop_tokens c limit stream Hver) in H
    as (new & -> & Ht & Hpos & Hlen); [|simpl; lia].
  simpl in Ht |- *.
  split; [lia|]. split; [assumption|]. split; [assumption|]. split.
  - intros received. rewrite <- Hlargest.
    apply Download_produces_paid. exact Hver.
  - intros w first chunk turns Hl Hc. rewrite <- Hlargest.
    apply (Download_paid c w first limit chunk stream turns Hl Hc Hver).
Qed.

Lemma download_tokens_match_orders_witness :
  total [2; 1] = Amount (orderOf 3)
  /\ Forall (fun n => 0 <= n) [2; 1]
  /\ length [2; 1]
     = length (Download_verified quiet (limitFor GET 10) Order_zero
                 [inr (Some (downOrder 2)); inr (Some (downOrder 3))])
  /\ (forall received : nat,
        0 <= available
               (Download_produces quiet (limitFor GET 10)
                  [inr (Some (downOrder 2)); inr (Some (downOrder 3))]
                  received)
          <= Amount (orderOf 3))
  /\ (forall (w : World) (first : PieceDownloadRequest)
             (chunk : DownloadChunk) (turns : list Turn),
        DownLimit first = Some (limitFor GET 10) ->
        DownChunk first = Some chunk ->
        len64 (sentBytes
                 (responsesOf w
                    (Download quiet w
                       (inr (Some first)
                        :: [inr (Some (downOrder 2));
                            inr (Some (downOrder 3))]) turns).2))
        <= Amount (orderOf 3)).
Proof.
  apply (download_tokens_match_orders quiet (limitFor GET 10)
           [inr (Some (downOrder 2)); inr (Some (downOrder 3))] None
           (orderOf 3) [2; 1]).
  - apply quiet_bounded. vm_compute. discriminate.
  - reflexivity.
Defined.

(** ** The chain of verified orders *)

Lemma Upload_verified_chained (c : Collab) (limit : OrderLimit)
    (stream : list (Recv PieceUploadRequest)) :
  forall st : UploadState,
    chained c limit (Amount (largestOrder st))
      (Upload_verified c limit st stream).
Proof.
  induction stream as [|r rest IH]; intros st; simpl; [exact I|].
  destruct r as [e | [m|]]; try exact I.
  destruct (Upload_message c limit m st) as [err st1] eqn:Hm.
  pose proof (Upload_message_largest _ _ _ _ _ _ Hm) as Hl.
  assert (Htail : chained c limit (Amount (largestOrder st1))
                    match err, UpDone m with
                    | None, None => Upload_verified c limit st1 rest
                    | _, _ => []
                    end).
  { destruct err; [exact I|]. destruct (UpDone m); [exact I | apply IH]. }
  destruct (Upload_accepts_inv c limit m st) as [Hn | (o & Ha & _ & Hv)].
  - rewrite Hn in Hl |- *. simpl in Hl |- *. rewrite <- Hl.
    destruct err; exact Htail.
  - rewrite Ha in Hl |- *. simpl in Hl |- *. rewrite Hl in Htail.
    split; [exact Hv|]. destruct err; exact Htail.
Qed.

Lemma Download_verified_chained (c : Collab) (limit : OrderLimit)
    (stream : list (Recv PieceDownloadRequest)) :
  forall largest : Order,
    chained c limit (Amount largest)
      (Download_verified c limit largest stream).
Proof.
  induction stream as [|r rest IH]; intros largest; simpl; [exact I|].
  destruct r as [e | [m|]]; try exact I.
  destruct (DownOrder m) as [o|]; [|exact I].
  destruct (VerifyOrder c limit o (Amount largest)) eqn:Hv; [exact I|].
  split; [exact Hv | apply IH].
Qed.

Lemma Download_loop_produced (c : Collab) (limit : OrderLimit)
    (stream : list (Recv PieceDownloadRequest)) :
  forall (largestOrder : Order) (acc : list Z),
    (Download_loop c limit largestOrder acc stream).2
    = acc ++ tokensOf (Amount largestOrder)
               (Download_verified c limit largestOrder stream).
Proof.
  induction stream as [|r rest IH]; intros lo acc; simpl.
  - rewrite app_nil_r. reflexivity.
  - destruct r as [e | [m|]].
    + destruct (Is_EOF e); [simpl; rewrite app_nil_r; reflexivity|].
      destruct (IsCanceled e); simpl; rewrite app_nil_r; reflexivity.
    + destruct (DownOrder m) as [o|];
        [|simpl; rewrite app_nil_r; reflexivity].
      destruct (VerifyOrder c limit o (Amount lo));
        [simpl; rewrite app_nil_r; reflexivity|].
      rewrite IH, <- app_assoc. reflexivity.
    + simpl. rewrite app_nil_r. reflexivity.
Qed.

(** Over an upload or a download, every order the loop accepts was
    verified against the amount of the order accepted just before it, the
    first against 0; the [largestOrder] the loop ends with is the last
    order it accepted; and the receiving loop of a download hands the
    throttle, for each order it accepted, the difference of its amount to
    the one before it. *)
Theorem verified_orders_chained (c : Collab) (limit : OrderLimit)
    (s : Session) :
  chained c limit 0 (verifiedOrders c limit s)
  /\ (forall w : World,
        (runSession c limit s w).1.2
        = default Order_zero (last (verifiedOrders c limit s)))
  /\ match s with
     | DownloadSession stream =>
         (Download_loop c limit Order_zero [] stream).2
         = tokensOf 0 (verifiedOrders c limit s)
     | UploadSession _ _ _ => True
     end.
Proof.
  split; [|split].
  - destruct s as [wr space stream | stream]; simpl.
    + apply (Upload_verified_chained c limit stream (Upload_start wr space)).
    + apply (Download_verified_chained c limit stream Order_zero).
  - intros w.
    destruct (runSession c limit s w) as [[err largest] w'] eqn:H.
    apply runSession_final in H. exact H.
  - destruct s as [wr space stream | stream]; [exact I|].
    apply (Download_loop_produced c limit stream Order_zero []).
Qed.

(** ** Downloads the reader refuses *)

(** A download whose piece the store cannot open fails with not-found when
    the store says the piece does not exist and with internal otherwise.
    Nothing is sent, no order is saved, no reader is closed, and the
    download is metered with size 0, as a cancellation when the store's
    error is one and as a failure otherwise. *)
Theorem download_without_reader (c : Collab) (w : World)
    (first : PieceDownloadRequest) (limit : OrderLimit)
    (chunk : DownloadChunk) (e : GoError)
    (stream : list (Recv PieceDownloadRequest)) (turns : list Turn) :
  DownLimit first = Some limit ->
  DownChunk first = Some chunk ->
  isGetAction (Action limit) = true ->
  ChunkSize chunk <= Limit limit ->
  verifyOrderLimit c limit = None ->
  ReaderWithWiscKey c (SatelliteId limit) (PieceId limit) w = inl e ->
  (Download c w (inr (Some first) :: stream) turns).1
  = Returned (Some (wrapped (if IsNotExist e then NotFound else Internal) e))
  /\ sent (Download c w (inr (Some first) :: stream) turns).2 = sent w
  /\ ordersQueue (Download c w (inr (Some first) :: stream) turns).2
     = ordersQueue w
  /\ usage (Download c w (inr (Some first) :: stream) turns).2 = usage w
  /\ events (Download c w (inr (Some first) :: stream) turns).2
     = events w
       ++ [WasPinged (now c);
           DownloadMeter (if IsCanceled e then BucketCancel
                          else BucketFailure) 0].
Proof.
  intros Hl Hc Ha Hsz Hv Hr.
  unfold Download, Download_counted. rewrite Hl, Hc, Ha. simpl negb. cbv iota.
  destruct (Z.ltb_spec (Limit limit) (ChunkSize chunk)); [lia|].
  rewrite Hv. unfold Download_metered.
  change (ReaderWithWiscKey c (SatelliteId limit) (PieceId limit)
            (emit (WasPinged (now c)) (setLive (add32 (liveRequests w) 1) w)))
    with (ReaderWithWiscKey c (SatelliteId limit) (PieceId limit) w).
  rewrite Hr. cbn [fst snd sent ordersQueue usage events emit setLive].
  repeat split.
  - destruct (IsNotExist e); reflexivity.
  - rewrite <- app_assoc.
    destruct (IsNotExist e); simpl; destruct (IsCanceled e); reflexivity.
Qed.

Lemma download_without_reader_witness :
  ((Download quiet idle [inr (Some (firstDown (limitFor GET 10) 0 3))] []).1
   = Returned (Some (wrapped NotFound os_NotExist))
   /\ sent (Download quiet idle
              [inr (Some (firstDown (limitFor GET 10) 0 3))] []).2
      = sent idle
   /\ ordersQueue (Download quiet idle
                     [inr (Some (firstDown (limitFor GET 10) 0 3))] []).2
      = ordersQueue idle
   /\ usage (Download quiet idle
               [inr (Some (firstDown (limitFor GET 10) 0 3))] []).2
      = usage idle
   /\ events (Download quiet idle
                [inr (Some (firstDown (limitFor GET 10) 0 3))] []).2
      = events idle
        ++ [WasPinged (now quiet); DownloadMeter BucketFailure 0])
  /\ (Download readerCanceled stocked
        [inr (Some (firstDown (limitFor GET 10) 0 3))] []).1
     = Returned (Some (wrapped Internal
                         (status Canceled "context canceled" [])))
  /\ events (Download readerCanceled stocked
               [inr (Some (firstDown (limitFor GET 10) 0 3))] []).2
     = events stocked
       ++ [WasPinged (now readerCanceled); DownloadMeter BucketCancel 0].
Proof.
  split.
  - apply (download_without_reader quiet idle
             (firstDown (limitFor GET 10) 0 3) (limitFor GET 10)
             {| ChunkOffset := 0; ChunkSize := 3 |} os_NotExist [] []
             eq_refl eq_refl eq_refl).
    + simpl. lia.
    + reflexivity.
    + reflexivity.
  - destruct (download_without_reader readerCanceled stocked
                (firstDown (limitFor GET 10) 0 3) (limitFor GET 10)
                {| ChunkOffset := 0; ChunkSize := 3 |}
                (status Canceled "context canceled" []) [] []
                eq_refl eq_refl eq_refl)
      as (Hres & _ & _ & _ & Hev).
    + simpl. lia.
    + reflexivity.
    + reflexivity.
    + split; [exact Hres | exact Hev].
Defined.

(** A download that asks for bytes past the end of the piece fails with
    invalid-argument once the reader is open: the reader is closed, no
    order is saved and nothing of the piece is sent.  The request is checked
    after the leading frame of a repair has gone out, so that a repair
    download refused for this reason has sent that frame. *)
Theorem download_beyond_piece (c : Collab) (w : World)
    (first : PieceDownloadRequest) (limit : OrderLimit)
    (chunk : DownloadChunk) (p : Piece)
    (stream : list (Recv PieceDownloadRequest)) (turns : list Turn) :
  DownLimit first = Some limit ->
  DownChunk first = Some chunk ->
  isGetAction (Action limit) = true ->
  ChunkSize chunk <= Limit limit ->
  verifyOrderLimit c limit = None ->
  ReaderWithWiscKey c (SatelliteId limit) (PieceId limit) w = inr p ->
  (Action limit = GET_REPAIR ->
   GetHashAndLimitFails c = None /\ SendHashFails c = None) ->
  ReaderSize p < add64 (ChunkOffset chunk) (ChunkSize chunk) ->
  (Download c w (inr (Some first) :: stream) turns).1
  = Returned (Some (moreThanAvailable
                      (add64 (ChunkOffset chunk) (ChunkSize chunk))
                      (ReaderSize p)))
  /\ responsesOf w (Download c w (inr (Some first) :: stream) turns).2
     = (if bool_decide (Action limit = GET_REPAIR)
        then [RespHashAndLimit (GetHashAndLimitWithWiscKey limit p).1
                (GetHashAndLimitWithWiscKey limit p).2]
        else [])
  /\ ordersQueue (Download c w (inr (Some first) :: stream) turns).2
     = ordersQueue w
  /\ usage (Download c w (inr (Some first) :: stream) turns).2 = usage w
  /\ events (Download c w (inr (Some first) :: stream) turns).2
     = events w
       ++ [WasPinged (now c); ReaderClosed;
           DownloadMeter BucketFailure (ReaderSize p)].
Proof.
  intros Hl Hc Ha Hsz Hv Hr Hrep Hbig.
  unfold responsesOf, Download, Download_counted.
  rewrite Hl, Hc, Ha. simpl negb. cbv iota.
  destruct (Z.ltb_spec (Limit limit) (ChunkSize chunk)); [lia|].
  rewrite Hv. unfold Download_metered.
  change (ReaderWithWiscKey c (SatelliteId limit) (PieceId limit)
            (emit (WasPinged (now c)) (setLive (add32 (liveRequests w) 1) w)))
    with (ReaderWithWiscKey c (SatelliteId limit) (PieceId limit) w).
  rewrite Hr. unfold Download_reading.
  destruct (bool_decide (Action limit = GET_REPAIR)) eqn:Hrepair.
  - apply bool_decide_eq_true in Hrepair. destruct (Hrep Hrepair) as [-> ->].
    destruct (GetHashAndLimitWithWiscKey limit p) as [pieceHash orderLimit].
    destruct (Z.ltb_spec (ReaderSize p)
                (add64 (ChunkOffset chunk) (ChunkSize chunk))); [|lia].
    cbn [fst snd sent ordersQueue usage events emit setLive send].
    rewrite drop_app_length, <- !app_assoc. repeat split.
  - destruct (Z.ltb_spec (ReaderSize p)
                (add64 (ChunkOffset chunk) (ChunkSize chunk))); [|lia].
    cbn [fst snd sent ordersQueue usage events emit setLive].
    rewrite drop_all, <- !app_assoc. repeat split.
Qed.

Lemma download_beyond_piece_witness :
  (Download quiet stocked
     [inr (Some (firstDown (limitFor GET_REPAIR 10) 2 2))] [turnAfter 1]).1
  = Returned (Some (moreThanAvailable 4 3))
  /\ responsesOf stocked
       (Download quiet stocked
          [inr (Some (firstDown (limitFor GET_REPAIR 10) 2 2))] [turnAfter 1]).2
     = [RespHashAndLimit
          (GetHashAndLimitWithWiscKey (limitFor GET_REPAIR 10) threeBytes).1
          (GetHashAndLimitWithWiscKey (limitFor GET_REPAIR 10) threeBytes).2]
  /\ ordersQueue (Download quiet stocked
                    [inr (Some (firstDown (limitFor GET_REPAIR 10) 2 2))]
                    [turnAfter 1]).2
     = ordersQueue stocked
  /\ usage (Download quiet stocked
              [inr (Some (firstDown (limitFor GET_REPAIR 10) 2 2))]
              [turnAfter 1]).2
     = usage stocked
  /\ events (Download quiet stocked
               [inr (Some (firstDown (limitFor GET_REPAIR 10) 2 2))]
               [turnAfter 1]).2
     = events stocked
       ++ [WasPinged (now quiet); ReaderClosed;
           DownloadMeter BucketFailure (ReaderSize threeBytes)].
Proof.
  apply (download_beyond_piece quiet stocked
           (firstDown (limitFor GET_REPAIR 10) 2 2) (limitFor GET_REPAIR 10)
           {| ChunkOffset := 2; ChunkSize := 2 |} threeBytes [] [turnAfter 1]
           eq_refl eq_refl eq_refl).
  - simpl. lia.
  - reflexivity.
  - reflexivity.
  - intros _. split; reflexivity.
  - vm_compute. reflexivity.
Defined.

(** ** Delete *)

(** A delete returns nil exactly when its limit has the delete action and
    passes verification: a failure of the store to delete the piece is
    logged, not returned.  A delete that returns an error has not touched
    the store, and the error is invalid-argument for another action and
    unauthenticated for a limit that does not verify. *)
Theorem delete_reports_only_the_limit (c : Collab) (w : World)
    (limit : OrderLimit) :
  ((Delete c w limit).1 = None
   <-> Action limit = DELETE /\ verifyOrderLimit c limit = None)
  /\ ((Delete c w limit).1 <> None ->
      blobs (Delete c w limit).2 = blobs w
      /\ Code (Delete c w limit).1
         = (if bool_decide (Action limit = DELETE) then Unauthenticated
            else InvalidArgument))
  /\ events (Delete c w limit).2
     = events w
       ++ WasPinged (now c)
          :: (if bool_decide ((Delete c w limit).1 = None
                              /\ StoreDeleteFails c = None)
              then [StoreDeleted (SatelliteId limit) (PieceId limit)]
              else []).
Proof.
  unfold Delete.
  destruct (bool_decide (Action limit = DELETE)) eqn:Ha.
  - apply bool_decide_eq_true in Ha. cbn [negb].
    destruct (verifyOrderLimit c limit) as [e|] eqn:Hv.
    + cbn [fst snd blobs events emit setLive]. split; [|split].
      * split; [discriminate | intros [_ H]; discriminate H].
      * intros _. split; reflexivity.
      * rewrite bool_decide_eq_false_2 by (intros [H _]; discriminate H).
        reflexivity.
    + destruct (StoreDeleteFails c) as [e|] eqn:Hs;
        cbn [fst snd blobs events emit setLive setBlobs]; (split; [|split]).
      * split; [intros _; split; [assumption | reflexivity] | reflexivity].
      * intros H. contradiction.
      * rewrite bool_decide_eq_false_2 by (intros [_ H]; discriminate H).
        reflexivity.
      * split; [intros _; split; [assumption | reflexivity] | reflexivity].
      * intros H. contradiction.
      * rewrite bool_decide_eq_true_2 by (split; reflexivity).
        rewrite <- app_assoc. reflexivity.
  - apply bool_decide_eq_false in Ha. cbn [negb fst snd blobs events emit
                                           setLive].
    split; [|split].
    + split; [discriminate | intros [H _]; contradiction].
    + intros _. split; reflexivity.
    + rewrite bool_decide_eq_false_2 by (intros [H _]; discriminate H).
      reflexivity.
Qed.

(** ** Calls of the satellite *)

(** DeletePieces and RestoreTrash reach the piece deleter and the store
    only for a peer that has an identity and that the trust pool accepts,
    and then on behalf of that peer: the deleter is handed the peer's id
    with the piece ids of the request and its count of unhandled pieces is
    the answer, and the store restores the trash of the peer, a failure of
    it being returned as internal.  A peer without identity is answered
    unauthenticated and one the trust pool refuses permission-denied, by
    both calls alike. *)
Theorem satellite_calls_check_peer (c : Collab) (enqueue : Z -> list Z -> Z)
    (restoreFails : Z -> option GoError) (peer : GoError + Z)
    (pieceIds : list Z) :
  (forall call : Z * list Z,
     (DeletePieces c enqueue peer pieceIds).2 = Some call ->
     exists peerID,
       peer = inr peerID /\ VerifySatelliteID c peerID = None
       /\ call = (peerID, pieceIds)
       /\ (DeletePieces c enqueue peer pieceIds).1
          = inr (enqueue peerID pieceIds))
  /\ (forall satellite : Z,
        (RestoreTrash c restoreFails peer).2 = Some satellite ->
        peer = inr satellite /\ VerifySatelliteID c satellite = None
        /\ (RestoreTrash c restoreFails peer).1
           = Wrap Internal (restoreFails satellite))
  /\ ((DeletePieces c enqueue peer pieceIds).2 = None
      <-> (RestoreTrash c restoreFails peer).2 = None)
  /\ ((DeletePieces c enqueue peer pieceIds).2 = None ->
      exists e1 e2,
        (DeletePieces c enqueue peer pieceIds).1 = inl e1
        /\ (RestoreTrash c restoreFails peer).1 = Some e2
        /\ Code (Some e1) = Code (Some e2)
        /\ Code (Some e1) = match peer with
                            | inl _ => Unauthenticated
                            | inr _ => PermissionDenied
                            end).
Proof.
  unfold DeletePieces, RestoreTrash.
  destruct peer as [e | peerID].
  - repeat split; try discriminate.
    intros _. eexists _, _. repeat split.
  - destruct (VerifySatelliteID c peerID) eqn:Hv.
    + repeat split; try discriminate.
      intros _. eexists _, _. repeat split.
    + split; [|split; [|split]].
      * intros call H. simpl in H. simplify_eq. exists peerID.
        repeat split; assumption.
      * intros satellite H. simpl in H. simplify_eq.
        repeat split; assumption.
      * split; discriminate.
      * discriminate.
Qed.

(** ** Retain *)

(** A retain call touches nothing but the retain queue, and that only to
    append one request, made of the peer's id and the creation date and
    filter of the call, for a peer the trust pool accepts; a call that
    returns an error leaves the world as it was, and a filter that does not
    parse is answered invalid-argument with the parser's error. *)
Theorem retain_touches_only_its_queue (cfg : Config) (c : Collab)
    (peer : GoError + Z) (retainReq : option RetainRequest) (w : World) :
  ((Retain cfg c peer retainReq w).2 = w
   \/ (exists peerID,
         peer = inr peerID
         /\ RetainStatus c <> Disabled
         /\ VerifySatelliteID c peerID = None
         /\ NewFromBytesFails c (GetFilter retainReq) = None
         /\ (Retain cfg c peer retainReq w).1 = None
         /\ (Retain cfg c peer retainReq w).2
            = setRetain
                (retainQueue w
                 ++ [{| ReqSatelliteID := peerID;
                        ReqCreatedBefore := GetCreationDate retainReq;
                        ReqFilter := GetFilter retainReq |}]) w))
  /\ ((Retain cfg c peer retainReq w).1 <> None ->
      (Retain cfg c peer retainReq w).2 = w)
  /\ (forall peerID e,
        RetainStatus c <> Disabled ->
        peer = inr peerID ->
        VerifySatelliteID c peerID = None ->
        NewFromBytesFails c (GetFilter retainReq) = Some e ->
        Retain cfg c peer retainReq w = (Some (wrapped InvalidArgument e), w)).
Proof.
  split; [|split].
  - unfold Retain.
    destruct (RetainStatus c) eqn:Hst; [left; reflexivity | |];
      (destruct peer as [e | peerID]; [left; reflexivity|]);
      (destruct (VerifySatelliteID c peerID) eqn:Hv; [left; reflexivity|]);
      (destruct (NewFromBytesFails c (GetFilter retainReq)) eqn:Hp;
         [left; reflexivity|]);
      (destruct (QueueAccepts c _ _); [|left; reflexivity]);
      right; exists peerID; repeat split; try assumption; discriminate.
  - unfold Retain.
    destruct (RetainStatus c); [reflexivity | |];
      (destruct peer as [e | peerID]; [reflexivity|]);
      (destruct (VerifySatelliteID c peerID); [reflexivity|]);
      (destruct (NewFromBytesFails c (GetFilter retainReq)); [reflexivity|]);
      (destruct (QueueAccepts c _ _); [|reflexivity]);
      intros H; contradiction.
  - intros peerID e Hst -> Hv Hp. unfold Retain. rewrite Hv, Hp.
    destruct (RetainStatus c); [contradiction | reflexivity | reflexivity].
Qed.

(** ** What a download can send or persist *)

(** A download that sends a response or changes the orders queue or the
    ledger carried a limit and a chunk in its first message, with a get
    action and a size within the limit, its limit passed verification, and
    the store opened a reader on the piece. *)
Theorem download_changes_need_reader (c : Collab) (w : World)
    (stream : list (Recv PieceDownloadRequest)) (turns : list Turn) :
  sent (Download c w stream turns).2 <> sent w
  \/ ordersQueue (Download c w stream turns).2 <> ordersQueue w
  \/ usage (Download c w stream turns).2 <> usage w ->
  exists first limit chunk p rest,
    stream = inr (Some first) :: rest
    /\ DownLimit first = Some limit
    /\ DownChunk first = Some chunk
    /\ isGetAction (Action limit) = true
    /\ ChunkSize chunk <= Limit limit
    /\ verifyOrderLimit c limit = None
    /\ ReaderWithWiscKey c (SatelliteId limit) (PieceId limit) w = inr p.
Proof.
  intros Hch.
  assert (Hsame : forall (out : Outcome) (w1 : World),
            sent w1 = sent w -> ordersQueue w1 = ordersQueue w ->
            usage w1 = usage w ->
            Download c w stream turns
            = (out, setLive (add32 (liveRequests w1) (-1)) w1) -> False).
  { intros out w1 Hs Hq Hu Heq. rewrite Heq in Hch. simpl in Hch.
    destruct Hch as [H | [H | H]]; contradiction. }
  revert Hsame. unfold Download, Download_counted.
  destruct stream as [|[e | [first|]] rest];
    try (intros Hsame; exfalso; eapply Hsame; [..|reflexivity]; reflexivity).
  destruct (DownLimit first) as [limit|] eqn:Hl,
    (DownChunk first) as [chunk|] eqn:Hc;
    try (intros Hsame; exfalso; eapply Hsame; [..|reflexivity]; reflexivity).
  destruct (isGetAction (Action limit)) eqn:Ha; cbn [negb];
    [|intros Hsame; exfalso; eapply Hsame; [..|reflexivity]; reflexivity].
  destruct (Z.ltb_spec (Limit limit) (ChunkSize chunk));
    [intros Hsame; exfalso; eapply Hsame; [..|reflexivity]; reflexivity|].
  destruct (verifyOrderLimit c limit) eqn:Hv;
    [intros Hsame; exfalso; eapply Hsame; [..|reflexivity]; reflexivity|].
  unfold Download_metered.
  change (ReaderWithWiscKey c (SatelliteId limit) (PieceId limit)
            (emit (WasPinged (now c)) (setLive (add32 (liveRequests w) 1) w)))
    with (ReaderWithWiscKey c (SatelliteId limit) (PieceId limit) w).
  destruct (ReaderWithWiscKey c (SatelliteId limit) (PieceId limit) w)
    as [e|p] eqn:Hr;
    [intros Hsame; exfalso; eapply Hsame; [..|reflexivity]; reflexivity|].
  intros _. exists first, limit, chunk, p, rest.
  repeat split; assumption.
Qed.

Lemma download_changes_need_reader_witness :
  exists first limit chunk p (rest : list (Recv PieceDownloadRequest)),
    arrive [firstDown (limitFor GET 10) 0 3; downOrder 3]
    = inr (Some first) :: rest
    /\ DownLimit first = Some limit
    /\ DownChunk first = Some chunk
    /\ isGetAction (Action limit) = true
    /\ ChunkSize chunk <= Limit limit
    /\ verifyOrderLimit quiet limit = None
    /\ ReaderWithWiscKey quiet (SatelliteId limit) (PieceId limit) stocked
       = inr p.
Proof.
  apply (download_changes_need_reader quiet stocked
           (arrive [firstDown (limitFor GET 10) 0 3; downOrder 3])
           [turnAfter 1]).
  left. vm_compute. discriminate.
Defined.

(** * The key-value store of piece data *)

(** What [Get] and [Has] answer for a key depends on the entry of that key
    and on the failures of the database only. *)
Lemma ldb_reads_ext (d d1 : Ldb.DB) (id : Z) :
  Ldb.entries d1 !! id = Ldb.entries d !! id ->
  Ldb.getFails d1 = Ldb.getFails d ->
  Ldb.valueFails d1 = Ldb.valueFails d ->
  Ldb.Get {| Ldb.db := Some d1 |} id = Ldb.Get {| Ldb.db := Some d |} id
  /\ Ldb.Has {| Ldb.db := Some d1 |} id = Ldb.Has {| Ldb.db := Some d |} id.
Proof.
  intros He Hg Hv.
  unfold Ldb.Get, Ldb.Has, Ldb.WiscKeyGet, Ldb.WiscKeyHas, Ldb.txnGet.
  cbn [Ldb.db]. rewrite He, Hg, Hv. split; reflexivity.
Qed.

Lemma ldb_dbUpdate_cases (d d1 : Ldb.DB) (refused : option Ldb.DbError)
    (change : gmap Z bytes -> gmap Z bytes) (err : option Ldb.DbError) :
  Ldb.dbUpdate d refused change = (err, d1) ->
  (exists e0,
     (refused = Some e0 \/ refused = None /\ Ldb.commitFails d = Some e0)
     /\ err = Some e0 /\ d1 = d)
  \/ (refused = None /\ Ldb.commitFails d = None /\ err = None
      /\ Ldb.entries d1 = change (Ldb.entries d)
      /\ Ldb.getFails d1 = Ldb.getFails d
      /\ Ldb.valueFails d1 = Ldb.valueFails d).
Proof.
  unfold Ldb.dbUpdate. intros H.
  destruct refused as [e0|].
  { simplify_eq. left. exists e0. repeat split. left. reflexivity. }
  destruct (Ldb.commitFails d) as [e0|] eqn:Hc; simplify_eq.
  - left. exists e0. repeat split. right. split; reflexivity.
  - right. repeat split.
Qed.

(** [New] drops the error of [badger.Open]: on the store it makes when no
    database was opened, [Set] panics.  On a store with a database [Set]
    returns.  When the database refuses the key or the data, or the commit,
    [Set] leaves the store as it was and returns that error wrapped in the
    class of the package.  Otherwise it succeeds: then [Has] finds the key
    and [Get] gives the data set, whenever the database serves the reads,
    and every other key is answered as before. *)
Theorem ldb_set_then_get (store : Ldb.PieceDataStore) (id : Z)
    (data : bytes) :
  match Ldb.db store with
  | None => Ldb.Set_ store id data = Ldb.NilDereference
  | Some d =>
      exists (err : option Ldb.DbError) (store1 : Ldb.PieceDataStore),
        Ldb.Set_ store id data = Ldb.Ran (err, store1)
        /\ ((exists e0,
               (Ldb.setFails d id data = Some e0
                \/ Ldb.setFails d id data = None
                   /\ Ldb.commitFails d = Some e0)
               /\ err = Some (Ldb.classWrapped e0) /\ store1 = store)
            \/ (Ldb.setFails d id data = None
                /\ Ldb.commitFails d = None
                /\ err = None
                /\ (forall id', id' <> id ->
                      Ldb.Get store1 id' = Ldb.Get store id'
                      /\ Ldb.Has store1 id' = Ldb.Has store id')
                /\ (Ldb.getFails d id = None ->
                    Ldb.Has store1 id = Ldb.Ran (true, None)
                    /\ (Ldb.valueFails d id = None ->
                        Ldb.Get store1 id = Ldb.Ran (inr data)))))
  end.
Proof.
  destruct store as [[d|]]; cbn [Ldb.db]; [|reflexivity].
  unfold Ldb.Set_, Ldb.WiscKeySet. cbn [Ldb.db].
  destruct (Ldb.dbUpdate d (Ldb.setFails d id data) (insert id data))
    as [err0 d1] eqn:Hu.
  exists (Ldb.ErrorWrap err0), {| Ldb.db := Some d1 |}.
  split; [reflexivity|].
  apply ldb_dbUpdate_cases in Hu
    as [(e0 & Hf & -> & ->) | (Hs & Hc & -> & He & Hg & Hv)].
  - left. exists e0. repeat split. exact Hf.
  - right. split; [exact Hs|]. split; [exact Hc|]. split; [reflexivity|].
    split.
    + intros id' Hne. apply ldb_reads_ext; try assumption.
      rewrite He. apply lookup_insert_ne. congruence.
    + intros Hget.
      unfold Ldb.Has, Ldb.Get, Ldb.WiscKeyHas, Ldb.WiscKeyGet, Ldb.txnGet.
      cbn [Ldb.db]. rewrite Hg, Hv, Hget, He, lookup_insert_eq.
      split; [reflexivity|]. intros ->. reflexivity.
Qed.

Lemma ldb_set_then_get_witness :
  Ldb.Set_ Ldb.unopened 4 [Byte.x01; Byte.x02] = Ldb.NilDereference
  /\ exists (err : option Ldb.DbError) (store1 : Ldb.PieceDataStore),
       Ldb.Set_ Ldb.emptyStore 4 [Byte.x01; Byte.x02]
       = Ldb.Ran (err, store1)
       /\ err = None
       /\ Ldb.Has store1 4 = Ldb.Ran (true, None)
       /\ Ldb.Get store1 4 = Ldb.Ran (inr [Byte.x01; Byte.x02]).
Proof.
  split; [exact (ldb_set_then_get Ldb.unopened 4 [Byte.x01; Byte.x02])|].
  destruct (ldb_set_then_get Ldb.emptyStore 4 [Byte.x01; Byte.x02])
    as (err & store1 & Hset & [(e0 & [Hf | [_ Hf]] & _)
                              | (_ & _ & Herr & _ & Hsame)]).
  - discriminate Hf.
  - discriminate Hf.
  - exists err, store1. split; [exact Hset|]. split; [exact Herr|].
    destruct (Hsame eq_refl) as [Hhas Hget].
    split; [exact Hhas | exact (Hget eq_refl)].
Defined.

(** On the store [New] makes when no database was opened, [Delete] panics.
    On a store with a database [Delete] returns.  When the database
    refuses the key, or the commit, [Delete] leaves the store as it was and
    returns that error wrapped in the class of the package.  Otherwise it
    succeeds, whether or not the key was there: then [Has] answers false
    without an error and [Get] answers with the not-found error of the
    database, wrapped, whenever the database serves the read, and every
    other key is answered as before. *)
Theorem ldb_delete_then_has (store : Ldb.PieceDataStore) (id : Z) :
  match Ldb.db store with
  | None => Ldb.Delete store id = Ldb.NilDereference
  | Some d =>
      exists (err : option Ldb.DbError) (store1 : Ldb.PieceDataStore),
        Ldb.Delete store id = Ldb.Ran (err, store1)
        /\ ((exists e0,
               (Ldb.deleteFails d id = Some e0
                \/ Ldb.deleteFails d id = None
                   /\ Ldb.commitFails d = Some e0)
               /\ err = Some (Ldb.classWrapped e0) /\ store1 = store)
            \/ (Ldb.deleteFails d id = None
                /\ Ldb.commitFails d = None
                /\ err = None
                /\ (forall id', id' <> id ->
                      Ldb.Get store1 id' = Ldb.Get store id'
                      /\ Ldb.Has store1 id' = Ldb.Has store id')
                /\ (Ldb.getFails d id = None ->
                    Ldb.Has store1 id = Ldb.Ran (false, None)
                    /\ Ldb.Get store1 id
                       = Ldb.Ran
                           (inl (Ldb.classWrapped Ldb.ErrKeyNotFound)))))
  end.
Proof.
  destruct store as [[d|]]; cbn [Ldb.db]; [|reflexivity].
  unfold Ldb.Delete, Ldb.WiscKeyDel. cbn [Ldb.db].
  destruct (Ldb.dbUpdate d (Ldb.deleteFails d id) (delete id))
    as [err0 d1] eqn:Hu.
  exists (Ldb.ErrorWrap err0), {| Ldb.db := Some d1 |}.
  split; [reflexivity|].
  apply ldb_dbUpdate_cases in Hu
    as [(e0 & Hf & -> & ->) | (Hs & Hc & -> & He & Hg & Hv)].
  - left. exists e0. repeat split. exact Hf.
  - right. split; [exact Hs|]. split; [exact Hc|]. split; [reflexivity|].
    split.
    + intros id' Hne. apply ldb_reads_ext; try assumption.
      rewrite He. apply lookup_delete_ne. congruence.
    + intros Hget.
      unfold Ldb.Has, Ldb.Get, Ldb.WiscKeyHas, Ldb.WiscKeyGet, Ldb.txnGet.
      cbn [Ldb.db]. rewrite Hg, Hget, He, lookup_delete_eq.
      split; reflexivity.
Qed.

Lemma ldb_delete_then_has_witness :
  Ldb.Delete Ldb.unopened 4 = Ldb.NilDereference
  /\ exists (err : option Ldb.DbError) (store1 : Ldb.PieceDataStore),
       Ldb.Delete Ldb.emptyStore 4 = Ldb.Ran (err, store1)
       /\ err = None
       /\ Ldb.Has store1 4 = Ldb.Ran (false, None)
       /\ Ldb.Get store1 4
          = Ldb.Ran (inl (Ldb.classWrapped Ldb.ErrKeyNotFound)).
Proof.
  split; [exact (ldb_delete_then_has Ldb.unopened 4)|].
  destruct (ldb_delete_then_has Ldb.emptyStore 4)
    as (err & store1 & Hdel & [(e0 & [Hf | [_ Hf]] & _)
                              | (_ & _ & Herr & _ & Hsame)]).
  - discriminate Hf.
  - discriminate Hf.
  - exists err, store1. split; [exact Hdel|]. split; [exact Herr|].
    exact (Hsame eq_refl).
Defined.

(** On a store without a database [Get] and [Has] panic.  On a store with
    a database both return, and they agree on what the store holds and
    differ on a key that is missing: when [Get] gives a value [Has] answers
    true, and that value is the entry of the key; [Has] answers a missing
    key with false and no error, where [Get] returns the not-found error of
    the database; and an error [Has] returns is never a not-found error,
    and is the error [Get] returns. *)
Theorem ldb_has_agrees_with_get (store : Ldb.PieceDataStore) (id : Z) :
  match Ldb.db store with
  | None =>
      Ldb.Get store id = Ldb.NilDereference
      /\ Ldb.Has store id = Ldb.NilDereference
  | Some d =>
      exists (got : Ldb.DbError + bytes) (has : bool * option Ldb.DbError),
        Ldb.Get store id = Ldb.Ran got
        /\ Ldb.Has store id = Ldb.Ran has
        /\ (forall value,
              got = inr value ->
              has = (true, None) /\ Ldb.entries d !! id = Some value)
        /\ (has = (false, None) ->
            exists e, got = inl e /\ Ldb.IsKeyNotFound e = true)
        /\ (forall e,
              has.2 = Some e ->
              has.1 = false
              /\ Ldb.IsKeyNotFound e = false
              /\ got = inl e)
        /\ (has.1 = true ->
            exists value, Ldb.entries d !! id = Some value)
  end.
Proof.
  destruct store as [[d|]]; cbn [Ldb.db]; [|split; reflexivity].
  unfold Ldb.Has, Ldb.Get, Ldb.WiscKeyHas, Ldb.WiscKeyGet, Ldb.txnGet.
  cbn [Ldb.db].
  destruct (Ldb.getFails d id) as [e0|].
  - destruct (Ldb.IsKeyNotFound e0) eqn:Hk;
      (eexists _, _; split; [reflexivity|]; split; [reflexivity|]);
      cbn [fst snd].
    + split; [discriminate|]. split; [|split; discriminate].
      intros _. eexists. split; [reflexivity | exact Hk].
    + split; [discriminate|]. split; [discriminate|]. split; [|discriminate].
      intros e H. simplify_eq. repeat split. exact Hk.
  - destruct (Ldb.entries d !! id) as [v|].
    + destruct (Ldb.valueFails d id) as [e1|];
        (eexists _, _; split; [reflexivity|]; split; [reflexivity|]);
        cbn [fst snd]; (split; [|split; [discriminate|split; [discriminate|]]]).
      * discriminate.
      * intros _. exists v. reflexivity.
      * intros value H. simplify_eq. split; reflexivity.
      * intros _. exists v. reflexivity.
    + eexists _, _. split; [reflexivity|]. split; [reflexivity|].
      cbn [fst snd Ldb.IsKeyNotFound].
      split; [discriminate|]. split; [|split; discriminate].
      intros _. eexists. split; reflexivity.
Qed.
